(** * Kaleidoscope: the MPM solver and the mirror tracer, over the reals

    A shallow embedding of [src/reflect.py] (class [Reflect]) and
    [src/mpm.py] (class [Mpm]).  The Taichi kernels compute on floats; here
    every float is a real number ([R]), so the theorems are the exact
    statements the floating-point code approximates.  Integers are [Z],
    Taichi fields are lists (one entry per particle) or index functions
    (the dense grid), and a kernel's parallel loop is a sequential fold:
    the only shared writes are atomic additions, which commute over [R]. *)

From Stdlib Require Import Reals Lra Lia ZArith List Bool Psatz.
Import ListNotations.

Open Scope R_scope.

(** ** Small vectors and matrices (what [ti.Vector] and [ti.Matrix] give) *)

Record Vec2 : Type := mkVec2 { vx : R; vy : R }.
Record Mat2 : Type := mkMat2 { m00 : R; m01 : R; m10 : R; m11 : R }.

Definition Vec3 : Type := (R * R * R)%type.

Definition Rltb (a b : R) : bool := if Rlt_dec a b then true else false.
Definition Rleb (a b : R) : bool := if Rle_dec a b then true else false.
Definition Rneqb (a b : R) : bool := if Req_dec_T a b then false else true.

Definition vzero : Vec2 := mkVec2 0 0.
Definition vadd (a b : Vec2) : Vec2 := mkVec2 (vx a + vx b) (vy a + vy b).
Definition vsub (a b : Vec2) : Vec2 := mkVec2 (vx a - vx b) (vy a - vy b).
Definition vscale (k : R) (a : Vec2) : Vec2 := mkVec2 (k * vx a) (k * vy a).
Definition vdiv (a : Vec2) (k : R) : Vec2 := mkVec2 (vx a / k) (vy a / k).
Definition vmap (f : R -> R) (a : Vec2) : Vec2 := mkVec2 (f (vx a)) (f (vy a)).
Definition dot (a b : Vec2) : R := vx a * vx b + vy a * vy b.
(** [a.cross(b)] of two 2D vectors is the scalar [a.x * b.y - a.y * b.x]. *)
Definition cross (a b : Vec2) : R := vx a * vy b - vy a * vx b.
Definition norm (a : Vec2) : R := sqrt (vx a * vx a + vy a * vy a).
(** Component [k] of a vector, as in [v[k]]. *)
Definition vget (a : Vec2) (k : nat) : R :=
  match k with O => vx a | _ => vy a end.
Definition vset (a : Vec2) (k : nat) (r : R) : Vec2 :=
  match k with O => mkVec2 r (vy a) | _ => mkVec2 (vx a) r end.

Definition mzero : Mat2 := mkMat2 0 0 0 0.
Definition midentity : Mat2 := mkMat2 1 0 0 1.
Definition madd (a b : Mat2) : Mat2 :=
  mkMat2 (m00 a + m00 b) (m01 a + m01 b) (m10 a + m10 b) (m11 a + m11 b).
Definition msub (a b : Mat2) : Mat2 :=
  mkMat2 (m00 a - m00 b) (m01 a - m01 b) (m10 a - m10 b) (m11 a - m11 b).
Definition mscale (k : R) (a : Mat2) : Mat2 :=
  mkMat2 (k * m00 a) (k * m01 a) (k * m10 a) (k * m11 a).
(** [a @ b] *)
Definition mmul (a b : Mat2) : Mat2 :=
  mkMat2 (m00 a * m00 b + m01 a * m10 b) (m00 a * m01 b + m01 a * m11 b)
         (m10 a * m00 b + m11 a * m10 b) (m10 a * m01 b + m11 a * m11 b).
(** [a @ v] *)
Definition mvec (a : Mat2) (v : Vec2) : Vec2 :=
  mkVec2 (m00 a * vx v + m01 a * vy v) (m10 a * vx v + m11 a * vy v).
Definition mtranspose (a : Mat2) : Mat2 :=
  mkMat2 (m00 a) (m10 a) (m01 a) (m11 a).
(** [u.outer_product(w)] *)
Definition outer_product (u w : Vec2) : Mat2 :=
  mkMat2 (vx u * vx w) (vx u * vy w) (vy u * vx w) (vy u * vy w).
(** The diagonal entry [a[d, d]] and its assignment. *)
Definition mdiag (a : Mat2) (d : nat) : R :=
  match d with O => m00 a | _ => m11 a end.
Definition mdiag_set (a : Mat2) (d : nat) (r : R) : Mat2 :=
  match d with
  | O => mkMat2 r (m01 a) (m10 a) (m11 a)
  | _ => mkMat2 (m00 a) (m01 a) (m10 a) r
  end.

(** [r.cast(int)] / [int(r)]: truncation toward zero. *)
Definition trunc (r : R) : Z :=
  if Rle_dec 0 r then Int_part r else (- Int_part (- r))%Z.

(** A one-dimensional field: read at an index, write at an index.  Every
    index the kernels use comes from a loop over the field itself. *)
Fixpoint upd {A : Type} (l : list A) (p : nat) (a : A) : list A :=
  match l, p with
  | [], _ => []
  | _ :: t, O => a :: t
  | h :: t, S p' => h :: upd t p' a
  end.

(** ** [reflect.py]: the mirror polygon and the tracer *)

Module Reflect.

Record t : Type := mk {
  center : Vec2;
  n_mirrors : Z;
  mirror_pts : list Vec2;
  (** shape of [obj_pixels] and [img_pixels] *)
  res : Z * Z
}.

(** [np.linspace(start, stop, num)] with the default [endpoint=True]:
    a negative [num] raises [ValueError]; otherwise [num] samples
    [start + k * step] with [step = (stop - start) / (num - 1)], and the
    single sample [start] when [num = 1]. *)
Definition linspace (start stop : R) (num : Z) : option (list R) :=
  if (num <? 0)%Z then None
  else
    let div := (num - 1)%Z in
    Some (map (fun k : nat =>
                 if (0 <? div)%Z
                 then INR k * ((stop - start) / IZR div) + start
                 else INR k * (stop - start) + start)
              (seq 0 (Z.to_nat num))).

(** Taichi refuses to allocate a field one of whose dimensions is not
    positive. *)
Definition field_shape_ok (n : Z) : bool := (0 <? n)%Z.

(** [Reflect.__init__(center, n_mirrors, radius, res)]; [None] stands for
    an exception raised by a library call. *)
Definition init (center : Vec2) (n_mirrors : Z) (radius : R) (res : Z * Z)
  : option t :=
  if negb (field_shape_ok (n_mirrors + 1)) then None
  else
    match linspace 0 (2 * PI) (n_mirrors + 1) with
    | None => None
    | Some theta =>
        let pts := map (fun th => mkVec2 (vx center + radius * cos th)
                                         (vy center + radius * sin th))
                       theta in
        if field_shape_ok (fst res) && field_shape_ok (snd res)
        then Some (mk center n_mirrors pts res)
        else None
    end.

(** [Reflect.reflection(obj, mirror_p0, mirror_p1)] *)
Definition reflection (obj mirror_p0 mirror_p1 : Vec2) : Vec2 :=
  let d := vsub mirror_p1 mirror_p0 in
  let dx := vx d in
  let dy := vy d in
  let a := (dx * dx - dy * dy) / (dx * dx + dy * dy) in
  let b := (2 * dx * dy) / (dx * dx + dy * dy) in
  vadd mirror_p0 (mvec (mkMat2 a b b (- a)) (vsub obj mirror_p0)).

(** The determinant and the two parameters [Reflect.intersection] solves
    for. *)
Definition det (a0 a1 b0 b1 : Vec2) : R := cross (vsub a0 a1) (vsub b0 b1).
Definition t_a (a0 a1 b0 b1 : Vec2) : R :=
  cross (vsub a0 b0) (vsub b0 b1) / det a0 a1 b0 b1.
Definition t_b (a0 a1 b0 b1 : Vec2) : R :=
  cross (vsub a0 b0) (vsub a0 a1) / det a0 a1 b0 b1.

(** [Reflect.intersection(a0, a1, b0, b1)] *)
Definition intersection (a0 a1 b0 b1 : Vec2) : Vec2 :=
  let ans := a1 in
  if Rneqb (det a0 a1 b0 b1) 0 then
    let ta := t_a a0 a1 b0 b1 in
    let tb := t_b a0 a1 b0 b1 in
    if Rleb 0 ta && Rleb ta 1 && (Rleb 0 tb && Rleb tb 1)
    then vadd b0 (vscale tb (vsub b1 b0))
    else ans
  else ans.

(** [self.mirror_pts[k]] *)
Definition pt (rf : t) (k : nat) : Vec2 := nth k (mirror_pts rf) vzero.

(** The inner loop of [tracing] over the mirrors [k = 0 .. n_mirrors-1],
    from [closest_hit = dst], [closest_k = 0]. *)
Definition closest (rf : t) (src dst : Vec2) : Vec2 * nat :=
  fold_left
    (fun (best : Vec2 * nat) (k : nat) =>
       let hit := intersection src dst (pt rf k) (pt rf (k + 1)) in
       if Rltb (dot (vsub hit src) (vsub hit (fst best))) (- 1e-1)
       then (hit, k)
       else best)
    (seq 0 (Z.to_nat (n_mirrors rf)))
    (dst, O).

(** One pass of the outer loop of [tracing]: [None] is the [break], and
    [Some (src', dst')] the state after a reflection. *)
Definition tracing_step (rf : t) (src dst : Vec2) : option (Vec2 * Vec2) :=
  let (closest_hit, closest_k) := closest rf src dst in
  if Rltb (norm (vsub closest_hit dst)) 1e-3 then None
  else Some (closest_hit,
             reflection dst (pt rf closest_k) (pt rf (closest_k + 1))).

(** [for t in range(100)], as a loop on the number of passes left. *)
Fixpoint tracing_loop (rf : t) (passes : nat) (src dst : Vec2) : Vec2 :=
  match passes with
  | O => dst
  | S passes' =>
      match tracing_step rf src dst with
      | None => dst
      | Some (src', dst') => tracing_loop rf passes' src' dst'
      end
  end.

(** [Reflect.tracing(self, i, j)] *)
Definition tracing (rf : t) (i j : Z) : Vec2 :=
  tracing_loop rf 100 (center rf) (mkVec2 (IZR i) (IZR j)).

(** The squared length of the mirror's direction. *)
Definition mirror_len2 (p0 p1 : Vec2) : R :=
  (vx p1 - vx p0) * (vx p1 - vx p0) + (vy p1 - vy p0) * (vy p1 - vy p0).

(** The two coefficients of the reflection matrix [[a, b], [b, -a]]. *)
Definition mirror_a (p0 p1 : Vec2) : R :=
  ((vx p1 - vx p0) * (vx p1 - vx p0) - (vy p1 - vy p0) * (vy p1 - vy p0))
  / mirror_len2 p0 p1.
Definition mirror_b (p0 p1 : Vec2) : R :=
  (2 * (vx p1 - vx p0) * (vy p1 - vy p0)) / mirror_len2 p0 p1.

(** Whether both solved parameters lie in [0, 1]. *)
Definition within_both (a0 a1 b0 b1 : Vec2) : Prop :=
  (0 <= t_a a0 a1 b0 b1 <= 1) /\ (0 <= t_b a0 a1 b0 b1 <= 1).

End Reflect.

(** ** [mpm.py]: the material point method solver *)

Module Mpm.

(** The dense two-dimensional grid fields, read by index.  Taichi does not
    check indices outside debug mode, so an access outside the grid is
    undefined in the source; here it is inert: such a write is dropped and
    such a read gives the zero of the field. *)
Definition Grid (A : Type) : Type := Z -> Z -> A.

Definition in_grid (n i j : Z) : bool :=
  ((0 <=? i) && (i <? n) && ((0 <=? j) && (j <? n)))%Z.

Definition grid_get {A : Type} (zero : A) (n : Z) (g : Grid A) (i j : Z) : A :=
  if in_grid n i j then g i j else zero.

(** [g[i, j] = f(g[i, j])] at one node. *)
Definition grid_modify {A : Type} (n : Z) (g : Grid A) (i j : Z) (f : A -> A)
  : Grid A :=
  if in_grid n i j
  then fun i' j' => if ((i' =? i) && (j' =? j))%Z then f (g i' j') else g i' j'
  else g.

(** [for i, j in g: g[i, j] = f(i, j, g[i, j])] over every node. *)
Definition grid_foreach {A : Type} (n : Z) (f : Z -> Z -> A -> A) (g : Grid A)
  : Grid A :=
  fun i j => if in_grid n i j then f i j (g i j) else g i j.

(** Sums over the node indices [0 .. n-1]. *)
Fixpoint sum_upto (n : nat) (f : Z -> R) : R :=
  match n with
  | O => 0
  | S n' => sum_upto n' f + f (Z.of_nat n')
  end.

Definition grid_sum (n : Z) (g : Grid R) : R :=
  sum_upto (Z.to_nat n) (fun i => sum_upto (Z.to_nat n) (fun j => g i j)).

(** The solver object: the particle fields, the palette and the grid fields
    of [Mpm.__init__]. *)
Record t : Type := mk {
  x : list Vec2;
  v : list Vec2;
  C : list Mat2;
  F : list Mat2;
  material : list Z;
  color : list Vec3;
  color_id : list R;
  palette : list Z;
  Jp : list R;
  grid_m : Grid R;
  grid_v : Grid Vec2
}.

Definition set_x (s : t) (a : list Vec2) : t :=
  mk a (v s) (C s) (F s) (material s) (color s) (color_id s) (palette s)
     (Jp s) (grid_m s) (grid_v s).
Definition set_v (s : t) (a : list Vec2) : t :=
  mk (x s) a (C s) (F s) (material s) (color s) (color_id s) (palette s)
     (Jp s) (grid_m s) (grid_v s).
Definition set_C (s : t) (a : list Mat2) : t :=
  mk (x s) (v s) a (F s) (material s) (color s) (color_id s) (palette s)
     (Jp s) (grid_m s) (grid_v s).
Definition set_F (s : t) (a : list Mat2) : t :=
  mk (x s) (v s) (C s) a (material s) (color s) (color_id s) (palette s)
     (Jp s) (grid_m s) (grid_v s).
Definition set_Jp (s : t) (a : list R) : t :=
  mk (x s) (v s) (C s) (F s) (material s) (color s) (color_id s) (palette s)
     a (grid_m s) (grid_v s).
Definition set_grid_m (s : t) (a : Grid R) : t :=
  mk (x s) (v s) (C s) (F s) (material s) (color s) (color_id s) (palette s)
     (Jp s) a (grid_v s).
Definition set_grid_v (s : t) (a : Grid Vec2) : t :=
  mk (x s) (v s) (C s) (F s) (material s) (color s) (color_id s) (palette s)
     (Jp s) (grid_m s) a.

(** Material types. *)
Definition MATERIAL_LIQUID : Z := 0.
Definition MATERIAL_JELLY : Z := 1.
Definition MATERIAL_SNOW : Z := 2.

Section Solver.

(** The constructor's [quality] argument, and [ti.svd], which is Taichi's:
    it maps a matrix to [(U, sig, V)]. *)
Variable quality : Z.
Variable svd : Mat2 -> Mat2 * Mat2 * Mat2.

(** Constants of [Mpm.__init__]. *)
Definition particle_count : Z := 20000 * quality ^ 2.
Definition grid_res : Z := 128 * quality.
Definition dx : R := 1 / IZR grid_res.
Definition inv_dx : R := IZR grid_res.
Definition dt : R := 1e-4 / IZR quality.
Definition p_vol : R := (dx * 0.5) ^ 2.
Definition p_rho : R := 1.
Definition p_mass : R := p_vol * p_rho.
Definition E : R := 1.5e4.
Definition nu : R := 0.4.
Definition mu_0 : R := E / (2 * (1 + nu)).
Definition lambda_0 : R := E * nu / ((1 + nu) / (1 - 2 * nu)).
Definition g : Vec2 := mkVec2 0.0 (- 9.8).
Definition mu_boundary : R := 0.8.

(** *** Reset *)

Definition reset_grids (s : t) : t :=
  set_grid_v
    (set_grid_m s (grid_foreach grid_res (fun _ _ _ => 0) (grid_m s)))
    (grid_foreach grid_res (fun _ _ _ => vzero) (grid_v s)).

(** *** Particle to grid *)

(** [base = (x[p] * inv_dx - 0.5).cast(int)] *)
Definition base_of (xp : Vec2) : Z * Z :=
  (trunc (vx xp * inv_dx - 0.5), trunc (vy xp * inv_dx - 0.5)).

(** [fx = x[p] * inv_dx - base.cast(float)] *)
Definition fx_of (xp : Vec2) : Vec2 :=
  let base := base_of xp in
  mkVec2 (vx xp * inv_dx - IZR (fst base)) (vy xp * inv_dx - IZR (snd base)).

(** The quadratic kernel [w], a list of three vectors. *)
Definition weights (fx : Vec2) : list Vec2 :=
  [ vmap (fun f => 0.5 * (1.5 - f) ^ 2) fx;
    vmap (fun f => 0.75 - (f - 1) ^ 2) fx;
    vmap (fun f => 0.5 * (f - 0.5) ^ 2) fx ].

(** [weight = w[i][0] * w[j][1]] *)
Definition weight (w : list Vec2) (i j : nat) : R :=
  vget (nth i w vzero) 0 * vget (nth j w vzero) 1.

(** [ti.static(ti.ndrange(3, 3))] *)
Definition ndrange33 : list (nat * nat) :=
  [ (0, 0); (0, 1); (0, 2); (1, 0); (1, 1); (1, 2); (2, 0); (2, 1); (2, 2) ]%nat.

(** The bound the plasticity line applies to a singular value of snow. *)
Definition plasticity (s : R) : R := Rmin (Rmax s (1 - 2.5e2)) (1 + 4.5e-3).

(** The loop [for d in ti.static(range(2))] on [(Jp[p], sig, J)]. *)
Definition plastic_loop (mat : Z) (Jp0 : R) (sig0 : Mat2) : R * Mat2 * R :=
  fold_left
    (fun (st : R * Mat2 * R) (d : nat) =>
       let '(Jp_p, sig, J) := st in
       let new_sig := mdiag sig d in
       let new_sig :=
         if (mat =? MATERIAL_SNOW)%Z then plasticity (mdiag sig d) else new_sig in
       (Jp_p * (mdiag sig d / new_sig), mdiag_set sig d new_sig, J * new_sig))
    [0%nat; 1%nat]
    (Jp0, sig0, 1.0).

(** What the body of the P2G loop computes for particle [p] before it
    scatters: the new [F[p]] and [Jp[p]] and the matrix [affine]. *)
Definition p2g_local (mat : Z) (Cp Fp : Mat2) (Jp_p : R) : Mat2 * R * Mat2 :=
  let Fp := mmul (madd midentity (mscale dt Cp)) Fp in
  let h := exp (10 * (1.0 - Jp_p)) in
  let h := if (mat =? MATERIAL_JELLY)%Z then 0.4 else h in
  let mu := mu_0 * h in
  let la := lambda_0 * h in
  let mu := if (mat =? MATERIAL_LIQUID)%Z then 0.0 else mu in
  let '(U, sig, V) := svd Fp in
  let '(Jp_p, sig, J) := plastic_loop mat Jp_p sig in
  let Fp :=
    if (mat =? MATERIAL_LIQUID)%Z then mscale (sqrt J) midentity
    else if (mat =? MATERIAL_SNOW)%Z then mmul (mmul U sig) (mtranspose V)
    else Fp in
  let stress :=
    madd (mmul (mscale (2 * mu) (msub Fp (mmul U (mtranspose V))))
               (mtranspose Fp))
         (mscale (J - 1) (mscale J (mscale la midentity))) in
  let stress := mscale (- dt * p_vol * 4 * inv_dx * inv_dx) stress in
  let affine := madd stress (mscale p_mass Cp) in
  (Fp, Jp_p, affine).

(** The scatter of particle [p] into the 3x3 nodes at [base + offset]. *)
Definition scatter (base : Z * Z) (fx : Vec2) (w : list Vec2)
    (vp : Vec2) (affine : Mat2) (gm : Grid R) (gv : Grid Vec2)
  : Grid R * Grid Vec2 :=
  fold_left
    (fun (gs : Grid R * Grid Vec2) (ij : nat * nat) =>
       let (i, j) := ij in
       let dpos := vscale dx (vsub (mkVec2 (INR i) (INR j)) fx) in
       let wt := weight w i j in
       let bi := (fst base + Z.of_nat i)%Z in
       let bj := (snd base + Z.of_nat j)%Z in
       (grid_modify grid_res (fst gs) bi bj (fun m => m + wt * p_mass),
        grid_modify grid_res (snd gs) bi bj
          (fun u => vadd u (vscale wt (vadd (vscale p_mass vp)
                                            (mvec affine dpos))))))
    ndrange33
    (gm, gv).

(** The body of [for p in self.x] in the P2G phase. *)
Definition p2g_particle (s : t) (p : nat) : t :=
  let xp := nth p (x s) vzero in
  let base := base_of xp in
  let fx := fx_of xp in
  let w := weights fx in
  let '(Fp, Jp_p, affine) :=
    p2g_local (nth p (material s) 0%Z) (nth p (C s) mzero)
              (nth p (F s) mzero) (nth p (Jp s) 0) in
  let (gm, gv) :=
    scatter base fx w (nth p (v s) vzero) affine (grid_m s) (grid_v s) in
  set_grid_v (set_grid_m (set_Jp (set_F s (upd (F s) p Fp))
                                 (upd (Jp s) p Jp_p)) gm) gv.

Definition p2g (s : t) : t :=
  fold_left p2g_particle (seq 0 (length (x s))) s.

(** *** Grid operations *)

(** "limit inside box" *)
Definition limit_box (i j : Z) (u : Vec2) : Vec2 :=
  let u := if (i <? 3)%Z && Rltb (vget u 0) 0 then vset u 0 0 else u in
  let u := if (grid_res - 3 <? i)%Z && Rltb 0 (vget u 0) then vset u 0 0 else u in
  let u := if (j <? 3)%Z && Rltb (vget u 1) 0 then vset u 1 0 else u in
  let u := if (grid_res - 3 <? j)%Z && Rltb 0 (vget u 1) then vset u 1 0 else u in
  u.

(** The node's position relative to the domain centre. *)
Definition node_dpos (i j : Z) : Vec2 :=
  mkVec2 (IZR i * dx - 0.5) (IZR j * dx - 0.5).

(** The tangential speed after friction against the rim. *)
Definition rim_tangential (omega v_radial v_tangential : R) : R :=
  if Rltb v_tangential omega
  then Rmin omega (v_tangential + mu_boundary * v_radial)
  else Rmax omega (v_tangential - mu_boundary * v_radial).

(** "limit inside circle" *)
Definition limit_circle (omega : R) (i j : Z) (u : Vec2) : Vec2 :=
  let dpos := node_dpos i j in
  if Rleb 0.5 (norm dpos) && Rltb 0 (dot dpos u) then
    let v_radial := dot dpos u / norm dpos in
    let v_tangential := cross dpos u / norm dpos in
    let v_tangential := rim_tangential omega v_radial v_tangential in
    vscale v_tangential (vdiv (mvec (mkMat2 0 (- 1) 1 0) dpos) (norm dpos))
  else u.

(** The body of the grid loop at node [(i, j)] with mass [m] and momentum
    [u]; the result is the node's velocity. *)
Definition grid_node (omega : R) (i j : Z) (m : R) (u : Vec2) : Vec2 :=
  if Rltb 0 m then
    let u := vdiv u m in
    let u := vadd u (vscale dt g) in
    let u := limit_box i j u in
    limit_circle omega i j u
  else u.

Definition grid_ops (omega : R) (s : t) : t :=
  set_grid_v s
    (grid_foreach grid_res (fun i j u => grid_node omega i j (grid_m s i j) u)
                  (grid_v s)).

(** *** Grid to particle *)

(** The gather of [new_v] and [new_C] over the 3x3 nodes. *)
Definition gather (base : Z * Z) (fx : Vec2) (w : list Vec2) (gv : Grid Vec2)
  : Vec2 * Mat2 :=
  fold_left
    (fun (acc : Vec2 * Mat2) (ij : nat * nat) =>
       let (i, j) := ij in
       let dpos := vsub (mkVec2 (INR i) (INR j)) fx in
       let g_v := grid_get vzero grid_res gv
                    (fst base + Z.of_nat i)%Z (snd base + Z.of_nat j)%Z in
       let wt := weight w i j in
       (vadd (fst acc) (vscale wt g_v),
        madd (snd acc) (mscale (4 * inv_dx * wt) (outer_product g_v dpos))))
    ndrange33
    (vzero, mzero).

(** The body of [for p in self.x] in the G2P phase. *)
Definition g2p_particle (s : t) (p : nat) : t :=
  let xp := nth p (x s) vzero in
  let base := base_of xp in
  let fx := fx_of xp in
  let w := weights fx in
  let (new_v, new_C) := gather base fx w (grid_v s) in
  let s := set_C (set_v s (upd (v s) p new_v)) (upd (C s) p new_C) in
  set_x s (upd (x s) p (vadd (nth p (x s) vzero)
                             (vscale dt (nth p (v s) vzero)))).

Definition g2p (s : t) : t :=
  fold_left g2p_particle (seq 0 (length (x s))) s.

(** *** [Mpm.substep] and [Mpm.step] *)

Definition substep (omega : R) (s : t) : t :=
  g2p (grid_ops omega (p2g (reset_grids s))).

(** [int(timestep // dt)] sub-steps in a row. *)
Definition step (timestep omega : R) (s : t) : t :=
  Nat.iter (Z.to_nat (Int_part (timestep / dt))) (substep omega) s.

End Solver.

(** ** Predicates and sample states the properties are stated with *)

(** The bound as the spec words it: [1 - 2.5e-2, 1 + 4.5e-3]. *)
Definition plasticity_spec (s : R) : R :=
  Rmin (Rmax s (1 - 2.5e-2)) (1 + 4.5e-3).

(** A decomposition that is right for a diagonal matrix with non-negative
    entries: [U = V = I]. *)
Definition svd_diagonal (M : Mat2) : Mat2 * Mat2 * Mat2 :=
  (midentity, M, midentity).

(** The precondition of the scatter: the nodes [base + 0 .. base + 2] of a
    particle at [xp] exist on both axes. *)
Definition neighbourhood_in_grid (quality : Z) (xp : Vec2) : Prop :=
  (0 <= fst (base_of quality xp) /\
   fst (base_of quality xp) + 2 < grid_res quality /\
   0 <= snd (base_of quality xp) /\
   snd (base_of quality xp) + 2 < grid_res quality)%Z.

(** The two diagonal entries of [sig] that [ti.svd] returns for the updated
    deformation gradient [(I + dt * C[p]) @ F[p]] are nonzero. *)
Definition singular_values_nonzero (quality : Z)
    (svd : Mat2 -> Mat2 * Mat2 * Mat2) (s : t) (p : nat) : Prop :=
  let Fp := mmul (madd midentity (mscale (dt quality) (nth p (C s) mzero)))
                 (nth p (F s) mzero) in
  m00 (snd (fst (svd Fp))) <> 0 /\ m11 (snd (fst (svd Fp))) <> 0.

(** The fields no kernel writes, and the size of the ones it does. *)
Definition same_particles (s s' : t) : Prop :=
  material s' = material s /\ color s' = color s /\
  color_id s' = color_id s /\ palette s' = palette s /\
  length (x s') = length (x s) /\ length (v s') = length (v s) /\
  length (C s') = length (C s) /\ length (F s') = length (F s) /\
  length (Jp s') = length (Jp s).

(** The particle fields P2G reads for particle [p]. *)
Definition same_inputs (p : nat) (s s' : t) : Prop :=
  material s' = material s /\ C s' = C s /\
  nth p (F s') mzero = nth p (F s) mzero /\
  nth p (Jp s') 0 = nth p (Jp s) 0.

(** A solver with a single jelly particle at the centre of the domain. *)
Definition one_particle : t :=
  mk [mkVec2 0.5 0.5] [vzero] [mzero] [midentity] [MATERIAL_JELLY]
     [(0, 0, 0)] [0] [0%Z] [1] (fun _ _ => 0) (fun _ _ => vzero).

(** A solver without particles whose grid holds mass 1 and momentum [u] at
    every node. *)
Definition uniform_grid (u : Vec2) : t :=
  mk [] [] [] [] [] [] [] [] [] (fun _ _ => 1) (fun _ _ => u).

End Mpm.

(** ** [reflect.py]: the image kernel *)

Module Render.

(** A pixel buffer ([ti.Vector.field(3, float, res)]), read by index; as for
    the grid, an access outside the buffer is undefined in the source and
    inert here. *)
Definition Pixels : Type := Z -> Z -> Vec3.

Definition in_res (rs : Z * Z) (i j : Z) : bool :=
  ((0 <=? i) && (i <? fst rs) && ((0 <=? j) && (j <? snd rs)))%Z.

Definition pixel_get (rs : Z * Z) (px : Pixels) (i j : Z) : Vec3 :=
  if in_res rs i j then px i j else (0, 0, 0).

(** [Reflect.update_img(self)]: the new [img_pixels], from [obj_pixels]. *)
Definition update_img (rf : Reflect.t) (obj_pixels img_pixels : Pixels)
  : Pixels :=
  fun i j =>
    if in_res (Reflect.res rf) i j then
      let p := Reflect.tracing rf i j in
      let i_obj := vget p 0 in
      let j_obj := vget p 1 in
      pixel_get (Reflect.res rf) obj_pixels (trunc i_obj) (trunc j_obj)
    else img_pixels i j.

End Render.

(** ** Notions the further properties are stated with *)

(** The squared distance of two points. *)
Definition dist2 (a b : Vec2) : R :=
  (vx a - vx b) * (vx a - vx b) + (vy a - vy b) * (vy a - vy b).

(** The point at parameter [t] on the line from [a] to [b]. *)
Definition along (a b : Vec2) (t : R) : Vec2 := vadd a (vscale t (vsub b a)).

(** [q] lies on the closed segment from [a] to [b]. *)
Definition on_segment (a b q : Vec2) : Prop :=
  exists t : R, 0 <= t <= 1 /\ q = along a b t.

(** The signed side of [q] with respect to the line from [p0] to [p1]. *)
Definition side (p0 p1 q : Vec2) : R := cross (vsub p1 p0) (vsub q p0).

(** Reflections across the mirrors [ks] of the polygon, one after the
    other. *)
Definition reflect_chain (rf : Reflect.t) (ks : list nat) (q : Vec2) : Vec2 :=
  fold_left
    (fun d k => Reflect.reflection d (Reflect.pt rf k) (Reflect.pt rf (k + 1)))
    ks q.

(** Vertex [k] of the polygon [Reflect.init] builds: the angle is
    [k * (2 PI / n_mirrors)]. *)
Definition vertex (c : Vec2) (radius : R) (n : Z) (k : nat) : Vec2 :=
  mkVec2 (vx c + radius * cos (INR k * (2 * PI / IZR n)))
         (vy c + radius * sin (INR k * (2 * PI / IZR n))).

(** A polygon value with a single mirror, from (1, -1) to (1, 1), seen
    from the origin. *)
Definition one_mirror : Reflect.t :=
  Reflect.mk (mkVec2 0 0) 1 [mkVec2 1 (-1); mkVec2 1 1] (4, 4)%Z.

(** The sum of a list of vectors, and of a vector field over the grid. *)
Definition list_vsum (l : list Vec2) : Vec2 := fold_right vadd vzero l.

Definition grid_vsum (n : Z) (gv : Mpm.Grid Vec2) : Vec2 :=
  mkVec2 (Mpm.grid_sum n (fun i j => vx (gv i j)))
         (Mpm.grid_sum n (fun i j => vy (gv i j))).

(** A position at least half a cell away from the low edges, so that the
    argument of the cast in [base] is not negative. *)
Definition inside_low (quality : Z) (xp : Vec2) : Prop :=
  0.5 <= vx xp * Mpm.inv_dx quality /\ 0.5 <= vy xp * Mpm.inv_dx quality.

(** The deformation gradient of particle [p] after line 88,
    [(I + dt * C[p]) @ F[p]], and the [sig] that [ti.svd] returns for it. *)
Definition updated_F (quality : Z) (s : Mpm.t) (p : nat) : Mat2 :=
  mmul (madd midentity (mscale (Mpm.dt quality) (nth p (Mpm.C s) mzero)))
       (nth p (Mpm.F s) mzero).

Definition sig_of (quality : Z) (svd : Mat2 -> Mat2 * Mat2 * Mat2)
    (s : Mpm.t) (p : nat) : Mat2 :=
  snd (fst (svd (updated_F quality s p))).

(** Every particle's scatter neighbourhood lies in the grid. *)
Definition neighbourhoods_in_grid (quality : Z) (s : Mpm.t) : Prop :=
  forall p : nat, (p < length (Mpm.x s))%nat ->
    Mpm.neighbourhood_in_grid quality (nth p (Mpm.x s) vzero).

(** No node of the grid holds a negative value. *)
Definition grid_nonneg (n : Z) (gm : Mpm.Grid R) : Prop :=
  forall i j : Z, Mpm.in_grid n i j = true -> 0 <= gm i j.

(** A solver with a single jelly particle at the centre of the domain that
    moves with velocity (1, 2). *)
Definition moving_particle : Mpm.t :=
  Mpm.mk [mkVec2 0.5 0.5] [mkVec2 1 2] [mzero] [midentity]
         [Mpm.MATERIAL_JELLY] [(0, 0, 0)] [0] [0%Z] [1]
         (fun _ _ => 0) (fun _ _ => vzero).

(** The grid velocity is [u] at every node of the grid. *)
Definition uniform_velocity (quality : Z) (s : Mpm.t) (u : Vec2) : Prop :=
  forall i j : Z,
    Mpm.in_grid (Mpm.grid_res quality) i j = true -> Mpm.grid_v s i j = u.

(** What the G2P body of another particle leaves alone for particle [p]. *)
Definition g2p_keeps (p : nat) (s s' : Mpm.t) : Prop :=
  Mpm.grid_v s' = Mpm.grid_v s /\
  nth p (Mpm.x s') vzero = nth p (Mpm.x s) vzero /\
  nth p (Mpm.v s') vzero = nth p (Mpm.v s) vzero /\
  nth p (Mpm.C s') mzero = nth p (Mpm.C s) mzero /\
  length (Mpm.x s') = length (Mpm.x s) /\
  length (Mpm.v s') = length (Mpm.v s) /\
  length (Mpm.C s') = length (Mpm.C s).

(** A solver with one particle at the centre of the domain over a grid
    whose velocity is (1, 2) at every node. *)
Definition drifting : Mpm.t :=
  Mpm.mk [mkVec2 0.5 0.5] [vzero] [mzero] [midentity]
         [Mpm.MATERIAL_JELLY] [(0, 0, 0)] [0] [0%Z] [1]
         (fun _ _ => 1) (fun _ _ => mkVec2 1 2).

(** ** [mpm.py]: the constructor *)

Module MpmInit.

(** The array [ti.imread] returns: two image dimensions and three colour
    channels per pixel. *)
Record Image : Type := mkImage {
  shape0 : Z;
  shape1 : Z;
  data : Z -> Z -> Z * Z * Z
}.

(** How the constructor can end without a solver: an exception, or the
    [while True] loop still running when the given random numbers are
    used up. *)
Inductive exn : Type := ShapeError | IndexError | ValueError.

Inductive result (A : Type) : Type :=
| Ok (a : A)
| Starved
| Raised (e : exn).

Arguments Ok {A} a.
Arguments Starved {A}.
Arguments Raised {A} e.

(** Indexing one axis of length [n] of a numpy array: a negative index
    counts from the end, anything else outside raises [IndexError]. *)
Definition np_index (n i : Z) : option Z :=
  if ((0 <=? i) && (i <? n))%Z then Some i
  else if ((- n <=? i) && (i <? 0))%Z then Some (i + n)%Z
  else None.

(** [pixels[i][j]] *)
Definition pixel (img : Image) (i j : Z) : option (Z * Z * Z) :=
  match np_index (shape0 img) i, np_index (shape1 img) j with
  | Some i', Some j' => Some (data img i' j')
  | _, _ => None
  end.

(** [min(pixels.shape[:1])]: the slice holds the first dimension only. *)
Definition roi_size (img : Image) : Z := shape0 img.

(** [color_rgb.dot([65536, 256, 1])] *)
Definition color_hex (rgb : Z * Z * Z) : Z :=
  let '(r, g, b) := rgb in (r * 65536 + g * 256 + b * 1)%Z.

Definition white : Z := 16777215.

(** [c in l] and [l.index(c)] of a Python list. *)
Definition mem (c : Z) (l : list Z) : bool := existsb (Z.eqb c) l.

Fixpoint index_of (c : Z) (l : list Z) : option nat :=
  match l with
  | [] => None
  | h :: l' =>
      if (h =? c)%Z then Some O
      else match index_of c l' with
           | Some k => Some (S k)
           | None => None
           end
  end.

(** The [while True] loop for particle [p]; [draws] holds the values the
    successive calls of [random()] return. *)
Fixpoint place (img : Image) (p : nat) (draws : list R) (s : Mpm.t)
  : result (Mpm.t * list R) :=
  match draws with
  | x :: y :: rest =>
      match pixel img (trunc (x * IZR (roi_size img)))
                      (trunc (y * IZR (roi_size img))) with
      | None => Raised IndexError
      | Some color_rgb =>
          if (color_hex color_rgb =? white)%Z then place img p rest s
          else
            let palette :=
              if mem (color_hex color_rgb) (Mpm.palette s)
              then Mpm.palette s
              else Mpm.palette s ++ [color_hex color_rgb] in
            match index_of (color_hex color_rgb) palette with
            | None => Raised ValueError
            | Some k =>
                let '(r, g, b) := color_rgb in
                Ok (Mpm.mk (upd (Mpm.x s) p (mkVec2 x y))
                           (Mpm.v s)
                           (Mpm.C s)
                           (upd (Mpm.F s) p (mkMat2 1 0 0 1))
                           (upd (Mpm.material s) p 1%Z)
                           (upd (Mpm.color s) p
                                (IZR r / 255.0, IZR g / 255.0, IZR b / 255.0))
                           (upd (Mpm.color_id s) p (INR k))
                           palette
                           (upd (Mpm.Jp s) p 1)
                           (Mpm.grid_m s)
                           (Mpm.grid_v s),
                    rest)
            end
      end
  | _ => Starved
  end.

(** [for p in range(self.particle_count)] *)
Fixpoint fill (img : Image) (ps : list nat) (draws : list R) (s : Mpm.t)
  : result Mpm.t :=
  match ps with
  | [] => Ok s
  | p :: ps' =>
      match place img p draws s with
      | Ok (s', rest) => fill img ps' rest s'
      | Starved => Starved
      | Raised e => Raised e
      end
  end.

(** The fields as Taichi allocates them: [n] particles, all zero, and an
    empty palette. *)
Definition zeros (n : nat) : Mpm.t :=
  Mpm.mk (repeat vzero n) (repeat vzero n) (repeat mzero n) (repeat mzero n)
         (repeat 0%Z n) (repeat (0, 0, 0) n) (repeat 0 n) [] (repeat 0 n)
         (fun _ _ => 0) (fun _ _ => vzero).

(** [Mpm.__init__(filepath, quality)], given the image read from the file
    and the random numbers drawn. *)
Definition init (quality : Z) (img : Image) (draws : list R)
  : result Mpm.t :=
  if ((Mpm.particle_count quality <=? 0) || (Mpm.grid_res quality <=? 0))%Z
  then Raised ShapeError
  else
    let n := Z.to_nat (Mpm.particle_count quality) in
    fill img (seq 0 n) draws (zeros n).

(** The colour and palette data of particle [p] agree with the pixel under
    it, and its mechanical state is the rest state of jelly. *)
Definition placed (img : Image) (s : Mpm.t) (p : nat) : Prop :=
  exists (k : nat) (r g b : Z),
    pixel img (trunc (vx (nth p (Mpm.x s) vzero) * IZR (roi_size img)))
              (trunc (vy (nth p (Mpm.x s) vzero) * IZR (roi_size img)))
    = Some (r, g, b) /\
    color_hex (r, g, b) <> white /\
    nth p (Mpm.color_id s) 0 = INR k /\
    nth_error (Mpm.palette s) k = Some (color_hex (r, g, b)) /\
    nth p (Mpm.color s) (0, 0, 0)
    = (IZR r / 255.0, IZR g / 255.0, IZR b / 255.0) /\
    nth p (Mpm.material s) 0%Z = Mpm.MATERIAL_JELLY /\
    nth p (Mpm.Jp s) 0 = 1 /\
    nth p (Mpm.F s) mzero = midentity.

(** What the loop keeps: [n] entries in every field, a palette without
    repetition or white, the first [a] particles placed, and [v] and [C]
    still zero. *)
Definition filled (img : Image) (n a : nat) (s : Mpm.t) : Prop :=
  length (Mpm.x s) = n /\ length (Mpm.v s) = n /\ length (Mpm.C s) = n /\
  length (Mpm.F s) = n /\ length (Mpm.material s) = n /\
  length (Mpm.color s) = n /\ length (Mpm.color_id s) = n /\
  length (Mpm.Jp s) = n /\
  NoDup (Mpm.palette s) /\ ~ In white (Mpm.palette s) /\
  Mpm.v s = repeat vzero n /\ Mpm.C s = repeat mzero n /\
  forall p : nat, (p < a)%nat -> placed img s p.

(** Every value is in [0, 1), as [random()] returns them. *)
Definition unit_draws (draws : list R) : Prop :=
  Forall (fun d => 0 <= d < 1) draws.

(** A 1x1 image whose pixel is red. *)
Definition red_image : Image := mkImage 1 1 (fun _ _ => (255, 0, 0)%Z).

End MpmInit.

(** ** [main.py]: the keyboard handling of the display loop *)

Module Main.

(** The key of an event the loop receives; [OTHER] is any key or motion the
    loop has no branch for. *)
Inductive key : Type := SPACE | RIGHT | LEFT | ESCAPE | OTHER.

(** The two variables the events change. *)
Record ui : Type := mkUi { show_obj : bool; omega : Z }.

(** [show_obj = False], [omega = 4] *)
Definition initial : ui := mkUi false 4.

(** The body of [for e in gui.get_events(...)]; [None] is [exit()]. *)
Definition on_event (u : ui) (e : key) : option ui :=
  match e with
  | SPACE => Some (mkUi (negb (show_obj u)) (omega u))
  | RIGHT =>
      Some (if (omega u <? 4)%Z then mkUi (show_obj u) (omega u + 1) else u)
  | LEFT =>
      Some (if (-4 <? omega u)%Z then mkUi (show_obj u) (omega u - 1) else u)
  | ESCAPE => None
  | OTHER => Some u
  end.

(** The events of the successive frames, in the order they arrive. *)
Fixpoint on_events (u : ui) (es : list key) : option ui :=
  match es with
  | [] => Some u
  | e :: es' =>
      match on_event u e with
      | Some u' => on_events u' es'
      | None => None
      end
  end.

End Main.

(** ** A body in free fall *)

(** [ti.svd] of the identity gives a rotation pair with [U @ V^T = I] and
    singular values 1. *)
Definition svd_of_identity (svd : Mat2 -> Mat2 * Mat2 * Mat2) : Prop :=
  mmul (fst (fst (svd midentity))) (mtranspose (snd (svd midentity)))
  = midentity /\
  m00 (snd (fst (svd midentity))) = 1 /\
  m11 (snd (fst (svd midentity))) = 1.

(** A particle whose nine nodes are away from the box margins and inside
    the rim circle, and which is not on a cell boundary (so that each of
    the nine gets a positive weight). *)
Definition interior (quality : Z) (xp : Vec2) : Prop :=
  (3 <= fst (Mpm.base_of quality xp) /\
   fst (Mpm.base_of quality xp) + 2 <= Mpm.grid_res quality - 3 /\
   3 <= snd (Mpm.base_of quality xp) /\
   snd (Mpm.base_of quality xp) + 2 <= Mpm.grid_res quality - 3)%Z /\
  0.5 < vx (Mpm.fx_of quality xp) < 1.5 /\
  0.5 < vy (Mpm.fx_of quality xp) < 1.5 /\
  forall a b : nat, (a < 3)%nat -> (b < 3)%nat ->
    norm (Mpm.node_dpos quality
            (fst (Mpm.base_of quality xp) + Z.of_nat a)
            (snd (Mpm.base_of quality xp) + Z.of_nat b)) < 0.5.

(** Particle [p] is jelly in its rest shape ([F = I], [C = 0]), moves with
    the velocity [vp], and lies in the interior. *)
Definition at_rest (quality : Z) (s : Mpm.t) (vp : Vec2) (p : nat) : Prop :=
  nth p (Mpm.C s) mzero = mzero /\
  nth p (Mpm.F s) mzero = midentity /\
  nth p (Mpm.material s) 0%Z = Mpm.MATERIAL_JELLY /\
  nth p (Mpm.v s) vzero = vp /\
  interior quality (nth p (Mpm.x s) vzero).

(** All particles are so, with the same velocity. *)
Definition rigid_body (quality : Z) (s : Mpm.t) (vp : Vec2) : Prop :=
  length (Mpm.v s) = length (Mpm.x s) /\
  length (Mpm.C s) = length (Mpm.x s) /\
  forall p : nat, (p < length (Mpm.x s))%nat -> at_rest quality s vp p.

(** At every node of the grid the momentum is the mass times [vp], and no
    mass is negative. *)
Definition grids_move_with (n : Z) (gm : Mpm.Grid R) (gv : Mpm.Grid Vec2)
    (vp : Vec2) : Prop :=
  forall i j : Z,
    Mpm.in_grid n i j = true -> gv i j = vscale (gm i j) vp /\ 0 <= gm i j.

Definition moves_with (quality : Z) (s : Mpm.t) (vp : Vec2) : Prop :=
  grids_move_with (Mpm.grid_res quality) (Mpm.grid_m s) (Mpm.grid_v s) vp.

(** No node loses mass from [gm] to [gm']. *)
Definition mass_grows (gm gm' : Mpm.Grid R) : Prop :=
  forall i j : Z, gm i j <= gm' i j.

(** The nine nodes of a particle at [xp] hold positive mass. *)
Definition massive_at (quality : Z) (s : Mpm.t) (xp : Vec2) : Prop :=
  forall a b : nat, (a < 3)%nat -> (b < 3)%nat ->
    0 < Mpm.grid_m s (fst (Mpm.base_of quality xp) + Z.of_nat a)%Z
                     (snd (Mpm.base_of quality xp) + Z.of_nat b)%Z.

(** * Basic facts: comparisons, square roots, fields *)

Section BasicFacts.

Lemma Rltb_true (a b : R) : a < b -> Rltb a b = true.
Proof. intros H. unfold Rltb. destruct (Rlt_dec a b); [reflexivity | contradiction]. Qed.

Lemma Rltb_false (a b : R) : ~ a < b -> Rltb a b = false.
Proof. intros H. unfold Rltb. destruct (Rlt_dec a b); [contradiction | reflexivity]. Qed.

Lemma Rleb_true (a b : R) : a <= b -> Rleb a b = true.
Proof. intros H. unfold Rleb. destruct (Rle_dec a b); [reflexivity | contradiction]. Qed.

Lemma Rleb_false (a b : R) : ~ a <= b -> Rleb a b = false.
Proof. intros H. unfold Rleb. destruct (Rle_dec a b); [contradiction | reflexivity]. Qed.

Lemma Rneqb_true (a b : R) : a <> b -> Rneqb a b = true.
Proof. intros H. unfold Rneqb. destruct (Req_dec_T a b); [contradiction | reflexivity]. Qed.

Lemma Rneqb_false (a b : R) : a = b -> Rneqb a b = false.
Proof. intros H. unfold Rneqb. destruct (Req_dec_T a b); [reflexivity | contradiction]. Qed.

Lemma Rleb_spec (a b : R) : Rleb a b = true <-> a <= b.
Proof. unfold Rleb. destruct (Rle_dec a b); split; intros; auto; discriminate. Qed.

Lemma sqrt_quarter : sqrt (0.5 * 0.5) = 0.5.
Proof. apply sqrt_square; lra. Qed.

Lemma norm_sqr (d : Vec2) : norm d * norm d = vx d * vx d + vy d * vy d.
Proof. unfold norm. apply sqrt_sqrt. nra. Qed.

Lemma nth_map_seq {A : Type} (f : nat -> A) (d : A) (m k : nat) :
  (k < m)%nat -> nth k (map f (seq 0 m)) d = f k.
Proof.
  intros Hk.
  rewrite (nth_indep _ d (f O)) by (rewrite length_map, length_seq; exact Hk).
  rewrite (map_nth f (seq 0 m) O k).
  rewrite seq_nth by exact Hk. reflexivity.
Qed.

Lemma length_upd {A : Type} (l : list A) (p : nat) (a : A) :
  length (upd l p a) = length l.
Proof.
  revert p. induction l as [|h l IH]; intros [|p]; simpl; auto.
Qed.

Lemma nth_upd_other {A : Type} (l : list A) (p q : nat) (a d : A) :
  p <> q -> nth p (upd l q a) d = nth p l d.
Proof.
  revert p q.
  induction l as [|h l IH]; intros [|p] [|q] Hpq; simpl; auto; contradiction.
Qed.

Lemma upd_nth {A : Type} (l : list A) (p : nat) (d : A) :
  upd l p (nth p l d) = l.
Proof.
  revert p. induction l as [|h l IH]; intros [|p]; simpl; auto.
  rewrite IH. reflexivity.
Qed.

End BasicFacts.

(** * Properties of the mirror tracer *)

Section ReflectProperties.

Import Reflect.

Lemma reflection_matrix (q p0 p1 : Vec2) :
  reflection q p0 p1 =
  vadd p0 (mvec (mkMat2 (mirror_a p0 p1) (mirror_b p0 p1)
                        (mirror_b p0 p1) (- mirror_a p0 p1))
                (vsub q p0)).
Proof. reflexivity. Qed.

(** C4. For a mirror line through two points [p0], [p1] whose direction has
    nonzero squared length, the matrix [[a, b], [b, -a]] of
    [Reflect.reflection] satisfies [a^2 + b^2 = 1], and reflecting any point
    [q] twice across that line gives [q] back, exactly. *)
Theorem reflection_involution (q p0 p1 : Vec2) :
  mirror_len2 p0 p1 <> 0 ->
  mirror_a p0 p1 * mirror_a p0 p1 + mirror_b p0 p1 * mirror_b p0 p1 = 1 /\
  reflection (reflection q p0 p1) p0 p1 = q.
Proof.
  intros Hlen.
  assert (Hunit : mirror_a p0 p1 * mirror_a p0 p1
                  + mirror_b p0 p1 * mirror_b p0 p1 = 1).
  { unfold mirror_a, mirror_b. set (L := mirror_len2 p0 p1) in *.
    assert (HL : L = (vx p1 - vx p0) * (vx p1 - vx p0)
                     + (vy p1 - vy p0) * (vy p1 - vy p0)) by reflexivity.
    field_simplify_eq; [ rewrite HL; ring | exact Hlen ]. }
  split; [exact Hunit|].
  rewrite !reflection_matrix.
  set (a := mirror_a p0 p1) in *. set (b := mirror_b p0 p1) in *.
  destruct q as [qx qy], p0 as [x0 y0].
  unfold vadd, vsub, mvec; simpl.
  f_equal.
  - replace (x0 + (a * (x0 + (a * (qx - x0) + b * (qy - y0)) - x0)
                   + b * (y0 + (b * (qx - x0) + - a * (qy - y0)) - y0)))
      with (x0 + (a * a + b * b) * (qx - x0)) by ring.
    rewrite Hunit. ring.
  - replace (y0 + (b * (x0 + (a * (qx - x0) + b * (qy - y0)) - x0)
                   + - a * (y0 + (b * (qx - x0) + - a * (qy - y0)) - y0)))
      with (y0 + (a * a + b * b) * (qy - y0)) by ring.
    rewrite Hunit. ring.
Qed.

Lemma reflection_involution_witness :
  mirror_len2 (mkVec2 0 0) (mkVec2 1 1) <> 0 /\
  reflection (reflection (mkVec2 3 5) (mkVec2 0 0) (mkVec2 1 1))
             (mkVec2 0 0) (mkVec2 1 1) = mkVec2 3 5.
Proof.
  assert (H : mirror_len2 (mkVec2 0 0) (mkVec2 1 1) <> 0)
    by (unfold mirror_len2; simpl; lra).
  split; [exact H|].
  exact (proj2 (reflection_involution (mkVec2 3 5) (mkVec2 0 0) (mkVec2 1 1) H)).
Defined.

(** C5. [Reflect.intersection] returns [a1] when the determinant is zero
    and when a solved parameter is outside [0, 1]; otherwise it returns
    [b0 + t_b * (b1 - b0)], which is also [a0 + t_a * (a1 - a0)]: the one
    point that lies on both segments. *)
Theorem intersection_cases (a0 a1 b0 b1 : Vec2) :
  (det a0 a1 b0 b1 = 0 -> intersection a0 a1 b0 b1 = a1) /\
  (det a0 a1 b0 b1 <> 0 -> ~ within_both a0 a1 b0 b1 ->
   intersection a0 a1 b0 b1 = a1) /\
  (det a0 a1 b0 b1 <> 0 -> within_both a0 a1 b0 b1 ->
   intersection a0 a1 b0 b1 = vadd b0 (vscale (t_b a0 a1 b0 b1) (vsub b1 b0)) /\
   intersection a0 a1 b0 b1 = vadd a0 (vscale (t_a a0 a1 b0 b1) (vsub a1 a0))).
Proof.
  repeat split.
  - intros Hd. unfold intersection. rewrite (Rneqb_false _ _ Hd). reflexivity.
  - intros Hd Hout. unfold intersection. rewrite (Rneqb_true _ _ Hd).
    destruct (Rleb 0 (t_a a0 a1 b0 b1) && Rleb (t_a a0 a1 b0 b1) 1
              && (Rleb 0 (t_b a0 a1 b0 b1) && Rleb (t_b a0 a1 b0 b1) 1)) eqn:Hin;
      [|reflexivity].
    exfalso. apply Hout.
    rewrite !andb_true_iff, !Rleb_spec in Hin. unfold within_both. tauto.
  - unfold intersection. rewrite (Rneqb_true _ _ H).
    destruct H0 as [[H1 H2] [H3 H4]].
    rewrite !Rleb_true by assumption. reflexivity.
  - unfold intersection. rewrite (Rneqb_true _ _ H).
    destruct H0 as [[H1 H2] [H3 H4]].
    rewrite !Rleb_true by assumption. simpl.
    unfold t_a, t_b. revert H. unfold det, cross, vadd, vscale, vsub.
    destruct a0 as [a0x a0y], a1 as [a1x a1y], b0 as [b0x b0y], b1 as [b1x b1y].
    simpl. intros Hd. f_equal; field; exact Hd.
Qed.

Lemma intersection_cases_witness :
  intersection (mkVec2 0 0) (mkVec2 2 2) (mkVec2 0 2) (mkVec2 2 0) = mkVec2 1 1.
Proof.
  pose proof (intersection_cases (mkVec2 0 0) (mkVec2 2 2) (mkVec2 0 2) (mkVec2 2 0))
    as [_ [_ H]].
  assert (Hd : det (mkVec2 0 0) (mkVec2 2 2) (mkVec2 0 2) (mkVec2 2 0) <> 0)
    by (unfold det, cross, vsub; simpl; lra).
  assert (Hw : within_both (mkVec2 0 0) (mkVec2 2 2) (mkVec2 0 2) (mkVec2 2 0))
    by (unfold within_both, t_a, t_b, det, cross, vsub; simpl; lra).
  destruct (H Hd Hw) as [H1 _]. rewrite H1.
  unfold t_b, det, cross, vadd, vscale, vsub; simpl. f_equal; field.
Defined.

(** [Reflect.__init__] checks neither the mirror count nor the radius: one
    mirror and a negative radius give a polygon. *)
Lemma init_accepts_invalid :
  ((1 < 2)%Z \/ -1 <= 0) /\
  exists rf, init (mkVec2 256 256) 1 (-1) (512, 512)%Z = Some rf.
Proof.
  split; [left; lia|].
  eexists. reflexivity.
Qed.

(** C7 (amended). [Reflect.__init__] validates neither argument: for every
    mirror count [n >= 0], every radius, and a positive resolution, it
    returns a polygon with that centre and count whose [n + 1] vertices are
    [center + radius * (cos th_k, sin th_k)], [th_k = k * (2 PI / n)]. *)
Theorem init_builds_polygon (c : Vec2) (n : Z) (radius : R) (rs : Z * Z) :
  (0 <= n)%Z -> (0 < fst rs)%Z -> (0 < snd rs)%Z ->
  exists rf,
    init c n radius rs = Some rf /\
    center rf = c /\ n_mirrors rf = n /\
    length (mirror_pts rf) = Z.to_nat (n + 1) /\
    forall k : nat, (k <= Z.to_nat n)%nat ->
      pt rf k = mkVec2 (vx c + radius * cos (INR k * (2 * PI / IZR n)))
                       (vy c + radius * sin (INR k * (2 * PI / IZR n))).
Proof.
  intros Hn Hr1 Hr2.
  unfold init, field_shape_ok, linspace.
  assert (H1 : (0 <? n + 1)%Z = true) by (apply Z.ltb_lt; lia).
  assert (H2 : (n + 1 <? 0)%Z = false) by (apply Z.ltb_ge; lia).
  assert (H3 : (0 <? fst rs)%Z = true) by (apply Z.ltb_lt; lia).
  assert (H4 : (0 <? snd rs)%Z = true) by (apply Z.ltb_lt; lia).
  rewrite H1, H2, H3, H4. simpl negb. cbv iota. simpl andb. cbv iota.
  eexists. split; [reflexivity|].
  split; [reflexivity|]. split; [reflexivity|].
  split.
  - simpl mirror_pts. rewrite !length_map, length_seq. reflexivity.
  - intros k Hk. unfold pt. simpl mirror_pts.
    rewrite map_map.
    rewrite nth_map_seq by lia.
    replace (n + 1 - 1)%Z with n by lia.
    destruct (0 <? n)%Z eqn:Hpos.
    + replace (INR k * ((2 * PI - 0) / IZR n) + 0)
        with (INR k * (2 * PI / IZR n)) by (unfold Rdiv; ring).
      reflexivity.
    + apply Z.ltb_ge in Hpos. assert (n = 0%Z) by lia. subst n.
      assert (k = O) by (simpl in Hk; lia). subst k. simpl INR.
      replace (0 * (2 * PI - 0) + 0) with (0 * (2 * PI / 0))
        by (unfold Rdiv; ring).
      reflexivity.
Qed.

Lemma init_builds_polygon_witness :
  exists rf, init (mkVec2 256 256) 0 (-1) (512, 512)%Z = Some rf /\
             length (mirror_pts rf) = 1%nat.
Proof.
  destruct (init_builds_polygon (mkVec2 256 256) 0 (-1) (512, 512)%Z)
    as [rf [H1 [_ [_ [H2 _]]]]]; simpl; try lia.
  exists rf. split; [exact H1 | exact H2].
Defined.

(** A segment from a point to itself meets no mirror: the determinant is
    zero and [intersection] gives the point back. *)
Lemma intersection_same (p b0 b1 : Vec2) : intersection p p b0 b1 = p.
Proof.
  unfold intersection. rewrite Rneqb_false; [reflexivity|].
  unfold det, cross, vsub; simpl. ring.
Qed.

Lemma closest_same (rf : t) (p : Vec2) : closest rf p p = (p, O).
Proof.
  unfold closest.
  generalize (seq 0 (Z.to_nat (n_mirrors rf))) as ks.
  induction ks as [|k ks IH]; [reflexivity|].
  simpl fold_left. rewrite intersection_same. simpl fst.
  rewrite Rltb_false; [exact IH|].
  unfold dot, vsub; simpl. lra.
Qed.

Lemma tracing_step_same (rf : t) (p : Vec2) : tracing_step rf p p = None.
Proof.
  unfold tracing_step. rewrite closest_same.
  rewrite Rltb_true; [reflexivity|].
  unfold norm, vsub; simpl.
  replace ((vx p - vx p) * (vx p - vx p) + (vy p - vy p) * (vy p - vy p))
    with 0 by ring.
  rewrite sqrt_0. lra.
Qed.

(** C8. The polygon with centre (256, 256), 5 mirrors and radius 76.8 is
    built, and tracing the pixel (256, 256) breaks out of the loop in its
    first pass, before any reflection, and returns (256, 256). *)
Theorem tracing_center :
  exists rf,
    init (mkVec2 256 256) 5 76.8 (512, 512)%Z = Some rf /\
    tracing_step rf (center rf) (mkVec2 (IZR 256) (IZR 256)) = None /\
    tracing rf 256 256 = mkVec2 256 256.
Proof.
  eexists. split; [reflexivity|].
  split.
  - apply tracing_step_same.
  - unfold tracing. simpl tracing_loop.
    change (center _) with (mkVec2 256 256).
    rewrite tracing_step_same. reflexivity.
Qed.

End ReflectProperties.

(** * Properties of the solver *)

Section MpmProperties.

Import Mpm.

Ltac split_tests :=
  repeat (simpl;
          match goal with
          | |- context [Z.ltb ?a ?b] => destruct (Z.ltb_spec a b)
          | |- context [Rlt_dec ?a ?b] => destruct (Rlt_dec a b)
          | |- context [Rle_dec ?a ?b] => destruct (Rle_dec a b)
          end).

(** The grid loop writes [grid_node] at every node of the grid. *)
Lemma grid_ops_node (quality : Z) (omega : R) (s : t) (i j : Z) :
  in_grid (grid_res quality) i j = true ->
  grid_v (grid_ops quality omega s) i j
  = grid_node quality omega i j (grid_m s i j) (grid_v s i j).
Proof.
  intros Hin. unfold grid_ops, grid_foreach. cbn [grid_v set_grid_v].
  rewrite Hin. reflexivity.
Qed.

(** The third node from the high edge, [i = grid_res - 3], keeps a positive
    x velocity: the test of the source is [i > grid_res - 3]. *)
Lemma third_cell_from_high_edge_keeps_velocity :
  (grid_res 1 - 3 <= 125 < grid_res 1)%Z /\
  0 < grid_m (uniform_grid (mkVec2 1 0)) 125%Z 64%Z /\
  vx (grid_v (grid_ops 1 0 (uniform_grid (mkVec2 1 0))) 125%Z 64%Z) = 1.
Proof.
  split; [unfold grid_res; lia|]. split; [simpl; lra|].
  rewrite grid_ops_node by reflexivity.
  cbn [uniform_grid grid_m grid_v].
  unfold grid_node. rewrite Rltb_true by lra.
  replace (limit_box 1 125 64 (vadd (vdiv (mkVec2 1 0) 1) (vscale (dt 1) (g))))
    with (vadd (vdiv (mkVec2 1 0) 1) (vscale (dt 1) (g))) by reflexivity.
  unfold limit_circle.
  assert (Hn : norm (node_dpos 1 125 64) < 0.5).
  { rewrite <- sqrt_quarter.
    unfold norm, node_dpos, dx, grid_res; simpl vx; simpl vy.
    apply sqrt_lt_1_alt. simpl Z.mul. lra. }
  rewrite (Rleb_false 0.5) by lra. simpl andb. cbv iota.
  unfold vadd, vdiv, vscale; simpl. lra.
Qed.

(** C6 (amended). In the grid loop, at a node of positive mass, the
    velocity that leaves the box limit (normalised, with gravity added,
    before the rim rule) has its outward component zeroed in the margins the
    source tests: a negative component at an index below 3, a positive
    component at an index above [grid_res - 3] (the last two indices), on
    each axis. *)
Theorem box_limit_zeroes_outward
    (quality : Z) (omega : R) (s : t) (i j : Z) :
  in_grid (grid_res quality) i j = true ->
  0 < grid_m s i j ->
  let w := vadd (vdiv (grid_v s i j) (grid_m s i j))
                (vscale (dt quality) g) in
  let w' := limit_box quality i j w in
  grid_v (grid_ops quality omega s) i j = limit_circle quality omega i j w' /\
  ((i < 3)%Z -> vx w < 0 -> vx w' = 0) /\
  ((i > grid_res quality - 3)%Z -> 0 < vx w -> vx w' = 0) /\
  ((j < 3)%Z -> vy w < 0 -> vy w' = 0) /\
  ((j > grid_res quality - 3)%Z -> 0 < vy w -> vy w' = 0).
Proof.
  intros Hin Hm w w'. split.
  - rewrite grid_ops_node by exact Hin.
    unfold grid_node. rewrite Rltb_true by exact Hm. reflexivity.
  - subst w'. generalize w. clear w. intros [a b].
    unfold limit_box, vget, vset, Rltb.
    repeat split; intros Hi Hv; simpl in Hv; split_tests; simpl in *; lra || lia.
Qed.

Lemma box_limit_zeroes_outward_witness :
  vx (limit_box 1 1 64
        (vadd (vdiv (mkVec2 (-1) (-1)) 1) (vscale (dt 1) g))) = 0.
Proof.
  assert (Hin : in_grid (grid_res 1) 1 64 = true) by reflexivity.
  assert (Hm : 0 < grid_m (uniform_grid (mkVec2 (-1) (-1))) 1%Z 64%Z)
    by (simpl; lra).
  destruct (box_limit_zeroes_outward 1 0 (uniform_grid (mkVec2 (-1) (-1)))
              1 64 Hin Hm) as [_ [Hlow _]].
  apply Hlow; [lia|].
  unfold vadd, vdiv, vscale, dt, g; simpl. lra.
Defined.

(** What the friction rule does to a tangential speed [vt] when the radial
    speed [vr] is positive. *)
Lemma rim_tangential_bounds (omega vr vt : R) :
  0 < vr ->
  let t' := rim_tangential omega vr vt in
  (vt < omega -> t' = Rmin omega (vt + 0.8 * vr)) /\
  (omega <= vt -> t' = Rmax omega (vt - 0.8 * vr)) /\
  Rabs (t' - vt) <= 0.8 * vr /\
  Rmin vt omega <= t' <= Rmax vt omega.
Proof.
  intros Hr t'. subst t'.
  unfold rim_tangential, mu_boundary, Rltb.
  destruct (Rlt_dec vt omega) as [Hlt | Hge].
  - split; [reflexivity|]. split; [intros; lra|].
    unfold Rabs, Rmin, Rmax.
    destruct (Rcase_abs _); repeat destruct (Rle_dec _ _); lra.
  - split; [intros; lra|]. split; [reflexivity|].
    unfold Rabs, Rmin, Rmax.
    destruct (Rcase_abs _); repeat destruct (Rle_dec _ _); lra.
Qed.

(** The velocity the rim rule writes, in terms of the new tangential
    speed. *)
Lemma limit_circle_hit (quality : Z) (omega : R) (i j : Z) (w : Vec2) :
  let d := node_dpos quality i j in
  0.5 <= norm d -> 0 < dot d w ->
  limit_circle quality omega i j w =
  vscale (rim_tangential omega (dot d w / norm d) (cross d w / norm d))
         (vdiv (mkVec2 (- vy d) (vx d)) (norm d)).
Proof.
  intros d Hn Hd. unfold limit_circle. fold d.
  rewrite Rleb_true by exact Hn. rewrite Rltb_true by exact Hd.
  simpl andb. cbv iota.
  f_equal. unfold mvec, vdiv; simpl. f_equal; f_equal; ring.
Qed.

Lemma tangential_of_rotated (a b N T : R) :
  0 < N -> N * N = a * a + b * b ->
  (a * (T * (a / N)) - b * (T * (- b / N))) / N = T.
Proof.
  intros HN Hsq.
  replace ((a * (T * (a / N)) - b * (T * (- b / N))) / N)
    with (T * (a * a + b * b) / (N * N)) by (field; lra).
  rewrite <- Hsq. field. lra.
Qed.

(** C2. In the grid loop, at a node of positive mass whose position relative to the centre
    (0.5, 0.5) has norm at least 0.5 and whose velocity [w] (normalised,
    with gravity, box-limited) has a positive radial component, the new
    velocity is [t'] times the unit vector at +90 degrees from the radial
    direction, so it has no radial part; its tangential speed [t'] is the
    old one moved toward [omega] by at most 0.8 times the radial speed and
    stopped at [omega], hence between the old tangential speed and
    [omega]. *)
Theorem rim_friction (quality : Z) (omega : R) (s : t) (i j : Z) :
  in_grid (grid_res quality) i j = true ->
  0 < grid_m s i j ->
  let w := limit_box quality i j
             (vadd (vdiv (grid_v s i j) (grid_m s i j))
                   (vscale (dt quality) g)) in
  let d := node_dpos quality i j in
  0.5 <= norm d -> 0 < dot d w ->
  let v_r := dot d w / norm d in
  let v_t := cross d w / norm d in
  let u' := grid_v (grid_ops quality omega s) i j in
  let t' := cross d u' / norm d in
  0 < v_r /\
  u' = vscale t' (vdiv (mkVec2 (- vy d) (vx d)) (norm d)) /\
  dot d u' = 0 /\
  (v_t < omega -> t' = Rmin omega (v_t + 0.8 * v_r)) /\
  (omega <= v_t -> t' = Rmax omega (v_t - 0.8 * v_r)) /\
  Rabs (t' - v_t) <= 0.8 * v_r /\
  Rmin v_t omega <= t' <= Rmax v_t omega.
Proof.
  intros Hin Hm w d Hn Hd v_r v_t u' t'.
  assert (Hpos : 0 < norm d) by lra.
  assert (Hr : 0 < v_r) by (apply Rdiv_lt_0_compat; assumption).
  assert (Hu : u' = vscale (rim_tangential omega v_r v_t)
                           (vdiv (mkVec2 (- vy d) (vx d)) (norm d))).
  { subst u'. rewrite grid_ops_node by exact Hin.
    unfold grid_node. rewrite Rltb_true by exact Hm.
    fold w. apply limit_circle_hit; assumption. }
  assert (Ht : t' = rim_tangential omega v_r v_t).
  { subst t'. rewrite Hu.
    exact (tangential_of_rotated (vx d) (vy d) (norm d) _ Hpos (norm_sqr d)). }
  split; [exact Hr|].
  split; [rewrite Ht; exact Hu|].
  split.
  - rewrite Hu. unfold dot, vscale, vdiv; simpl. field. lra.
  - rewrite Ht. apply rim_tangential_bounds. exact Hr.
Qed.

Lemma rim_friction_witness :
  dot (node_dpos 1 10 10)
      (grid_v (grid_ops 1 4 (uniform_grid (mkVec2 (-1) (-1)))) 10%Z 10%Z) = 0.
Proof.
  assert (Hin : in_grid (grid_res 1) 10 10 = true) by reflexivity.
  assert (Hm : 0 < grid_m (uniform_grid (mkVec2 (-1) (-1))) 10%Z 10%Z)
    by (simpl; lra).
  assert (Hw : limit_box 1 10 10
                 (vadd (vdiv (mkVec2 (-1) (-1)) 1) (vscale (dt 1) g))
               = vadd (vdiv (mkVec2 (-1) (-1)) 1) (vscale (dt 1) g))
    by reflexivity.
  assert (Hn : 0.5 <= norm (node_dpos 1 10 10)).
  { rewrite <- sqrt_quarter at 1.
    unfold norm, node_dpos, dx, grid_res; simpl vx; simpl vy.
    apply sqrt_le_1_alt. simpl Z.mul. lra. }
  assert (Hd : 0 < dot (node_dpos 1 10 10)
                     (limit_box 1 10 10
                        (vadd (vdiv (mkVec2 (-1) (-1)) 1) (vscale (dt 1) g)))).
  { rewrite Hw. unfold dot, node_dpos, dx, grid_res, vadd, vdiv, vscale, dt, g.
    simpl. lra. }
  exact (proj1 (proj2 (proj2
           (rim_friction 1 4 (uniform_grid (mkVec2 (-1) (-1))) 10 10
                         Hin Hm Hn Hd)))).
Defined.

Lemma plasticity_inside (s : R) :
  1 - 2.5e2 <= s <= 1 + 4.5e-3 -> plasticity s = s.
Proof.
  intros H. unfold plasticity, Rmin, Rmax.
  repeat destruct (Rle_dec _ _); lra.
Qed.

(** What the P2G body does for snow, whatever [ti.svd] returns: both
    diagonal entries of [sig] go through [plasticity] (bounds -249 and
    1.0045), [Jp] takes the two ratios, and [F] is rebuilt from [U], the
    new [sig] and [V]. *)
Lemma snow_update (quality : Z) (svd : Mat2 -> Mat2 * Mat2 * Mat2)
    (Cp Fp : Mat2) (Jp0 : R) :
  let F1 := mmul (madd midentity (mscale (dt quality) Cp)) Fp in
  let U := fst (fst (svd F1)) in
  let sig := snd (fst (svd F1)) in
  let V := snd (svd F1) in
  let r := p2g_local quality svd MATERIAL_SNOW Cp Fp Jp0 in
  fst (fst r)
  = mmul (mmul U (mkMat2 (plasticity (m00 sig)) (m01 sig) (m10 sig)
                         (plasticity (m11 sig))))
         (mtranspose V) /\
  snd (fst r)
  = Jp0 * (m00 sig / plasticity (m00 sig)) * (m11 sig / plasticity (m11 sig)).
Proof.
  unfold p2g_local, plastic_loop, MATERIAL_SNOW.
  destruct (svd _) as [[U sig] V].
  cbn [fold_left Z.eqb Pos.eqb MATERIAL_LIQUID MATERIAL_JELLY mdiag mdiag_set
       fst snd m00 m11 m01 m10].
  split; reflexivity.
Qed.

(** C1 (the code at the failing input). A singular value of 0.5 is below
    the spec's lower bound 0.975, yet the source's bound leaves it alone:
    for a snow particle with [C = 0], [F = diag(0.5, 0.5)], [Jp = 1], the
    P2G body keeps [F] and [Jp] as they are. *)
Theorem snow_lower_bound_not_applied :
  plasticity 0.5 = 0.5 /\ plasticity_spec 0.5 = 0.975 /\
  let r := p2g_local 1 svd_diagonal MATERIAL_SNOW mzero
                     (mkMat2 0.5 0 0 0.5) 1 in
  fst (fst r) = mkMat2 0.5 0 0 0.5 /\ snd (fst r) = 1.
Proof.
  split; [apply plasticity_inside; lra|].
  split.
  { unfold plasticity_spec, Rmin, Rmax. repeat destruct (Rle_dec _ _); lra. }
  unfold p2g_local, svd_diagonal, plastic_loop, MATERIAL_SNOW.
  cbn [fold_left Z.eqb Pos.eqb MATERIAL_LIQUID MATERIAL_JELLY mdiag mdiag_set
       fst snd m00 m11 m01 m10 mmul madd mscale midentity mzero].
  replace ((1 + dt 1 * 0) * 0.5 + (0 + dt 1 * 0) * 0) with 0.5 by ring.
  replace ((0 + dt 1 * 0) * 0 + (1 + dt 1 * 0) * 0.5) with 0.5 by ring.
  replace ((1 + dt 1 * 0) * 0 + (0 + dt 1 * 0) * 0.5) with 0 by ring.
  replace ((0 + dt 1 * 0) * 0.5 + (1 + dt 1 * 0) * 0) with 0 by ring.
  rewrite (plasticity_inside 0.5) by lra.
  split.
  - unfold mmul, mtranspose, midentity; simpl. f_equal; lra.
  - lra.
Qed.

(** ** Mass on the grid *)

Lemma sum_upto_ext (n : nat) (f h : Z -> R) :
  (forall k, (k < n)%nat -> f (Z.of_nat k) = h (Z.of_nat k)) ->
  sum_upto n f = sum_upto n h.
Proof.
  induction n as [|n IH]; intros Hfh; [reflexivity|].
  simpl. rewrite IH by (intros k Hk; apply Hfh; lia).
  rewrite Hfh by lia. reflexivity.
Qed.

Lemma sum_upto_plus (n : nat) (f h : Z -> R) :
  sum_upto n (fun i => f i + h i) = sum_upto n f + sum_upto n h.
Proof. induction n as [|n IH]; simpl; [|rewrite IH]; ring. Qed.

Lemma sum_upto_zero (n : nat) : sum_upto n (fun _ => 0) = 0.
Proof. induction n as [|n IH]; simpl; [|rewrite IH]; ring. Qed.

Lemma sum_upto_point (n : nat) (k : Z) (d : R) :
  (0 <= k < Z.of_nat n)%Z ->
  sum_upto n (fun i => if (i =? k)%Z then d else 0) = d.
Proof.
  induction n as [|n IH]; intros Hk; [lia|].
  simpl. destruct (Z.eqb_spec (Z.of_nat n) k) as [Heq | Hne].
  - rewrite (sum_upto_ext n _ (fun _ => 0)).
    + rewrite sum_upto_zero. ring.
    + intros j Hj. destruct (Z.eqb_spec (Z.of_nat j) k); [lia | reflexivity].
  - rewrite IH by lia. ring.
Qed.

Lemma in_grid_iff (n i j : Z) :
  in_grid n i j = true <-> (0 <= i < n /\ 0 <= j < n)%Z.
Proof.
  unfold in_grid. rewrite !andb_true_iff, !Z.leb_le, !Z.ltb_lt. tauto.
Qed.

Lemma in_grid_index (n : Z) (a b : nat) :
  (a < Z.to_nat n)%nat -> (b < Z.to_nat n)%nat ->
  in_grid n (Z.of_nat a) (Z.of_nat b) = true.
Proof. intros Ha Hb. apply in_grid_iff. lia. Qed.

(** An addition at one node of the grid adds to the total. *)
Lemma grid_sum_modify (n : Z) (gm : Grid R) (i j : Z) (d : R) :
  in_grid n i j = true ->
  grid_sum n (grid_modify n gm i j (fun m => m + d)) = grid_sum n gm + d.
Proof.
  intros Hin. unfold grid_modify. rewrite Hin.
  apply in_grid_iff in Hin. unfold grid_sum.
  rewrite (sum_upto_ext _ _
             (fun i' => sum_upto (Z.to_nat n) (fun j' => gm i' j')
                        + (if (i' =? i)%Z then d else 0))).
  - rewrite sum_upto_plus. rewrite sum_upto_point by lia. reflexivity.
  - intros a Ha.
    rewrite (sum_upto_ext _ _
               (fun j' => gm (Z.of_nat a) j'
                          + (if (Z.of_nat a =? i)%Z
                             then (if (j' =? j)%Z then d else 0) else 0))).
    + rewrite sum_upto_plus. f_equal.
      destruct (Z.of_nat a =? i)%Z.
      * apply sum_upto_point. lia.
      * apply sum_upto_zero.
    + intros b Hb.
      destruct (Z.of_nat a =? i)%Z, (Z.of_nat b =? j)%Z; simpl; ring.
Qed.

(** The quadratic B-spline weights of one axis sum to one. *)
Lemma weights_sum (f : R) :
  0.5 * (1.5 - f) ^ 2 + (0.75 - (f - 1) ^ 2) + 0.5 * (f - 0.5) ^ 2 = 1.
Proof. lra. Qed.

Lemma scatter_mass (quality : Z) (base : Z * Z) (fx vp : Vec2) (affine : Mat2)
    (gm : Grid R) (gv : Grid Vec2) :
  (0 <= fst base /\ fst base + 2 < grid_res quality /\
   0 <= snd base /\ snd base + 2 < grid_res quality)%Z ->
  grid_sum (grid_res quality)
           (fst (scatter quality base fx (weights fx) vp affine gm gv))
  = grid_sum (grid_res quality) gm + p_mass quality.
Proof.
  intros Hb. unfold scatter, ndrange33.
  cbn [fold_left fst snd].
  rewrite !grid_sum_modify by (apply in_grid_iff; lia).
  unfold weight, weights, vmap. cbn [nth vget vx vy].
  generalize (p_mass quality). generalize (grid_sum (grid_res quality) gm).
  intros S m. lra.
Qed.

Lemma p2g_particle_x (quality : Z) (svd : Mat2 -> Mat2 * Mat2 * Mat2)
    (s : t) (p : nat) :
  x (p2g_particle quality svd s p) = x s.
Proof.
  unfold p2g_particle.
  destruct (p2g_local _ _ _ _ _ _) as [[Fp Jq] affine].
  destruct (scatter _ _ _ _ _ _ _ _) as [gm gv]. reflexivity.
Qed.

Lemma p2g_particle_mass (quality : Z) (svd : Mat2 -> Mat2 * Mat2 * Mat2)
    (s : t) (p : nat) :
  neighbourhood_in_grid quality (nth p (x s) vzero) ->
  grid_sum (grid_res quality) (grid_m (p2g_particle quality svd s p))
  = grid_sum (grid_res quality) (grid_m s) + p_mass quality.
Proof.
  intros Hb. unfold p2g_particle.
  destruct (p2g_local _ _ _ _ _ _) as [[Fp Jq] affine].
  destruct (scatter _ _ _ _ _ _ _ _) as [gm gv] eqn:Hsc.
  cbn [grid_m set_grid_v set_grid_m].
  change gm with (fst (gm, gv)). rewrite <- Hsc.
  apply scatter_mass. exact Hb.
Qed.

Lemma p2g_fold_mass (quality : Z) (svd : Mat2 -> Mat2 * Mat2 * Mat2)
    (ps : list nat) :
  forall s : t,
    (forall p, In p ps -> neighbourhood_in_grid quality (nth p (x s) vzero)) ->
    grid_sum (grid_res quality)
             (grid_m (fold_left (p2g_particle quality svd) ps s))
    = grid_sum (grid_res quality) (grid_m s)
      + INR (length ps) * p_mass quality.
Proof.
  induction ps as [|p ps IH]; intros s Hin.
  - simpl. ring.
  - cbn [fold_left]. rewrite IH.
    + rewrite p2g_particle_mass by (apply Hin; left; reflexivity).
      change (length (p :: ps)) with (S (length ps)). rewrite S_INR. ring.
    + intros q Hq. rewrite p2g_particle_x. apply Hin. right. exact Hq.
Qed.

Lemma reset_mass (quality : Z) (s : t) :
  grid_sum (grid_res quality) (grid_m (reset_grids quality s)) = 0.
Proof.
  unfold reset_grids. cbn [grid_m set_grid_v set_grid_m].
  unfold grid_sum, grid_foreach.
  rewrite (sum_upto_ext _ _ (fun _ => 0)); [apply sum_upto_zero|].
  intros a Ha.
  rewrite (sum_upto_ext _ _ (fun _ => 0)); [apply sum_upto_zero|].
  intros b Hb. rewrite in_grid_index by assumption. reflexivity.
Qed.

(** C3. If the 3x3 neighbourhood of every particle lies in the grid, then
    after the reset and the P2G phase the masses of all grid nodes add up
    to the number of particles times [p_mass], exactly; the reason is that
    the three weights of an axis add up to one. *)
Theorem mass_conservation (quality : Z) (svd : Mat2 -> Mat2 * Mat2 * Mat2)
    (s : t) :
  (forall p, (p < length (x s))%nat ->
             neighbourhood_in_grid quality (nth p (x s) vzero)) ->
  (forall f : R,
     0.5 * (1.5 - f) ^ 2 + (0.75 - (f - 1) ^ 2) + 0.5 * (f - 0.5) ^ 2 = 1) /\
  grid_sum (grid_res quality)
           (grid_m (p2g quality svd (reset_grids quality s)))
  = INR (length (x s)) * p_mass quality.
Proof.
  intros Hin. split; [exact weights_sum|].
  unfold p2g. rewrite p2g_fold_mass.
  - rewrite reset_mass, length_seq.
    change (x (reset_grids quality s)) with (x s). ring.
  - intros p Hp. apply in_seq in Hp.
    change (x (reset_grids quality s)) with (x s) in *.
    apply Hin. lia.
Qed.

Lemma base_of_centre : base_of 1 (mkVec2 0.5 0.5) = (63, 63)%Z.
Proof.
  assert (H : trunc (0.5 * inv_dx 1 - 0.5) = 63%Z).
  { unfold trunc, inv_dx, grid_res. simpl Z.mul.
    destruct (Rle_dec 0 (0.5 * 128 - 0.5)) as [_ | Hneg]; [|exfalso; lra].
    symmetry. apply Int_part_spec. lra. }
  unfold base_of. simpl vx. simpl vy. rewrite H. reflexivity.
Qed.

Lemma mass_conservation_witness :
  grid_sum (grid_res 1)
           (grid_m (p2g 1 svd_diagonal (reset_grids 1 one_particle)))
  = INR 1 * p_mass 1.
Proof.
  apply (mass_conservation 1 svd_diagonal one_particle).
  intros p Hp. simpl in Hp. assert (p = O) by lia. subst p.
  unfold neighbourhood_in_grid. simpl nth.
  rewrite base_of_centre. unfold grid_res. simpl. lia.
Defined.

(** ** What a sub-step leaves alone *)

Lemma same_particles_refl (s : t) : same_particles s s.
Proof. unfold same_particles. repeat split. Qed.

Lemma same_particles_trans (s1 s2 s3 : t) :
  same_particles s1 s2 -> same_particles s2 s3 -> same_particles s1 s3.
Proof.
  unfold same_particles. intros H12 H23.
  decompose [and] H12. decompose [and] H23.
  repeat split; congruence.
Qed.

Lemma fold_same_particles (f : t -> nat -> t) :
  (forall s p, same_particles s (f s p)) ->
  forall ps s, same_particles s (fold_left f ps s).
Proof.
  intros Hf ps. induction ps as [|p ps IH]; intros s.
  - apply same_particles_refl.
  - simpl. eapply same_particles_trans; [apply Hf | apply IH].
Qed.

Lemma p2g_particle_same (quality : Z) (svd : Mat2 -> Mat2 * Mat2 * Mat2)
    (s : t) (p : nat) :
  same_particles s (p2g_particle quality svd s p).
Proof.
  unfold p2g_particle.
  destruct (p2g_local _ _ _ _ _ _) as [[Fp Jq] affine].
  destruct (scatter _ _ _ _ _ _ _ _) as [gm gv].
  unfold same_particles. cbn. rewrite !length_upd. repeat split.
Qed.

Lemma g2p_particle_same (quality : Z) (s : t) (p : nat) :
  same_particles s (g2p_particle quality s p).
Proof.
  unfold g2p_particle.
  destruct (gather _ _ _ _ _) as [new_v new_C].
  unfold same_particles. cbn. rewrite !length_upd. repeat split.
Qed.

Lemma substep_same (quality : Z) (svd : Mat2 -> Mat2 * Mat2 * Mat2)
    (omega : R) (s : t) :
  same_particles s (substep quality svd omega s).
Proof.
  unfold substep, g2p, p2g.
  eapply same_particles_trans;
    [|apply fold_same_particles; apply g2p_particle_same].
  apply (same_particles_trans _ (reset_grids quality s));
    [unfold same_particles; repeat split|].
  eapply same_particles_trans;
    [apply fold_same_particles; apply p2g_particle_same|].
  unfold same_particles. repeat split.
Qed.

(** C9. A sub-step changes no particle's material, colour or palette index
    (nor the palette), and keeps the number of particles: the fields
    [material], [color] and [color_id] are the same lists afterwards, and
    the fields it does write ([x], [v], [C], [F], [Jp]) keep their
    lengths. *)
Theorem substep_frame (quality : Z) (svd : Mat2 -> Mat2 * Mat2 * Mat2)
    (omega : R) (s : t) :
  let s' := substep quality svd omega s in
  material s' = material s /\ color s' = color s /\
  color_id s' = color_id s /\ palette s' = palette s /\
  length (x s') = length (x s) /\ length (v s') = length (v s) /\
  length (C s') = length (C s) /\ length (F s') = length (F s) /\
  length (Jp s') = length (Jp s) /\
  forall p : nat,
    nth p (material s') 0%Z = nth p (material s) 0%Z /\
    nth p (color s') (0, 0, 0) = nth p (color s) (0, 0, 0) /\
    nth p (color_id s') 0 = nth p (color_id s) 0.
Proof.
  intros s'. pose proof (substep_same quality svd omega s) as H.
  fold s' in H. unfold same_particles in H. decompose [and] H.
  repeat split; try assumption; congruence.
Qed.

(** ** The plastic Jacobian of particles that are not snow *)

Lemma plastic_loop_not_snow (mat : Z) (Jp0 : R) (sig : Mat2) :
  mat <> MATERIAL_SNOW -> m00 sig <> 0 -> m11 sig <> 0 ->
  fst (fst (plastic_loop mat Jp0 sig)) = Jp0.
Proof.
  intros Hmat H0 H1. unfold plastic_loop.
  apply Z.eqb_neq in Hmat. cbn [fold_left]. rewrite Hmat.
  cbn [mdiag mdiag_set m00 m11 fst]. field. split; assumption.
Qed.

Lemma p2g_local_Jp (quality : Z) (svd : Mat2 -> Mat2 * Mat2 * Mat2)
    (mat : Z) (Cp Fp : Mat2) (Jp0 : R) :
  mat <> MATERIAL_SNOW ->
  (let F1 := mmul (madd midentity (mscale (dt quality) Cp)) Fp in
   m00 (snd (fst (svd F1))) <> 0 /\ m11 (snd (fst (svd F1))) <> 0) ->
  snd (fst (p2g_local quality svd mat Cp Fp Jp0)) = Jp0.
Proof.
  intros Hmat [H0 H1]. unfold p2g_local.
  destruct (svd _) as [[U sig] V]. cbn [fst snd] in H0, H1.
  pose proof (plastic_loop_not_snow mat Jp0 sig Hmat H0 H1) as Hloop.
  destruct (plastic_loop mat Jp0 sig) as [[Jq sig'] J].
  cbn [fst snd] in *. exact Hloop.
Qed.

Lemma p2g_particle_other (quality : Z) (svd : Mat2 -> Mat2 * Mat2 * Mat2)
    (s : t) (p q : nat) :
  p <> q -> same_inputs p s (p2g_particle quality svd s q).
Proof.
  intros Hpq. unfold p2g_particle.
  destruct (p2g_local _ _ _ _ _ _) as [[Fp Jq] affine].
  destruct (scatter _ _ _ _ _ _ _ _) as [gm gv].
  unfold same_inputs. cbn. rewrite !nth_upd_other by exact Hpq.
  repeat split.
Qed.

Lemma p2g_fold_other (quality : Z) (svd : Mat2 -> Mat2 * Mat2 * Mat2)
    (p : nat) (ps : list nat) :
  ~ In p ps ->
  forall s, same_inputs p s (fold_left (p2g_particle quality svd) ps s).
Proof.
  induction ps as [|q ps IH]; intros Hnot s.
  - unfold same_inputs. repeat split.
  - cbn [fold_left].
    assert (Hq : p <> q) by (intros ->; apply Hnot; left; reflexivity).
    assert (Hps : ~ In p ps) by (intros Hin; apply Hnot; right; exact Hin).
    destruct (IH Hps (p2g_particle quality svd s q)) as [A1 [A2 [A3 A4]]].
    destruct (p2g_particle_other quality svd s p q Hq) as [B1 [B2 [B3 B4]]].
    unfold same_inputs. repeat split; congruence.
Qed.

Lemma p2g_particle_self (quality : Z) (svd : Mat2 -> Mat2 * Mat2 * Mat2)
    (s : t) (p : nat) :
  nth p (material s) 0%Z <> MATERIAL_SNOW ->
  singular_values_nonzero quality svd s p ->
  nth p (Jp (p2g_particle quality svd s p)) 0 = nth p (Jp s) 0.
Proof.
  intros Hmat Hsig. unfold p2g_particle.
  pose proof (p2g_local_Jp quality svd _ (nth p (C s) mzero)
                (nth p (F s) mzero) (nth p (Jp s) 0) Hmat Hsig) as Hloc.
  destruct (p2g_local _ _ _ _ _ _) as [[Fp Jq] affine].
  destruct (scatter _ _ _ _ _ _ _ _) as [gm gv].
  cbn [fst snd] in Hloc. subst Jq. cbn. rewrite upd_nth. reflexivity.
Qed.

Lemma p2g_Jp (quality : Z) (svd : Mat2 -> Mat2 * Mat2 * Mat2)
    (s : t) (p : nat) :
  nth p (material s) 0%Z <> MATERIAL_SNOW ->
  ((p < length (x s))%nat -> singular_values_nonzero quality svd s p) ->
  nth p (Jp (p2g quality svd s)) 0 = nth p (Jp s) 0.
Proof.
  intros Hmat Hsig. unfold p2g.
  destruct (Nat.lt_ge_cases p (length (x s))) as [Hlt | Hge].
  - replace (length (x s)) with (p + S (length (x s) - S p))%nat by lia.
    rewrite seq_app, fold_left_app. cbn [seq fold_left Nat.add].
    set (s1 := fold_left (p2g_particle quality svd) (seq 0 p) s).
    assert (H1 : same_inputs p s s1).
    { apply p2g_fold_other. rewrite in_seq. lia. }
    destruct H1 as [M1 [C1 [F1 J1]]].
    set (s2 := p2g_particle quality svd s1 p).
    assert (H2 : nth p (Jp s2) 0 = nth p (Jp s1) 0).
    { apply p2g_particle_self.
      - rewrite M1. exact Hmat.
      - unfold singular_values_nonzero. rewrite C1, F1. exact (Hsig Hlt). }
    assert (H3 : same_inputs p s2
                   (fold_left (p2g_particle quality svd)
                              (seq (S p) (length (x s) - S p)) s2)).
    { apply p2g_fold_other. rewrite in_seq. lia. }
    destruct H3 as [_ [_ [_ J3]]]. congruence.
  - assert (H : same_inputs p s
                  (fold_left (p2g_particle quality svd)
                             (seq 0 (length (x s))) s)).
    { apply p2g_fold_other. rewrite in_seq. lia. }
    destruct H as [_ [_ [_ J]]]. exact J.
Qed.

Lemma g2p_Jp (quality : Z) (s : t) : Jp (g2p quality s) = Jp s.
Proof.
  unfold g2p. generalize (seq 0 (length (x s))) as ps. intros ps.
  revert s. induction ps as [|p ps IH]; intros s; [reflexivity|].
  cbn [fold_left]. rewrite IH. unfold g2p_particle.
  destruct (gather _ _ _ _ _) as [new_v new_C]. reflexivity.
Qed.

Lemma substep_Jp (quality : Z) (svd : Mat2 -> Mat2 * Mat2 * Mat2)
    (omega : R) (s : t) (p : nat) :
  nth p (material s) 0%Z <> MATERIAL_SNOW ->
  ((p < length (x s))%nat -> singular_values_nonzero quality svd s p) ->
  nth p (Jp (substep quality svd omega s)) 0 = nth p (Jp s) 0.
Proof.
  intros Hmat Hsig. unfold substep. rewrite g2p_Jp.
  change (Jp (grid_ops quality omega
                       (p2g quality svd (reset_grids quality s))))
    with (Jp (p2g quality svd (reset_grids quality s))).
  rewrite p2g_Jp; [reflexivity | exact Hmat | exact Hsig].
Qed.

Lemma all_jelly_not_snow (s : t) (p : nat) :
  Forall (fun m => m = MATERIAL_JELLY) (material s) ->
  nth p (material s) 0%Z <> MATERIAL_SNOW.
Proof.
  intros Hall.
  destruct (Nat.lt_ge_cases p (length (material s))) as [Hlt | Hge].
  - rewrite Forall_forall in Hall.
    rewrite (Hall (nth p (material s) 0%Z)) by (apply nth_In; exact Hlt).
    discriminate.
  - rewrite nth_overflow by exact Hge. discriminate.
Qed.

(** C10. A sub-step leaves [Jp[p]] as it was for a particle [p] that is
    not snow, provided the singular values [ti.svd] returns for its updated
    deformation gradient are nonzero.  Hence, when every particle is jelly
    and every [Jp] is 1, every [Jp] is still 1 after any number of
    sub-steps along which the singular values stay nonzero. *)
Theorem Jp_unchanged_unless_snow (quality : Z)
    (svd : Mat2 -> Mat2 * Mat2 * Mat2) (omega : R) :
  (forall (s : t) (p : nat),
     nth p (material s) 0%Z <> MATERIAL_SNOW ->
     singular_values_nonzero quality svd s p ->
     nth p (Jp (substep quality svd omega s)) 0 = nth p (Jp s) 0) /\
  (forall (n : nat) (s : t),
     Forall (fun m => m = MATERIAL_JELLY) (material s) ->
     Forall (fun j => j = 1) (Jp s) ->
     (forall k p, (k < n)%nat -> (p < length (x s))%nat ->
        singular_values_nonzero quality svd
          (Nat.iter k (substep quality svd omega) s) p) ->
     Forall (fun j => j = 1) (Jp (Nat.iter n (substep quality svd omega) s))).
Proof.
  split.
  - intros s p Hmat Hsig. apply substep_Jp; [exact Hmat | intros _; exact Hsig].
  - induction n as [|n IH]; intros s Hjelly Hone Hsig; [exact Hone|].
    cbn [Nat.iter].
    set (sn := Nat.iter n (substep quality svd omega) s) in *.
    assert (Hn : Forall (fun j => j = 1) (Jp sn)).
    { apply IH; [exact Hjelly | exact Hone |].
      intros k p Hk Hp. apply Hsig; [lia | exact Hp]. }
    assert (Hsame : same_particles s sn).
    { subst sn. clear. induction n as [|n IHn]; [apply same_particles_refl|].
      cbn [Nat.iter]. eapply same_particles_trans; [exact IHn|].
      apply substep_same. }
    destruct Hsame as [Hmat [_ [_ [_ [Hx _]]]]].
    destruct (substep_same quality svd omega sn) as [_ [_ [_ [_ [_ [_ [_ [_ HJ]]]]]]]].
    apply Forall_nth. intros p d Hp.
    change (Nat.iter (S n) (substep quality svd omega) s)
      with (substep quality svd omega sn) in *.
    rewrite (nth_indep _ d 0) by exact Hp.
    rewrite substep_Jp.
    + rewrite Forall_forall in Hn. apply Hn. apply nth_In. lia.
    + apply all_jelly_not_snow. rewrite Hmat. exact Hjelly.
    + intros Hlt. apply Hsig; [lia | lia].
Qed.

Lemma Jp_unchanged_unless_snow_witness :
  nth 0 (Jp (substep 1 svd_diagonal 4 one_particle)) 0 = 1 /\
  Forall (fun j => j = 1)
         (Jp (Nat.iter 1 (substep 1 svd_diagonal 4) one_particle)).
Proof.
  assert (Hsig : singular_values_nonzero 1 svd_diagonal one_particle 0)
    by (unfold singular_values_nonzero, svd_diagonal, dt; simpl; lra).
  destruct (Jp_unchanged_unless_snow 1 svd_diagonal 4) as [Hstep Hrun].
  split.
  - apply (Hstep one_particle O); [discriminate | exact Hsig].
  - apply Hrun.
    + repeat constructor.
    + repeat constructor.
    + intros k p Hk Hp. simpl in Hp.
      assert (k = O) by lia. assert (p = O) by lia. subst k p. exact Hsig.
Defined.

End MpmProperties.

(** * Further properties of the mirror tracer *)

Section ReflectFurther.

Import Reflect.

Lemma Rneqb_spec (a b : R) : Rneqb a b = true <-> a <> b.
Proof.
  unfold Rneqb. destruct (Req_dec_T a b); split; intros; auto;
    try discriminate; contradiction.
Qed.

Lemma Rltb_spec (a b : R) : Rltb a b = true <-> a < b.
Proof. unfold Rltb. destruct (Rlt_dec a b); split; intros; auto; discriminate. Qed.

Ltac mirror_algebra Hlen :=
  unfold reflection, along, dist2, side, cross, vadd, vsub, vscale, mvec;
  unfold mirror_len2 in Hlen; simpl in *.

(** X1. A point of the mirror line is its own image. *)
Theorem reflection_fixes_mirror (p0 p1 : Vec2) (t : R) :
  mirror_len2 p0 p1 <> 0 ->
  reflection (along p0 p1 t) p0 p1 = along p0 p1 t.
Proof.
  intros Hlen. destruct p0 as [x0 y0], p1 as [x1 y1].
  mirror_algebra Hlen. f_equal; field; exact Hlen.
Qed.

Lemma reflection_fixes_mirror_witness :
  mirror_len2 (mkVec2 0 0) (mkVec2 1 2) <> 0 /\
  reflection (along (mkVec2 0 0) (mkVec2 1 2) 3) (mkVec2 0 0) (mkVec2 1 2)
  = along (mkVec2 0 0) (mkVec2 1 2) 3.
Proof.
  assert (H : mirror_len2 (mkVec2 0 0) (mkVec2 1 2) <> 0)
    by (unfold mirror_len2; simpl; lra).
  split; [exact H | exact (reflection_fixes_mirror _ _ 3 H)].
Defined.

(** X2. Reflection keeps distances: the images of two points are as far
    apart as the points. *)
Theorem reflection_isometry (q q' p0 p1 : Vec2) :
  mirror_len2 p0 p1 <> 0 ->
  dist2 (reflection q p0 p1) (reflection q' p0 p1) = dist2 q q'.
Proof.
  intros Hlen.
  destruct p0 as [x0 y0], p1 as [x1 y1], q as [a b], q' as [a' b'].
  mirror_algebra Hlen. field; exact Hlen.
Qed.

Lemma reflection_isometry_witness :
  mirror_len2 (mkVec2 0 0) (mkVec2 1 2) <> 0 /\
  dist2 (reflection (mkVec2 3 5) (mkVec2 0 0) (mkVec2 1 2))
        (reflection (mkVec2 (-1) 4) (mkVec2 0 0) (mkVec2 1 2))
  = dist2 (mkVec2 3 5) (mkVec2 (-1) 4).
Proof.
  assert (H : mirror_len2 (mkVec2 0 0) (mkVec2 1 2) <> 0)
    by (unfold mirror_len2; simpl; lra).
  split; [exact H | exact (reflection_isometry _ _ _ _ H)].
Defined.

(** X3. The image lies on the other side of the mirror line, as far from
    it: the signed side changes sign. *)
Theorem reflection_flips_side (q p0 p1 : Vec2) :
  mirror_len2 p0 p1 <> 0 ->
  side p0 p1 (reflection q p0 p1) = - side p0 p1 q.
Proof.
  intros Hlen. destruct p0 as [x0 y0], p1 as [x1 y1], q as [a b].
  mirror_algebra Hlen. field; exact Hlen.
Qed.

Lemma reflection_flips_side_witness :
  mirror_len2 (mkVec2 0 0) (mkVec2 1 2) <> 0 /\
  side (mkVec2 0 0) (mkVec2 1 2)
       (reflection (mkVec2 3 5) (mkVec2 0 0) (mkVec2 1 2))
  = - side (mkVec2 0 0) (mkVec2 1 2) (mkVec2 3 5).
Proof.
  assert (H : mirror_len2 (mkVec2 0 0) (mkVec2 1 2) <> 0)
    by (unfold mirror_len2; simpl; lra).
  split; [exact H | exact (reflection_flips_side _ _ _ H)].
Defined.

(** X4. The image does not depend on the order of the two points that
    give the mirror. *)
Theorem reflection_orientation (q p0 p1 : Vec2) :
  mirror_len2 p0 p1 <> 0 ->
  reflection q p1 p0 = reflection q p0 p1.
Proof.
  intros Hlen. destruct p0 as [x0 y0], p1 as [x1 y1], q as [a b].
  mirror_algebra Hlen.
  assert (Hrev : (x0 - x1) * (x0 - x1) + (y0 - y1) * (y0 - y1) <> 0).
  { intros H. apply Hlen. rewrite <- H. ring. }
  f_equal; field; repeat split; assumption.
Qed.

Lemma reflection_orientation_witness :
  mirror_len2 (mkVec2 0 0) (mkVec2 1 2) <> 0 /\
  reflection (mkVec2 3 5) (mkVec2 1 2) (mkVec2 0 0)
  = reflection (mkVec2 3 5) (mkVec2 0 0) (mkVec2 1 2).
Proof.
  assert (H : mirror_len2 (mkVec2 0 0) (mkVec2 1 2) <> 0)
    by (unfold mirror_len2; simpl; lra).
  split; [exact H | exact (reflection_orientation _ _ _ H)].
Defined.

Lemma along_end (a b : Vec2) : along a b 1 = b.
Proof.
  destruct a as [ax ay], b as [bx0 by0].
  unfold along, vadd, vscale, vsub; simpl. f_equal; ring.
Qed.

(** Where the two lines cross: the point at [t_b] on the second is the
    point at [t_a] on the first. *)
Lemma crossing_point (a0 a1 b0 b1 : Vec2) :
  det a0 a1 b0 b1 <> 0 ->
  vadd b0 (vscale (t_b a0 a1 b0 b1) (vsub b1 b0))
  = along a0 a1 (t_a a0 a1 b0 b1).
Proof.
  unfold t_a, t_b, along, det, cross, vadd, vscale, vsub.
  destruct a0 as [a0x a0y], a1 as [a1x a1y], b0 as [b0x b0y], b1 as [b1x b1y].
  simpl. intros Hd. f_equal; field; exact Hd.
Qed.

Lemma intersection_segment (a0 a1 b0 b1 : Vec2) :
  on_segment a0 a1 (intersection a0 a1 b0 b1).
Proof.
  unfold intersection.
  destruct (Rneqb (det a0 a1 b0 b1) 0) eqn:Hd;
    [|exists 1; split; [lra | symmetry; apply along_end]].
  destruct (Rleb 0 (t_a a0 a1 b0 b1) && Rleb (t_a a0 a1 b0 b1) 1
            && (Rleb 0 (t_b a0 a1 b0 b1) && Rleb (t_b a0 a1 b0 b1) 1)) eqn:Hin;
    [|exists 1; split; [lra | symmetry; apply along_end]].
  exists (t_a a0 a1 b0 b1).
  rewrite !andb_true_iff, !Rleb_spec in Hin.
  split; [tauto|].
  apply crossing_point. apply Rneqb_spec. exact Hd.
Qed.

(** X5. Whatever [Reflect.intersection] returns, crossing point or
    default, is a point of the first segment. *)
Theorem intersection_on_first_segment (a0 a1 b0 b1 : Vec2) :
  on_segment a0 a1 (intersection a0 a1 b0 b1).
Proof. exact (intersection_segment a0 a1 b0 b1). Qed.

(** The inner loop keeps its best hit on the segment from [src] to [dst],
    and its index is that of a mirror unless no mirror has replaced the
    initial [(dst, 0)]. *)
Lemma closest_fold (rf : t) (src dst : Vec2) (ks : list nat) :
  Forall (fun k => (k < Z.to_nat (n_mirrors rf))%nat) ks ->
  forall best : Vec2 * nat,
    on_segment src dst (fst best) /\
    (best = (dst, O) \/ (snd best < Z.to_nat (n_mirrors rf))%nat) ->
    let best' :=
      fold_left
        (fun (best : Vec2 * nat) (k : nat) =>
           let hit := intersection src dst (pt rf k) (pt rf (k + 1)) in
           if Rltb (dot (vsub hit src) (vsub hit (fst best))) (- 1e-1)
           then (hit, k)
           else best)
        ks best in
    on_segment src dst (fst best') /\
    (best' = (dst, O) \/ (snd best' < Z.to_nat (n_mirrors rf))%nat).
Proof.
  induction ks as [|k ks IH]; intros Hks best H0; [exact H0|].
  inversion Hks as [|? ? Hk Hks']; subst.
  cbn [fold_left]. apply IH; [exact Hks'|].
  cbv zeta. destruct (Rltb _ _).
  - split; [apply intersection_segment | right; exact Hk].
  - exact H0.
Qed.

Lemma closest_invariant (rf : t) (src dst : Vec2) :
  on_segment src dst (fst (closest rf src dst)) /\
  (closest rf src dst = (dst, O) \/
   (snd (closest rf src dst) < Z.to_nat (n_mirrors rf))%nat).
Proof.
  unfold closest. apply closest_fold.
  - apply Forall_forall. intros k Hk. apply in_seq in Hk. lia.
  - split; [|left; reflexivity].
    exists 1. split; [lra | symmetry; apply along_end].
Qed.

Lemma norm_self (p : Vec2) : norm (vsub p p) = 0.
Proof.
  unfold norm, vsub; simpl.
  replace ((vx p - vx p) * (vx p - vx p) + (vy p - vy p) * (vy p - vy p))
    with 0 by ring.
  apply sqrt_0.
Qed.

Lemma tracing_step_inv (rf : t) (src dst src' dst' : Vec2) :
  tracing_step rf src dst = Some (src', dst') ->
  on_segment src dst src' /\
  exists k : nat,
    (k < Z.to_nat (n_mirrors rf))%nat /\
    dst' = reflection dst (pt rf k) (pt rf (k + 1)).
Proof.
  unfold tracing_step. intros Hstep.
  destruct (closest_invariant rf src dst) as [Hseg Hk].
  destruct (closest rf src dst) as [h k] eqn:Hc.
  destruct (Rltb (norm (vsub h dst)) 1e-3) eqn:Hbreak; [discriminate|].
  inversion Hstep; subst src' dst'. cbn [fst snd] in *.
  split; [exact Hseg|].
  exists k. split; [|reflexivity].
  destruct Hk as [Hinit | Hlt]; [|exact Hlt].
  inversion Hinit; subst h k.
  rewrite norm_self in Hbreak.
  rewrite Rltb_true in Hbreak by lra. discriminate.
Qed.

Lemma tracing_loop_chain (rf : t) (passes : nat) :
  forall src dst : Vec2,
  exists ks : list nat,
    (length ks <= passes)%nat /\
    Forall (fun k => (k < Z.to_nat (n_mirrors rf))%nat) ks /\
    tracing_loop rf passes src dst = reflect_chain rf ks dst.
Proof.
  induction passes as [|passes IH]; intros src dst.
  - exists []. repeat split; [simpl; lia | constructor].
  - cbn [tracing_loop].
    destruct (tracing_step rf src dst) as [[src' dst']|] eqn:Hstep.
    + destruct (tracing_step_inv rf src dst src' dst' Hstep)
        as [_ [k [Hk Hdst]]].
      destruct (IH src' dst') as [ks [Hlen [Hall Heq]]].
      exists (k :: ks). split; [simpl; lia|].
      split; [constructor; assumption|].
      rewrite Heq. unfold reflect_chain. cbn [fold_left].
      rewrite Hdst. reflexivity.
    + exists []. repeat split; [simpl; lia | constructor].
Qed.

(** X6. A pass of the tracer that does not break continues from a point
    of the segment from [src] to [dst], with [dst] reflected across a
    mirror of the polygon: the index [k] it uses is below [n_mirrors], so
    both [mirror_pts[k]] and [mirror_pts[k + 1]] are vertices. *)
Theorem tracing_step_reflects (rf : t) (src dst src' dst' : Vec2) :
  tracing_step rf src dst = Some (src', dst') ->
  on_segment src dst src' /\
  exists k : nat,
    (k < Z.to_nat (n_mirrors rf))%nat /\
    dst' = reflection dst (pt rf k) (pt rf (k + 1)).
Proof. exact (tracing_step_inv rf src dst src' dst'). Qed.

Lemma one_mirror_hit :
  intersection (mkVec2 0 0) (mkVec2 2 0) (mkVec2 1 (-1)) (mkVec2 1 1)
  = mkVec2 1 0.
Proof.
  unfold intersection.
  rewrite Rneqb_true by (unfold det, cross, vsub; simpl; lra).
  rewrite !Rleb_true
    by (unfold t_a, t_b, det, cross, vsub; simpl; lra).
  cbn [andb]. unfold t_b, det, cross, vadd, vscale, vsub; simpl.
  f_equal; lra.
Qed.

Lemma one_mirror_step :
  tracing_step one_mirror (mkVec2 0 0) (mkVec2 2 0)
  = Some (mkVec2 1 0,
          reflection (mkVec2 2 0) (mkVec2 1 (-1)) (mkVec2 1 1)).
Proof.
  unfold tracing_step, closest.
  change (seq 0 (Z.to_nat (n_mirrors one_mirror))) with [O].
  cbn [fold_left].
  change (pt one_mirror 0) with (mkVec2 1 (-1)).
  change (pt one_mirror (0 + 1)) with (mkVec2 1 1).
  rewrite one_mirror_hit. cbn [fst].
  rewrite Rltb_true by (unfold dot, vsub; simpl; lra).
  assert (Hn : norm (vsub (mkVec2 1 0) (mkVec2 2 0)) = 1).
  { unfold norm, vsub; simpl.
    replace ((1 - 2) * (1 - 2) + (0 - 0) * (0 - 0)) with 1 by ring.
    apply sqrt_1. }
  rewrite Hn. rewrite Rltb_false by lra. reflexivity.
Qed.

Lemma tracing_step_reflects_witness :
  on_segment (mkVec2 0 0) (mkVec2 2 0) (mkVec2 1 0).
Proof.
  exact (proj1 (tracing_step_reflects one_mirror _ _ _ _ one_mirror_step)).
Defined.

(** X7. The point [Reflect.tracing] returns for a pixel is the pixel
    reflected across mirrors of the polygon, at most 100 times in a row,
    every one of them at an index below [n_mirrors]. *)
Theorem tracing_reflect_chain (rf : t) (i j : Z) :
  exists ks : list nat,
    (length ks <= 100)%nat /\
    Forall (fun k => (k < Z.to_nat (n_mirrors rf))%nat) ks /\
    tracing rf i j = reflect_chain rf ks (mkVec2 (IZR i) (IZR j)).
Proof. unfold tracing. apply tracing_loop_chain. Qed.

(** When the segment from the eye to the pixel crosses no mirror, the
    first pass breaks. *)
Lemma closest_no_hit (rf : t) (src dst : Vec2) (ks : list nat) :
  (forall k, In k ks ->
             intersection src dst (pt rf k) (pt rf (k + 1)) = dst) ->
  fold_left
    (fun (best : Vec2 * nat) (k : nat) =>
       let hit := intersection src dst (pt rf k) (pt rf (k + 1)) in
       if Rltb (dot (vsub hit src) (vsub hit (fst best))) (- 1e-1)
       then (hit, k)
       else best)
    ks (dst, O) = (dst, O).
Proof.
  induction ks as [|k ks IH]; intros Hmiss; [reflexivity|].
  cbn [fold_left]. cbv zeta.
  rewrite (Hmiss k) by (left; reflexivity). cbn [fst].
  rewrite Rltb_false.
  - apply IH. intros k' Hk'. apply Hmiss. right. exact Hk'.
  - unfold dot, vsub; simpl. lra.
Qed.

(** X8. A pixel that no mirror separates from the eye is traced to
    itself: if [Reflect.intersection] of the segment from the centre to
    the pixel with every mirror gives the default, the tracer returns the
    pixel. *)
Theorem tracing_unobstructed (rf : t) (i j : Z) :
  (forall k : nat, (k < Z.to_nat (n_mirrors rf))%nat ->
     intersection (center rf) (mkVec2 (IZR i) (IZR j))
                  (pt rf k) (pt rf (k + 1))
     = mkVec2 (IZR i) (IZR j)) ->
  tracing_step rf (center rf) (mkVec2 (IZR i) (IZR j)) = None /\
  tracing rf i j = mkVec2 (IZR i) (IZR j).
Proof.
  intros Hmiss.
  assert (Hstep : tracing_step rf (center rf) (mkVec2 (IZR i) (IZR j)) = None).
  { unfold tracing_step, closest. rewrite closest_no_hit.
    - rewrite norm_self. rewrite Rltb_true by lra. reflexivity.
    - intros k Hk. apply in_seq in Hk. apply Hmiss. lia. }
  split; [exact Hstep|].
  unfold tracing. cbn [tracing_loop]. rewrite Hstep. reflexivity.
Qed.

Lemma tracing_unobstructed_witness :
  tracing one_mirror 0 2 = mkVec2 0 2.
Proof.
  apply (tracing_unobstructed one_mirror 0 2).
  intros k Hk. simpl in Hk. assert (k = O) by lia. subst k.
  change (pt one_mirror 0) with (mkVec2 1 (-1)).
  change (pt one_mirror (0 + 1)) with (mkVec2 1 1).
  unfold intersection.
  rewrite Rneqb_false by (unfold det, cross, vsub; simpl; lra).
  reflexivity.
Defined.

(** ** The polygon [Reflect.init] builds *)

Lemma init_inv (c : Vec2) (n : Z) (radius : R) (rs : Z * Z) (rf : t) :
  init c n radius rs = Some rf ->
  (0 <= n)%Z /\ center rf = c /\ n_mirrors rf = n /\
  forall k : nat, (k <= Z.to_nat n)%nat -> pt rf k = vertex c radius n k.
Proof.
  unfold init, field_shape_ok, linspace. intros Hinit.
  destruct (0 <? n + 1)%Z eqn:H1; [|discriminate]. cbn [negb] in Hinit.
  apply Z.ltb_lt in H1.
  destruct (n + 1 <? 0)%Z eqn:H2; [discriminate|].
  destruct ((0 <? fst rs)%Z && (0 <? snd rs)%Z); [|discriminate].
  inversion Hinit; subst rf; clear Hinit.
  split; [lia|]. split; [reflexivity|]. split; [reflexivity|].
  intros k Hk. unfold pt, vertex. cbn [mirror_pts].
  rewrite map_map. rewrite nth_map_seq by lia.
  replace (n + 1 - 1)%Z with n by lia.
  destruct (0 <? n)%Z eqn:Hpos.
  - replace (INR k * ((2 * PI - 0) / IZR n) + 0)
      with (INR k * (2 * PI / IZR n)) by (unfold Rdiv; ring).
    reflexivity.
  - apply Z.ltb_ge in Hpos. assert (n = 0%Z) by lia. subst n.
    assert (k = O) by (simpl in Hk; lia). subst k. simpl INR.
    replace (0 * (2 * PI - 0) + 0) with (0 * (2 * PI / 0))
      by (unfold Rdiv; ring).
    reflexivity.
Qed.

Lemma init_succeeds (c : Vec2) (n : Z) (radius : R) (rs : Z * Z) :
  (0 <= n)%Z -> (0 < fst rs)%Z -> (0 < snd rs)%Z ->
  exists rf, init c n radius rs = Some rf.
Proof.
  intros Hn Hr1 Hr2. unfold init, field_shape_ok, linspace.
  assert (H1 : (0 <? n + 1)%Z = true) by (apply Z.ltb_lt; lia).
  assert (H2 : (n + 1 <? 0)%Z = false) by (apply Z.ltb_ge; lia).
  assert (H3 : (0 <? fst rs)%Z = true) by (apply Z.ltb_lt; lia).
  assert (H4 : (0 <? snd rs)%Z = true) by (apply Z.ltb_lt; lia).
  rewrite H1, H2, H3, H4. cbn [negb andb]. eexists. reflexivity.
Qed.

Lemma INR_to_nat (n : Z) : (0 <= n)%Z -> INR (Z.to_nat n) = IZR n.
Proof. intros Hn. rewrite INR_IZR_INZ, Z2Nat.id by exact Hn. reflexivity. Qed.

(** X9. The polygon is closed: for at least one mirror, the last vertex
    is the first one. *)
Theorem polygon_closed (c : Vec2) (n : Z) (radius : R) (rs : Z * Z) (rf : t) :
  init c n radius rs = Some rf ->
  (1 <= n)%Z ->
  pt rf (Z.to_nat n) = pt rf 0.
Proof.
  intros Hinit Hn. destruct (init_inv _ _ _ _ _ Hinit) as [_ [_ [_ Hpt]]].
  rewrite !Hpt by lia. unfold vertex.
  rewrite INR_to_nat by lia. simpl INR.
  assert (Hnz : IZR n <> 0) by (apply not_0_IZR; lia).
  replace (IZR n * (2 * PI / IZR n)) with (2 * PI) by (field; exact Hnz).
  replace (0 * (2 * PI / IZR n)) with 0 by (unfold Rdiv; ring).
  rewrite cos_2PI, sin_2PI, cos_0, sin_0. reflexivity.
Qed.

Lemma polygon_closed_witness :
  exists rf, init (mkVec2 256 256) 5 76.8 (512, 512)%Z = Some rf /\
             pt rf 5 = pt rf 0.
Proof.
  destruct (init_succeeds (mkVec2 256 256) 5 76.8 (512, 512)%Z)
    as [rf Hrf]; simpl; try lia.
  exists rf. split; [exact Hrf|].
  apply (polygon_closed _ _ _ _ _ Hrf). lia.
Defined.

(** X10. Every vertex lies on the circle around the centre whose radius
    is the given one: its squared distance to the centre is
    [radius * radius]. *)
Theorem polygon_on_circle (c : Vec2) (n : Z) (radius : R) (rs : Z * Z)
    (rf : t) (k : nat) :
  init c n radius rs = Some rf ->
  (k <= Z.to_nat n)%nat ->
  dist2 (pt rf k) c = radius * radius.
Proof.
  intros Hinit Hk. destruct (init_inv _ _ _ _ _ Hinit) as [_ [_ [_ Hpt]]].
  rewrite Hpt by exact Hk. unfold vertex, dist2. cbn [vx vy].
  pose proof (sin2_cos2 (INR k * (2 * PI / IZR n))) as Hsc.
  unfold Rsqr in Hsc.
  set (co := cos _) in *. set (si := sin _) in *.
  replace ((vx c + radius * co - vx c) * (vx c + radius * co - vx c)
           + (vy c + radius * si - vy c) * (vy c + radius * si - vy c))
    with (radius * radius * (si * si + co * co)) by ring.
  rewrite Hsc. ring.
Qed.

Lemma polygon_on_circle_witness :
  exists rf, init (mkVec2 256 256) 5 76.8 (512, 512)%Z = Some rf /\
             dist2 (pt rf 3) (mkVec2 256 256) = 76.8 * 76.8.
Proof.
  destruct (init_succeeds (mkVec2 256 256) 5 76.8 (512, 512)%Z)
    as [rf Hrf]; simpl; try lia.
  exists rf. split; [exact Hrf|].
  apply (polygon_on_circle _ _ _ _ _ _ Hrf). simpl. lia.
Defined.

Lemma mirror_length (c : Vec2) (n : Z) (radius : R) (rs : Z * Z)
    (rf : t) (k : nat) :
  init c n radius rs = Some rf ->
  (k < Z.to_nat n)%nat ->
  mirror_len2 (pt rf k) (pt rf (k + 1))
  = 2 * (radius * radius) * (1 - cos (2 * PI / IZR n)).
Proof.
  intros Hinit Hk. destruct (init_inv _ _ _ _ _ Hinit) as [_ [_ [_ Hpt]]].
  rewrite !Hpt by lia. unfold vertex, mirror_len2. cbn [vx vy].
  replace (k + 1)%nat with (S k) by lia. rewrite S_INR.
  set (al := 2 * PI / IZR n).
  pose proof (sin2_cos2 (INR k * al)) as Ha.
  pose proof (sin2_cos2 ((INR k + 1) * al)) as Hb.
  pose proof (cos_minus ((INR k + 1) * al) (INR k * al)) as Hd.
  replace ((INR k + 1) * al - INR k * al) with al in Hd by ring.
  unfold Rsqr in Ha, Hb.
  set (ca := cos (INR k * al)) in *. set (sa := sin (INR k * al)) in *.
  set (cb := cos ((INR k + 1) * al)) in *.
  set (sb := sin ((INR k + 1) * al)) in *.
  replace ((vx c + radius * cb - (vx c + radius * ca))
           * (vx c + radius * cb - (vx c + radius * ca))
           + (vy c + radius * sb - (vy c + radius * sa))
             * (vy c + radius * sb - (vy c + radius * sa)))
    with (radius * radius
          * ((sa * sa + ca * ca) + (sb * sb + cb * cb)
             - 2 * (cb * ca + sb * sa))) by ring.
  rewrite Ha, Hb, <- Hd. ring.
Qed.

Lemma cos_turn_lt_1 (n : Z) : (2 <= n)%Z -> cos (2 * PI / IZR n) < 1.
Proof.
  intros Hn. pose proof PI_RGT_0 as Hpi.
  assert (HN : 2 <= IZR n) by (apply IZR_le in Hn; exact Hn).
  assert (Hx : 0 < 2 * PI / IZR n) by (apply Rdiv_lt_0_compat; lra).
  assert (Hle : 2 * PI / IZR n <= PI).
  { apply Rmult_le_reg_r with (IZR n); [lra|].
    replace (2 * PI / IZR n * IZR n) with (2 * PI) by (field; lra). nra. }
  rewrite <- cos_0. apply cos_decreasing_1; lra.
Qed.

(** X11. The polygon is regular: every mirror has the squared length
    [2 * radius^2 * (1 - cos (2 PI / n_mirrors))]; with two mirrors or more
    and a nonzero radius that length is not zero, so no mirror is
    degenerate. *)
Theorem polygon_mirrors_regular (c : Vec2) (n : Z) (radius : R) (rs : Z * Z)
    (rf : t) (k : nat) :
  init c n radius rs = Some rf ->
  (k < Z.to_nat n)%nat ->
  mirror_len2 (pt rf k) (pt rf (k + 1))
  = 2 * (radius * radius) * (1 - cos (2 * PI / IZR n)) /\
  ((2 <= n)%Z -> radius <> 0 -> mirror_len2 (pt rf k) (pt rf (k + 1)) <> 0).
Proof.
  intros Hinit Hk.
  pose proof (mirror_length _ _ _ _ _ _ Hinit Hk) as Hlen.
  split; [exact Hlen|].
  intros Hn Hr. rewrite Hlen.
  pose proof (cos_turn_lt_1 n Hn) as Hcos.
  assert (0 < radius * radius) by nra.
  assert (0 < 2 * (radius * radius) * (1 - cos (2 * PI / IZR n))) by nra.
  lra.
Qed.

Lemma polygon_mirrors_regular_witness :
  exists rf, init (mkVec2 256 256) 5 76.8 (512, 512)%Z = Some rf /\
             mirror_len2 (pt rf 2) (pt rf (2 + 1)) <> 0.
Proof.
  destruct (init_succeeds (mkVec2 256 256) 5 76.8 (512, 512)%Z)
    as [rf Hrf]; simpl; try lia.
  exists rf. split; [exact Hrf|].
  assert (Hk : (2 < Z.to_nat 5)%nat) by (simpl; lia).
  apply (proj2 (polygon_mirrors_regular _ _ _ _ _ 2%nat Hrf Hk)); [lia | lra].
Defined.

(** X12. With a single mirror the polygon's two vertices coincide: the
    mirror has length zero, whatever the radius. *)
Theorem single_mirror_degenerate (c : Vec2) (radius : R) (rs : Z * Z) (rf : t) :
  init c 1 radius rs = Some rf ->
  pt rf 1 = pt rf 0 /\ mirror_len2 (pt rf 0) (pt rf 1) = 0.
Proof.
  intros Hinit. destruct (init_inv _ _ _ _ _ Hinit) as [_ [_ [_ Hpt]]].
  assert (Heq : pt rf 1 = pt rf 0).
  { rewrite !Hpt by (simpl; lia). unfold vertex. simpl INR.
    replace (1 * (2 * PI / 1)) with (2 * PI) by field.
    replace (0 * (2 * PI / 1)) with 0 by field.
    rewrite cos_2PI, sin_2PI, cos_0, sin_0. reflexivity. }
  split; [exact Heq|].
  rewrite Heq. unfold mirror_len2. ring.
Qed.

Lemma single_mirror_degenerate_witness :
  exists rf, init (mkVec2 256 256) 1 76.8 (512, 512)%Z = Some rf /\
             mirror_len2 (pt rf 0) (pt rf 1) = 0.
Proof.
  destruct (init_succeeds (mkVec2 256 256) 1 76.8 (512, 512)%Z)
    as [rf Hrf]; simpl; try lia.
  exists rf. split; [exact Hrf|].
  exact (proj2 (single_mirror_degenerate _ _ _ _ Hrf)).
Defined.

(** ** The image kernel *)

Lemma trunc_IZR (z : Z) : trunc (IZR z) = z.
Proof.
  unfold trunc. destruct (Rle_dec 0 (IZR z)) as [Hpos | Hneg].
  - symmetry. apply Int_part_spec. lra.
  - rewrite <- opp_IZR.
    rewrite <- (Int_part_spec (IZR (- z)) (- z)%Z) by lra. lia.
Qed.

(** X13. A pixel of the buffer that the tracer leaves where it is (its
    first pass breaks) shows the object pixel at the same indices. *)
Theorem update_img_direct (rf : t) (obj_pixels img_pixels : Render.Pixels)
    (i j : Z) :
  Render.in_res (res rf) i j = true ->
  tracing_step rf (center rf) (mkVec2 (IZR i) (IZR j)) = None ->
  Render.update_img rf obj_pixels img_pixels i j = obj_pixels i j.
Proof.
  intros Hin Hstep. unfold Render.update_img. rewrite Hin.
  unfold tracing. cbn [tracing_loop]. rewrite Hstep.
  cbn [vget vx vy]. rewrite !trunc_IZR.
  unfold Render.pixel_get. rewrite Hin. reflexivity.
Qed.

Lemma update_img_direct_witness :
  Render.update_img one_mirror (fun _ _ => (1, 1, 1)) (fun _ _ => (0, 0, 0))
                    0%Z 0%Z = (1, 1, 1).
Proof.
  apply (update_img_direct one_mirror (fun _ _ => (1, 1, 1))
                           (fun _ _ => (0, 0, 0)) 0 0).
  - reflexivity.
  - apply tracing_step_same.
Defined.

End ReflectFurther.

(** * Further properties of the solver *)

Section MpmFurther.

Import Mpm.

Lemma nth_upd_same {A : Type} (l : list A) (p : nat) (a d : A) :
  (p < length l)%nat -> nth p (upd l p a) d = a.
Proof.
  revert p. induction l as [|h l IH]; intros [|p] Hp; simpl in *;
    try lia; [reflexivity | apply IH; lia].
Qed.

Lemma trunc_nonneg (r : R) :
  0 <= r -> IZR (trunc r) <= r < IZR (trunc r) + 1.
Proof.
  intros Hr. unfold trunc.
  destruct (Rle_dec 0 r) as [_ | Hneg]; [|contradiction].
  destruct (base_Int_part r) as [H1 H2]. lra.
Qed.

Lemma fx_bounds (quality : Z) (xp : Vec2) :
  inside_low quality xp ->
  (IZR (fst (base_of quality xp)) <= vx xp * inv_dx quality - 0.5
     < IZR (fst (base_of quality xp)) + 1) /\
  (IZR (snd (base_of quality xp)) <= vy xp * inv_dx quality - 0.5
     < IZR (snd (base_of quality xp)) + 1) /\
  0.5 <= vx (fx_of quality xp) < 1.5 /\
  0.5 <= vy (fx_of quality xp) < 1.5.
Proof.
  intros [Hx Hy]. unfold fx_of, base_of. cbn [fst snd vx vy].
  pose proof (trunc_nonneg (vx xp * inv_dx quality - 0.5)) as Tx.
  pose proof (trunc_nonneg (vy xp * inv_dx quality - 0.5)) as Ty.
  repeat split; lra.
Qed.

(** X14. For a particle at least half a cell from the low edges, [base] is
    the floor of [x * inv_dx - 0.5] on each axis, and the fractional
    offset [fx] lies in [0.5, 1.5) on each axis. *)
Theorem fx_range (quality : Z) (xp : Vec2) :
  inside_low quality xp ->
  (IZR (fst (base_of quality xp)) <= vx xp * inv_dx quality - 0.5
     < IZR (fst (base_of quality xp)) + 1) /\
  (IZR (snd (base_of quality xp)) <= vy xp * inv_dx quality - 0.5
     < IZR (snd (base_of quality xp)) + 1) /\
  0.5 <= vx (fx_of quality xp) < 1.5 /\
  0.5 <= vy (fx_of quality xp) < 1.5.
Proof. exact (fx_bounds quality xp). Qed.

Lemma fx_range_witness :
  0.5 <= vx (fx_of 1 (mkVec2 0.5 0.5)) < 1.5.
Proof.
  assert (H : inside_low 1 (mkVec2 0.5 0.5)).
  { unfold inside_low, inv_dx, grid_res; simpl. lra. }
  exact (proj1 (proj2 (proj2 (fx_range 1 (mkVec2 0.5 0.5) H)))).
Defined.

(** ** Mass and momentum on the grid *)

Lemma weights_axis_nonneg (f : R) :
  0.5 <= f < 1.5 ->
  0 <= 0.5 * (1.5 - f) ^ 2 /\ 0 <= 0.75 - (f - 1) ^ 2 /\
  0 <= 0.5 * (f - 0.5) ^ 2.
Proof. intros Hf. repeat split; nra. Qed.

Lemma p_mass_nonneg (quality : Z) : 0 <= p_mass quality.
Proof.
  unfold p_mass, p_vol, p_rho.
  pose proof (pow2_ge_0 (dx quality * 0.5)). lra.
Qed.

Lemma grid_modify_nonneg (n : Z) (gm : Grid R) (a b : Z) (d : R) :
  grid_nonneg n gm -> 0 <= d ->
  grid_nonneg n (grid_modify n gm a b (fun m => m + d)).
Proof.
  intros Hg Hd i j Hin. unfold grid_modify.
  destruct (in_grid n a b); [|apply Hg; exact Hin].
  destruct ((i =? a)%Z && (j =? b)%Z).
  - pose proof (Hg i j Hin). lra.
  - apply Hg. exact Hin.
Qed.

Lemma scatter_nonneg (quality : Z) (base : Z * Z) (fx vp : Vec2)
    (affine : Mat2) (gm : Grid R) (gv : Grid Vec2) :
  0.5 <= vx fx < 1.5 -> 0.5 <= vy fx < 1.5 ->
  grid_nonneg (grid_res quality) gm ->
  grid_nonneg (grid_res quality)
              (fst (scatter quality base fx (weights fx) vp affine gm gv)).
Proof.
  intros Hx Hy Hg.
  destruct (weights_axis_nonneg _ Hx) as [X0 [X1 X2]].
  destruct (weights_axis_nonneg _ Hy) as [Y0 [Y1 Y2]].
  pose proof (p_mass_nonneg quality) as Hm.
  unfold scatter, ndrange33. cbn [fold_left fst snd].
  unfold weight, weights, vmap. cbn [nth vget vx vy].
  repeat (apply grid_modify_nonneg;
          [|apply Rmult_le_pos; [apply Rmult_le_pos; assumption | exact Hm]]).
  exact Hg.
Qed.

Lemma p2g_particle_nonneg (quality : Z) (svd : Mat2 -> Mat2 * Mat2 * Mat2)
    (s : t) (p : nat) :
  inside_low quality (nth p (x s) vzero) ->
  grid_nonneg (grid_res quality) (grid_m s) ->
  grid_nonneg (grid_res quality) (grid_m (p2g_particle quality svd s p)).
Proof.
  intros Hlow Hg. unfold p2g_particle.
  destruct (p2g_local _ _ _ _ _ _) as [[Fp Jq] affine].
  destruct (scatter _ _ _ _ _ _ _ _) as [gm gv] eqn:Hsc.
  cbn [grid_m set_grid_v set_grid_m].
  change gm with (fst (gm, gv)). rewrite <- Hsc.
  destruct (fx_bounds quality _ Hlow) as [_ [_ [Hx Hy]]].
  apply scatter_nonneg; assumption.
Qed.

Lemma p2g_fold_nonneg (quality : Z) (svd : Mat2 -> Mat2 * Mat2 * Mat2)
    (ps : list nat) :
  forall s : t,
    (forall p, In p ps -> inside_low quality (nth p (x s) vzero)) ->
    grid_nonneg (grid_res quality) (grid_m s) ->
    grid_nonneg (grid_res quality)
                (grid_m (fold_left (p2g_particle quality svd) ps s)).
Proof.
  induction ps as [|p ps IH]; intros s Hlow Hg; [exact Hg|].
  cbn [fold_left]. apply IH.
  - intros q Hq. rewrite p2g_particle_x. apply Hlow. right. exact Hq.
  - apply p2g_particle_nonneg; [apply Hlow; left; reflexivity | exact Hg].
Qed.

(** X15. After the reset and the P2G phase no grid node holds negative
    mass, provided every particle is at least half a cell from the low
    edges (so that its three weights per axis are not negative). *)
Theorem grid_mass_nonneg (quality : Z) (svd : Mat2 -> Mat2 * Mat2 * Mat2)
    (s : t) :
  (forall p, (p < length (x s))%nat ->
             inside_low quality (nth p (x s) vzero)) ->
  grid_nonneg (grid_res quality)
              (grid_m (p2g quality svd (reset_grids quality s))).
Proof.
  intros Hlow. unfold p2g. apply p2g_fold_nonneg.
  - intros p Hp. apply in_seq in Hp.
    change (x (reset_grids quality s)) with (x s) in *. apply Hlow. lia.
  - intros i j Hin. unfold reset_grids, grid_foreach.
    cbn [grid_m set_grid_v set_grid_m]. rewrite Hin. lra.
Qed.

Lemma grid_mass_nonneg_witness :
  0 <= grid_m (p2g 1 svd_diagonal (reset_grids 1 one_particle)) 64%Z 64%Z.
Proof.
  apply (grid_mass_nonneg 1 svd_diagonal one_particle).
  - intros p Hp. simpl in Hp. assert (p = O) by lia. subst p.
    unfold inside_low, inv_dx, grid_res; simpl. lra.
  - reflexivity.
Defined.





Lemma grid_sum_ext (n : Z) (g h : Grid R) :
  (forall i j, in_grid n i j = true -> g i j = h i j) ->
  grid_sum n g = grid_sum n h.
Proof.
  intros Hgh. unfold grid_sum.
  apply sum_upto_ext. intros a Ha.
  apply sum_upto_ext. intros b Hb.
  apply Hgh. apply in_grid_index; assumption.
Qed.

(** An addition at one node of a vector field adds to the total of each
    component. *)
Lemma grid_sum_modify_vec (n : Z) (gv : Grid Vec2) (a b : Z) (d : Vec2)
    (f : Vec2 -> R) :
  (forall u e, f (vadd u e) = f u + f e) ->
  in_grid n a b = true ->
  grid_sum n (fun i j => f (grid_modify n gv a b (fun u => vadd u d) i j))
  = grid_sum n (fun i j => f (gv i j)) + f d.
Proof.
  intros Hf Hin.
  rewrite <- (grid_sum_modify n (fun i j => f (gv i j)) a b (f d) Hin).
  apply grid_sum_ext. intros i j _.
  unfold grid_modify. rewrite Hin.
  destruct ((i =? a)%Z && (j =? b)%Z); [apply Hf | reflexivity].
Qed.

Lemma vx_vadd (u d : Vec2) : vx (vadd u d) = vx u + vx d.
Proof. reflexivity. Qed.

Lemma vy_vadd (u d : Vec2) : vy (vadd u d) = vy u + vy d.
Proof. reflexivity. Qed.

(** What one particle adds to the total grid momentum: its own momentum;
    the affine terms cancel because the weighted offsets add up to zero. *)
Lemma scatter_momentum (quality : Z) (base : Z * Z) (fx vp : Vec2)
    (affine : Mat2) (gm : Grid R) (gv : Grid Vec2) :
  (0 <= fst base /\ fst base + 2 < grid_res quality /\
   0 <= snd base /\ snd base + 2 < grid_res quality)%Z ->
  grid_vsum (grid_res quality)
            (snd (scatter quality base fx (weights fx) vp affine gm gv))
  = vadd (grid_vsum (grid_res quality) gv) (vscale (p_mass quality) vp).
Proof.
  intros Hb. unfold scatter, ndrange33, grid_vsum.
  cbn [fold_left fst snd].
  rewrite !(grid_sum_modify_vec _ _ _ _ _ vx vx_vadd)
    by (apply in_grid_iff; lia).
  rewrite !(grid_sum_modify_vec _ _ _ _ _ vy vy_vadd)
    by (apply in_grid_iff; lia).
  unfold weight, weights, vmap, vadd, vscale, vsub, mvec.
  cbn [nth vget vx vy INR].
  generalize (p_mass quality) (dx quality).
  generalize (grid_sum (grid_res quality) (fun i j => vx (gv i j))).
  generalize (grid_sum (grid_res quality) (fun i j => vy (gv i j))).
  intros Sy Sx m h.
  destruct affine as [a00 a01 a10 a11], fx as [f1 f2], vp as [v1 v2].
  cbn [vx vy m00 m01 m10 m11].
  f_equal; lra.
Qed.

Lemma vec_eq (a b : Vec2) : vx a = vx b -> vy a = vy b -> a = b.
Proof. destruct a, b; simpl; intros -> ->; reflexivity. Qed.

Lemma p2g_particle_v (quality : Z) (svd : Mat2 -> Mat2 * Mat2 * Mat2)
    (s : t) (p : nat) :
  v (p2g_particle quality svd s p) = v s.
Proof.
  unfold p2g_particle.
  destruct (p2g_local _ _ _ _ _ _) as [[Fp Jq] affine].
  destruct (scatter _ _ _ _ _ _ _ _) as [gm gv]. reflexivity.
Qed.

Lemma p2g_particle_momentum (quality : Z) (svd : Mat2 -> Mat2 * Mat2 * Mat2)
    (s : t) (p : nat) :
  neighbourhood_in_grid quality (nth p (x s) vzero) ->
  grid_vsum (grid_res quality) (grid_v (p2g_particle quality svd s p))
  = vadd (grid_vsum (grid_res quality) (grid_v s))
         (vscale (p_mass quality) (nth p (v s) vzero)).
Proof.
  intros Hb. unfold p2g_particle.
  destruct (p2g_local _ _ _ _ _ _) as [[Fp Jq] affine].
  destruct (scatter _ _ _ _ _ _ _ _) as [gm gv] eqn:Hsc.
  cbn [grid_v set_grid_v set_grid_m].
  change gv with (snd (gm, gv)). rewrite <- Hsc.
  apply scatter_momentum. exact Hb.
Qed.

Lemma vadd_scale_zero (a : Vec2) (m : R) : a = vadd a (vscale m vzero).
Proof. apply vec_eq; unfold vadd, vscale, vzero; cbn [vx vy]; ring. Qed.

Lemma vadd_scale_assoc (a b c : Vec2) (m : R) :
  vadd (vadd a (vscale m b)) (vscale m c) = vadd a (vscale m (vadd b c)).
Proof. apply vec_eq; unfold vadd, vscale; cbn [vx vy]; ring. Qed.

Lemma vadd_zero_l (a : Vec2) : vadd vzero a = a.
Proof. apply vec_eq; unfold vadd, vzero; cbn [vx vy]; ring. Qed.

Lemma p2g_fold_momentum (quality : Z) (svd : Mat2 -> Mat2 * Mat2 * Mat2)
    (ps : list nat) :
  forall s : t,
    (forall p, In p ps -> neighbourhood_in_grid quality (nth p (x s) vzero)) ->
    grid_vsum (grid_res quality)
              (grid_v (fold_left (p2g_particle quality svd) ps s))
    = vadd (grid_vsum (grid_res quality) (grid_v s))
           (vscale (p_mass quality)
                   (list_vsum (map (fun p => nth p (v s) vzero) ps))).
Proof.
  induction ps as [|p ps IH]; intros s Hin.
  - cbn [fold_left map list_vsum fold_right]. apply vadd_scale_zero.
  - cbn [fold_left]. rewrite IH.
    + rewrite p2g_particle_momentum by (apply Hin; left; reflexivity).
      rewrite p2g_particle_v.
      cbn [map list_vsum fold_right]. apply vadd_scale_assoc.
    + intros q Hq. rewrite p2g_particle_x. apply Hin. right. exact Hq.
Qed.

Lemma map_nth_seq_id {A : Type} (l : list A) (d : A) :
  map (fun p => nth p l d) (seq 0 (length l)) = l.
Proof.
  induction l as [|h l IH]; [reflexivity|].
  cbn [length seq map nth]. f_equal.
  rewrite <- seq_shift, map_map. exact IH.
Qed.

Lemma reset_momentum (quality : Z) (s : t) :
  grid_vsum (grid_res quality) (grid_v (reset_grids quality s)) = vzero.
Proof.
  unfold reset_grids, grid_vsum. cbn [grid_v set_grid_v set_grid_m].
  assert (H : forall f : Vec2 -> R, f vzero = 0 ->
            grid_sum (grid_res quality)
              (fun i j => f (grid_foreach (grid_res quality)
                                          (fun _ _ _ => vzero) (grid_v s) i j))
            = 0).
  { intros f Hf. rewrite (grid_sum_ext _ _ (fun _ _ => 0)).
    - unfold grid_sum.
      rewrite (sum_upto_ext _ _ (fun _ => 0)); [apply sum_upto_zero|].
      intros a _. apply sum_upto_zero.
    - intros i j Hij. unfold grid_foreach. rewrite Hij. exact Hf. }
  rewrite (H vx), (H vy) by reflexivity. reflexivity.
Qed.

(** X17. The P2G phase conserves momentum: if every particle's
    neighbourhood lies in the grid, the momenta of all grid nodes after
    the reset and the scatter add up to [p_mass] times the sum of the
    particle velocities; the affine (stress and APIC) terms contribute
    nothing to the total. *)
Theorem momentum_conservation (quality : Z)
    (svd : Mat2 -> Mat2 * Mat2 * Mat2) (s : t) :
  neighbourhoods_in_grid quality s ->
  length (v s) = length (x s) ->
  grid_vsum (grid_res quality)
            (grid_v (p2g quality svd (reset_grids quality s)))
  = vscale (p_mass quality) (list_vsum (v s)).
Proof.
  intros Hin Hlen. unfold p2g. rewrite p2g_fold_momentum.
  - rewrite reset_momentum.
    change (x (reset_grids quality s)) with (x s).
    change (v (reset_grids quality s)) with (v s).
    rewrite <- Hlen, map_nth_seq_id. apply vadd_zero_l.
  - intros p Hp. apply in_seq in Hp.
    change (x (reset_grids quality s)) with (x s) in *.
    apply Hin. lia.
Qed.

Lemma moving_particle_in_grid : neighbourhoods_in_grid 1 moving_particle.
Proof.
  intros p Hp. simpl in Hp. assert (p = O) by lia. subst p.
  unfold neighbourhood_in_grid. simpl nth.
  rewrite base_of_centre. unfold grid_res. simpl. lia.
Qed.

Lemma momentum_conservation_witness :
  grid_vsum (grid_res 1)
            (grid_v (p2g 1 svd_diagonal (reset_grids 1 moving_particle)))
  = vscale (p_mass 1) (list_vsum (v moving_particle)).
Proof.
  apply (momentum_conservation 1 svd_diagonal moving_particle).
  - exact moving_particle_in_grid.
  - reflexivity.
Defined.

(** ** Grid to particle *)

Lemma mat_eq (a b : Mat2) :
  m00 a = m00 b -> m01 a = m01 b -> m10 a = m10 b -> m11 a = m11 b -> a = b.
Proof. destruct a, b; simpl; intros -> -> -> ->; reflexivity. Qed.

Lemma grid_get_in {A : Type} (zero : A) (n : Z) (g : Grid A) (i j : Z) :
  in_grid n i j = true -> grid_get zero n g i j = g i j.
Proof. intros Hin. unfold grid_get. rewrite Hin. reflexivity. Qed.

Lemma vx_vscale (k : R) (a : Vec2) : vx (vscale k a) = k * vx a.
Proof. reflexivity. Qed.

Lemma vy_vscale (k : R) (a : Vec2) : vy (vscale k a) = k * vy a.
Proof. reflexivity. Qed.

Lemma m00_madd (a b : Mat2) : m00 (madd a b) = m00 a + m00 b.
Proof. reflexivity. Qed.

Lemma m01_madd (a b : Mat2) : m01 (madd a b) = m01 a + m01 b.
Proof. reflexivity. Qed.

Lemma m10_madd (a b : Mat2) : m10 (madd a b) = m10 a + m10 b.
Proof. reflexivity. Qed.

Lemma m11_madd (a b : Mat2) : m11 (madd a b) = m11 a + m11 b.
Proof. reflexivity. Qed.

Lemma m00_mscale (k : R) (a : Mat2) : m00 (mscale k a) = k * m00 a.
Proof. reflexivity. Qed.

Lemma m01_mscale (k : R) (a : Mat2) : m01 (mscale k a) = k * m01 a.
Proof. reflexivity. Qed.

Lemma m10_mscale (k : R) (a : Mat2) : m10 (mscale k a) = k * m10 a.
Proof. reflexivity. Qed.

Lemma m11_mscale (k : R) (a : Mat2) : m11 (mscale k a) = k * m11 a.
Proof. reflexivity. Qed.

Ltac components :=
  rewrite ?vx_vadd, ?vy_vadd, ?vx_vscale, ?vy_vscale,
    ?m00_madd, ?m01_madd, ?m10_madd, ?m11_madd,
    ?m00_mscale, ?m01_mscale, ?m10_mscale, ?m11_mscale.

(** Over a uniform grid velocity the gather returns that velocity and a
    zero affine matrix: the weights add up to one and the weighted offsets
    to zero. *)
Lemma gather_uniform (quality : Z) (base : Z * Z) (fx u : Vec2)
    (gv : Grid Vec2) :
  (0 <= fst base /\ fst base + 2 < grid_res quality /\
   0 <= snd base /\ snd base + 2 < grid_res quality)%Z ->
  (forall i j, in_grid (grid_res quality) i j = true -> gv i j = u) ->
  gather quality base fx (weights fx) gv = (u, mzero).
Proof.
  intros Hb Hu. unfold gather, ndrange33.
  cbn [fold_left fst snd].
  rewrite !grid_get_in by (apply in_grid_iff; lia).
  rewrite !Hu by (apply in_grid_iff; lia).
  generalize (inv_dx quality). intros h. clear Hb Hu gv base quality.
  destruct fx as [f1 f2], u as [u1 u2].
  f_equal; [apply vec_eq | apply mat_eq]; components;
    unfold weight, weights, vmap, vsub, outer_product, vzero, mzero;
    cbn [nth vget vx vy INR m00 m01 m10 m11]; lra.
Qed.

Lemma g2p_particle_keeps (quality : Z) (s : t) (p q : nat) :
  p <> q -> g2p_keeps p s (g2p_particle quality s q).
Proof.
  intros Hpq. unfold g2p_particle.
  destruct (gather _ _ _ _ _) as [new_v new_C].
  unfold g2p_keeps. cbn.
  rewrite !nth_upd_other by exact Hpq. rewrite !length_upd.
  repeat split.
Qed.

Lemma g2p_fold_keeps (quality : Z) (p : nat) (ps : list nat) :
  ~ In p ps ->
  forall s, g2p_keeps p s (fold_left (g2p_particle quality) ps s).
Proof.
  induction ps as [|q ps IH]; intros Hnot s.
  - unfold g2p_keeps. repeat split.
  - cbn [fold_left].
    assert (Hq : p <> q) by (intros ->; apply Hnot; left; reflexivity).
    assert (Hps : ~ In p ps) by (intros Hin; apply Hnot; right; exact Hin).
    pose proof (IH Hps (g2p_particle quality s q)) as A.
    pose proof (g2p_particle_keeps quality s p q Hq) as B.
    unfold g2p_keeps in *. decompose [and] A. decompose [and] B.
    repeat split; congruence.
Qed.

Lemma g2p_particle_at (quality : Z) (s : t) (p : nat) (u : Vec2) :
  neighbourhood_in_grid quality (nth p (x s) vzero) ->
  uniform_velocity quality s u ->
  (p < length (x s))%nat -> (p < length (v s))%nat ->
  (p < length (C s))%nat ->
  let s' := g2p_particle quality s p in
  grid_v s' = grid_v s /\
  nth p (v s') vzero = u /\
  nth p (C s') mzero = mzero /\
  nth p (x s') vzero = vadd (nth p (x s) vzero) (vscale (dt quality) u).
Proof.
  intros Hb Hu Hx Hv HC. unfold g2p_particle.
  rewrite (gather_uniform quality _ _ u (grid_v s) Hb Hu).
  cbn. rewrite !nth_upd_same by assumption. repeat split.
Qed.

Lemma g2p_uniform (quality : Z) (s : t) (u : Vec2) (p : nat) :
  neighbourhoods_in_grid quality s ->
  uniform_velocity quality s u ->
  length (v s) = length (x s) -> length (C s) = length (x s) ->
  (p < length (x s))%nat ->
  nth p (v (g2p quality s)) vzero = u /\
  nth p (C (g2p quality s)) mzero = mzero /\
  nth p (x (g2p quality s)) vzero
  = vadd (nth p (x s) vzero) (vscale (dt quality) u).
Proof.
  intros Hin Hu Hlv HlC Hp. unfold g2p.
  replace (length (x s)) with (p + S (length (x s) - S p))%nat at 1 2 3 by lia.
  rewrite seq_app, !fold_left_app. cbn [seq fold_left Nat.add].
  set (s1 := fold_left (g2p_particle quality) (seq 0 p) s).
  assert (K1 : g2p_keeps p s s1).
  { apply g2p_fold_keeps. rewrite in_seq. lia. }
  destruct K1 as [G1 [X1 [V1 [C1 [LX1 [LV1 LC1]]]]]].
  destruct (g2p_particle_at quality s1 p u) as [G2 [V2 [C2 X2]]].
  - rewrite X1. apply Hin. exact Hp.
  - intros i j Hij. rewrite G1. apply Hu. exact Hij.
  - lia.
  - lia.
  - lia.
  - set (s2 := g2p_particle quality s1 p) in *.
    assert (K3 : g2p_keeps p s2
                   (fold_left (g2p_particle quality)
                              (seq (S p) (length (x s) - S p)) s2)).
    { apply g2p_fold_keeps. rewrite in_seq. lia. }
    destruct K3 as [_ [X3 [V3 [C3 _]]]].
    rewrite X3, V3, C3, V2, C2, X2, X1. repeat split.
Qed.

(** X18. Over a grid whose velocity is the same vector [u] at every node,
    the G2P phase gives every particle the velocity [u] and a zero affine
    matrix [C], and moves it by [dt * u] (neighbourhoods in the grid). *)
Theorem g2p_uniform_flow (quality : Z) (s : t) (u : Vec2) (p : nat) :
  neighbourhoods_in_grid quality s ->
  uniform_velocity quality s u ->
  length (v s) = length (x s) -> length (C s) = length (x s) ->
  (p < length (x s))%nat ->
  nth p (v (g2p quality s)) vzero = u /\
  nth p (C (g2p quality s)) mzero = mzero /\
  nth p (x (g2p quality s)) vzero
  = vadd (nth p (x s) vzero) (vscale (dt quality) u).
Proof. exact (g2p_uniform quality s u p). Qed.

Lemma g2p_uniform_flow_witness :
  nth 0 (v (g2p 1 drifting)) vzero = mkVec2 1 2.
Proof.
  apply (g2p_uniform_flow 1 drifting (mkVec2 1 2) 0).
  - intros p Hp. simpl in Hp. assert (p = O) by lia. subst p.
    unfold neighbourhood_in_grid. simpl nth.
    rewrite base_of_centre. unfold grid_res. simpl. lia.
  - intros i j _. reflexivity.
  - reflexivity.
  - reflexivity.
  - simpl. lia.
Defined.

(** ** The deformation gradient by material *)

Lemma p2g_local_F (quality : Z) (svd : Mat2 -> Mat2 * Mat2 * Mat2)
    (mat : Z) (Cp Fp : Mat2) (Jp0 : R) :
  mat <> MATERIAL_SNOW ->
  let F1 := mmul (madd midentity (mscale (dt quality) Cp)) Fp in
  let sig := snd (fst (svd F1)) in
  fst (fst (p2g_local quality svd mat Cp Fp Jp0))
  = if (mat =? MATERIAL_LIQUID)%Z
    then mscale (sqrt (1.0 * m00 sig * m11 sig)) midentity
    else F1.
Proof.
  intros Hmat. apply Z.eqb_neq in Hmat.
  unfold p2g_local, plastic_loop.
  destruct (svd _) as [[U sig] V].
  cbn [fold_left fst snd]. rewrite Hmat.
  cbn [mdiag mdiag_set m00 m11 fst snd].
  destruct (mat =? MATERIAL_LIQUID)%Z; reflexivity.
Qed.

Lemma p2g_particle_F (quality : Z) (svd : Mat2 -> Mat2 * Mat2 * Mat2)
    (s : t) (p : nat) :
  nth p (material s) 0%Z <> MATERIAL_SNOW ->
  (p < length (F s))%nat ->
  nth p (F (p2g_particle quality svd s p)) mzero
  = if (nth p (material s) 0 =? MATERIAL_LIQUID)%Z
    then mscale (sqrt (1.0 * m00 (sig_of quality svd s p)
                       * m11 (sig_of quality svd s p))) midentity
    else updated_F quality s p.
Proof.
  intros Hmat Hp. unfold p2g_particle.
  pose proof (p2g_local_F quality svd _ (nth p (C s) mzero)
                (nth p (F s) mzero) (nth p (Jp s) 0) Hmat) as Hloc.
  destruct (p2g_local _ _ _ _ _ _) as [[Fp Jq] affine].
  destruct (scatter _ _ _ _ _ _ _ _) as [gm gv].
  cbn [fst snd] in Hloc. cbn. rewrite nth_upd_same by exact Hp.
  exact Hloc.
Qed.

Lemma g2p_F (quality : Z) (s : t) : F (g2p quality s) = F s.
Proof.
  unfold g2p. generalize (seq 0 (length (x s))) as ps. intros ps.
  revert s. induction ps as [|p ps IH]; intros s; [reflexivity|].
  cbn [fold_left]. rewrite IH. unfold g2p_particle.
  destruct (gather _ _ _ _ _) as [new_v new_C]. reflexivity.
Qed.

Lemma p2g_fold_length_F (quality : Z) (svd : Mat2 -> Mat2 * Mat2 * Mat2)
    (ps : list nat) (s : t) :
  length (F (fold_left (p2g_particle quality svd) ps s)) = length (F s).
Proof.
  destruct (fold_same_particles (p2g_particle quality svd)
              (p2g_particle_same quality svd) ps s)
    as [_ [_ [_ [_ [_ [_ [_ [H _]]]]]]]].
  exact H.
Qed.

Lemma substep_F (quality : Z) (svd : Mat2 -> Mat2 * Mat2 * Mat2)
    (omega : R) (s : t) (p : nat) :
  (p < length (x s))%nat -> (p < length (F s))%nat ->
  nth p (material s) 0%Z <> MATERIAL_SNOW ->
  nth p (F (substep quality svd omega s)) mzero
  = if (nth p (material s) 0 =? MATERIAL_LIQUID)%Z
    then mscale (sqrt (1.0 * m00 (sig_of quality svd s p)
                       * m11 (sig_of quality svd s p))) midentity
    else updated_F quality s p.
Proof.
  intros Hx HF Hmat. unfold substep. rewrite g2p_F.
  change (F (grid_ops quality omega
                      (p2g quality svd (reset_grids quality s))))
    with (F (p2g quality svd (reset_grids quality s))).
  unfold p2g. change (x (reset_grids quality s)) with (x s).
  set (s0 := reset_grids quality s).
  replace (length (x s)) with (p + S (length (x s) - S p))%nat by lia.
  rewrite seq_app, fold_left_app. cbn [seq fold_left Nat.add].
  set (s1 := fold_left (p2g_particle quality svd) (seq 0 p) s0).
  assert (H1 : same_inputs p s0 s1).
  { apply p2g_fold_other. rewrite in_seq. lia. }
  destruct H1 as [M1 [C1 [F1 J1]]].
  assert (L1 : length (F s1) = length (F s0))
    by (apply p2g_fold_length_F).
  set (s2 := p2g_particle quality svd s1 p).
  assert (H3 : same_inputs p s2
                 (fold_left (p2g_particle quality svd)
                            (seq (S p) (length (x s) - S p)) s2)).
  { apply p2g_fold_other. rewrite in_seq. lia. }
  destruct H3 as [_ [_ [F3 _]]]. rewrite F3.
  subst s2. rewrite p2g_particle_F.
  - rewrite M1. unfold sig_of, updated_F. rewrite C1, F1. reflexivity.
  - rewrite M1. exact Hmat.
  - rewrite L1. exact HF.
Qed.

(** X19. What a sub-step does to the deformation gradient of a particle
    that is not snow: for a liquid, [F] becomes [sqrt(J)] times the
    identity, [J] the product of the two diagonal entries of [sig]; for
    any other material, [F] becomes [(I + dt * C) @ F]. *)
Theorem F_by_material (quality : Z) (svd : Mat2 -> Mat2 * Mat2 * Mat2)
    (omega : R) (s : t) (p : nat) :
  (p < length (x s))%nat -> (p < length (F s))%nat ->
  nth p (material s) 0%Z <> MATERIAL_SNOW ->
  (nth p (material s) 0%Z = MATERIAL_LIQUID ->
   nth p (F (substep quality svd omega s)) mzero
   = mscale (sqrt (1.0 * m00 (sig_of quality svd s p)
                   * m11 (sig_of quality svd s p))) midentity) /\
  (nth p (material s) 0%Z <> MATERIAL_LIQUID ->
   nth p (F (substep quality svd omega s)) mzero = updated_F quality s p).
Proof.
  intros Hx HF Hmat.
  pose proof (substep_F quality svd omega s p Hx HF Hmat) as H.
  split; intros Hl.
  - rewrite H, Hl. reflexivity.
  - rewrite H. apply Z.eqb_neq in Hl. rewrite Hl. reflexivity.
Qed.

Lemma F_by_material_witness :
  nth 0 (F (substep 1 svd_diagonal 4 one_particle)) mzero
  = updated_F 1 one_particle 0.
Proof.
  apply (F_by_material 1 svd_diagonal 4 one_particle 0).
  - simpl. lia.
  - simpl. lia.
  - discriminate.
  - discriminate.
Defined.

(** ** [Mpm.step] *)





Lemma iter_same (quality : Z) (svd : Mat2 -> Mat2 * Mat2 * Mat2)
    (omega : R) (n : nat) (s : t) :
  same_particles s (Nat.iter n (substep quality svd omega) s).
Proof.
  induction n as [|n IH]; [apply same_particles_refl|].
  cbn [Nat.iter]. eapply same_particles_trans; [exact IH|].
  apply substep_same.
Qed.

(** X21. [Mpm.step], whatever the duration and the angular velocity,
    changes no particle's material, colour or palette index, nor the
    palette, and keeps the number of particles. *)
Theorem step_frame (quality : Z) (svd : Mat2 -> Mat2 * Mat2 * Mat2)
    (timestep omega : R) (s : t) :
  let s' := step quality svd timestep omega s in
  material s' = material s /\ color s' = color s /\
  color_id s' = color_id s /\ palette s' = palette s /\
  length (x s') = length (x s) /\ length (v s') = length (v s) /\
  length (C s') = length (C s) /\ length (F s') = length (F s) /\
  length (Jp s') = length (Jp s).
Proof. intros s'. subst s'. unfold step. apply iter_same. Qed.

End MpmFurther.

(** * Properties of the solver's constructor *)

Section InitProperties.

Import MpmInit.

Lemma mem_In (c : Z) (l : list Z) : mem c l = true <-> In c l.
Proof.
  unfold mem. rewrite existsb_exists. split.
  - intros [y [Hy Heq]]. apply Z.eqb_eq in Heq. subst y. exact Hy.
  - intros Hin. exists c. split; [exact Hin | apply Z.eqb_refl].
Qed.

Lemma index_of_nth (c : Z) (l : list Z) :
  forall k : nat, index_of c l = Some k -> nth_error l k = Some c.
Proof.
  induction l as [|h l IH]; intros k Hk; [discriminate|].
  cbn [index_of] in Hk. destruct (Z.eqb_spec h c) as [Heq | Hne].
  - inversion Hk; subst. reflexivity.
  - destruct (index_of c l) as [k'|]; [|discriminate].
    inversion Hk; subst. cbn [nth_error]. apply IH. reflexivity.
Qed.

Lemma index_of_In (c : Z) (l : list Z) :
  In c l -> exists k : nat, index_of c l = Some k.
Proof.
  induction l as [|h l IH]; intros Hin; [contradiction|].
  cbn [index_of]. destruct (Z.eqb_spec h c) as [Heq | Hne].
  - exists O. reflexivity.
  - destruct Hin as [Hh | Hl]; [contradiction|].
    destruct (IH Hl) as [k Hk]. rewrite Hk. exists (S k). reflexivity.
Qed.

Lemma NoDup_snoc (c : Z) (l : list Z) :
  NoDup l -> ~ In c l -> NoDup (l ++ [c]).
Proof.
  induction l as [|h l IH]; intros Hnd Hc.
  - constructor; [intros [] | constructor].
  - inversion Hnd as [|? ? Hh Hl]; subst. cbn [app]. constructor.
    + intros Hin. apply in_app_or in Hin. destruct Hin as [Hin | [Heq | []]].
      * contradiction.
      * apply Hc. left. symmetry. exact Heq.
    + apply IH; [exact Hl|]. intros Hin. apply Hc. right. exact Hin.
Qed.

(** The palette after the pixel colour [c] has been looked up: extended
    only by a colour it did not hold, and now holding [c]. *)
Lemma palette_step (c : Z) (pal : list Z) :
  let pal' := if mem c pal then pal else pal ++ [c] in
  In c pal' /\
  (NoDup pal -> NoDup pal') /\
  (forall w, w <> c -> ~ In w pal -> ~ In w pal') /\
  (forall k d, nth_error pal k = Some d -> nth_error pal' k = Some d).
Proof.
  cbv zeta. destruct (mem c pal) eqn:Hmem.
  - apply mem_In in Hmem. repeat split; auto.
  - assert (Hnot : ~ In c pal).
    { intros Hin. apply mem_In in Hin. congruence. }
    repeat split.
    + apply in_or_app. right. left. reflexivity.
    + intros Hnd. apply NoDup_snoc; assumption.
    + intros w Hw Hin Hin'. apply in_app_or in Hin'.
      destruct Hin' as [H | [H | []]]; [contradiction | congruence].
    + intros k d Hk. rewrite nth_error_app1; [exact Hk|].
      apply nth_error_Some. congruence.
Qed.

Lemma pair_ind (P : list R -> Prop) :
  P [] -> (forall x, P [x]) ->
  (forall x y l, P l -> P (x :: y :: l)) ->
  forall l, P l.
Proof.
  intros H0 H1 H2 l.
  assert (H : P l /\ forall x, P (x :: l)).
  { induction l as [|y l [IHl IHxl]].
    - split; [exact H0 | exact H1].
    - split; [apply IHxl | intros x; apply H2; exact IHl]. }
  exact (proj1 H).
Qed.

(** What an accepted draw writes. *)
Lemma place_inv (img : Image) (p : nat) (draws : list R) :
  forall (s s' : Mpm.t) (rest : list R),
    place img p draws s = Ok (s', rest) ->
    exists (x y : R) (r g b : Z) (k : nat) (skipped : list R),
      draws = skipped ++ x :: y :: rest /\
      pixel img (trunc (x * IZR (roi_size img)))
                (trunc (y * IZR (roi_size img))) = Some (r, g, b) /\
      color_hex (r, g, b) <> white /\
      index_of (color_hex (r, g, b))
               (if mem (color_hex (r, g, b)) (Mpm.palette s)
                then Mpm.palette s
                else Mpm.palette s ++ [color_hex (r, g, b)]) = Some k /\
      s' = Mpm.mk (upd (Mpm.x s) p (mkVec2 x y)) (Mpm.v s) (Mpm.C s)
                  (upd (Mpm.F s) p (mkMat2 1 0 0 1))
                  (upd (Mpm.material s) p 1%Z)
                  (upd (Mpm.color s) p
                       (IZR r / 255.0, IZR g / 255.0, IZR b / 255.0))
                  (upd (Mpm.color_id s) p (INR k))
                  (if mem (color_hex (r, g, b)) (Mpm.palette s)
                   then Mpm.palette s
                   else Mpm.palette s ++ [color_hex (r, g, b)])
                  (upd (Mpm.Jp s) p 1) (Mpm.grid_m s) (Mpm.grid_v s).
Proof.
  induction draws as [|x0|x0 y0 l IH] using pair_ind; intros s s' rest Hpl;
    try discriminate.
  cbn [place] in Hpl.
  destruct (pixel img _ _) as [[[r g] b]|] eqn:Hpix; [|discriminate].
  destruct (Z.eqb_spec (color_hex (r, g, b)) white) as [Hw | Hnw].
  - destruct (IH s s' rest Hpl)
      as [x [y [r' [g' [b' [k [sk [Hd H]]]]]]]].
    exists x, y, r', g', b', k, (x0 :: y0 :: sk).
    split; [rewrite Hd; reflexivity | exact H].
  - destruct (index_of _ _) as [k|] eqn:Hidx; [|discriminate].
    inversion Hpl; subst s' rest.
    exists x0, y0, r, g, b, k, []. repeat split; assumption.
Qed.

Lemma place_filled (img : Image) (n p : nat) (draws : list R)
    (s s' : Mpm.t) (rest : list R) :
  place img p draws s = Ok (s', rest) ->
  (p < n)%nat -> filled img n p s -> filled img n (S p) s'.
Proof.
  intros Hpl Hp Hs.
  destruct (place_inv img p draws s s' rest Hpl)
    as [x [y [r [g [b [k [sk [_ [Hpix [Hnw [Hidx Hs']]]]]]]]]]].
  destruct Hs as [Lx [Lv [LC [LF [Lm [Lc [Li [LJ [Hnd [Hwh [Hv [HC Hpl0]]]]]]]]]]]].
  destruct (palette_step (color_hex (r, g, b)) (Mpm.palette s))
    as [_ [Pnd [Pwh Pnth]]].
  subst s'. unfold filled. cbn [Mpm.x Mpm.v Mpm.C Mpm.F Mpm.material
    Mpm.color Mpm.color_id Mpm.palette Mpm.Jp].
  rewrite !length_upd.
  repeat (split; [first [assumption | apply Pnd; assumption]|]).
  split.
  { apply Pwh; [intros Heq; apply Hnw; symmetry; exact Heq | exact Hwh]. }
  split; [exact Hv|]. split; [exact HC|].
  intros q Hq. unfold placed.
  cbn [Mpm.x Mpm.v Mpm.C Mpm.F Mpm.material Mpm.color Mpm.color_id
       Mpm.palette Mpm.Jp].
  destruct (Nat.eq_dec q p) as [-> | Hne].
  - exists k, r, g, b.
    rewrite !nth_upd_same by lia. cbn [vx vy].
    repeat split; try assumption.
    apply index_of_nth. exact Hidx.
  - destruct (Hpl0 q) as [k0 [r0 [g0 [b0 H0]]]]; [lia|].
    exists k0, r0, g0, b0.
    rewrite !nth_upd_other by exact Hne.
    destruct H0 as [A1 [A2 [A3 [A4 A5]]]].
    repeat split; try assumption; try tauto.
    apply Pnth. exact A4.
Qed.

Lemma fill_filled (img : Image) (n m : nat) :
  forall (a : nat) (draws : list R) (s s' : Mpm.t),
    fill img (seq a m) draws s = Ok s' ->
    (a + m <= n)%nat -> filled img n a s -> filled img n (a + m) s'.
Proof.
  induction m as [|m IH]; intros a draws s s' Hfill Hn Hs.
  - cbn [seq fill] in Hfill. inversion Hfill; subst.
    rewrite Nat.add_0_r. exact Hs.
  - cbn [seq fill] in Hfill.
    destruct (place img a draws s) as [[s1 rest]| |e] eqn:Hpl;
      try discriminate.
    replace (a + S m)%nat with (S a + m)%nat by lia.
    apply (IH (S a) rest s1 s' Hfill); [lia|].
    apply (place_filled img n a draws s s1 rest Hpl); [lia | exact Hs].
Qed.

Lemma zeros_filled (img : Image) (n : nat) : filled img n 0 (zeros n).
Proof.
  unfold filled, zeros. cbn. rewrite !repeat_length.
  repeat split; try reflexivity; [constructor | intros [] | intros p Hp; lia].
Qed.

Lemma init_filled (quality : Z) (img : Image) (draws : list R) (s : Mpm.t) :
  init quality img draws = Ok s ->
  filled img (Z.to_nat (Mpm.particle_count quality))
         (Z.to_nat (Mpm.particle_count quality)) s.
Proof.
  unfold init. intros Hinit.
  destruct ((Mpm.particle_count quality <=? 0)
            || (Mpm.grid_res quality <=? 0))%Z; [discriminate|].
  apply (fill_filled img _ _ O draws (zeros _) s Hinit); [lia|].
  apply zeros_filled.
Qed.

(** ** When the constructor returns *)

Lemma trunc_unit (d : R) (n : Z) :
  0 <= d < 1 -> (0 < n)%Z -> (0 <= trunc (d * IZR n) < n)%Z.
Proof.
  intros Hd Hn. assert (HN : 0 < IZR n) by (apply (IZR_lt 0); exact Hn).
  assert (Hr : 0 <= d * IZR n) by nra.
  destruct (trunc_nonneg _ Hr) as [H1 H2].
  set (z := trunc (d * IZR n)) in *.
  assert (Hlow : (- 1 < z)%Z) by (apply lt_IZR; lra).
  assert (Hhigh : (z < n)%Z) by (apply lt_IZR; nra).
  lia.
Qed.

Lemma np_index_in (n i : Z) : (0 <= i < n)%Z -> np_index n i = Some i.
Proof.
  intros Hi. unfold np_index.
  replace ((0 <=? i) && (i <? n))%Z with true; [reflexivity|].
  symmetry. apply andb_true_iff. split; [apply Z.leb_le | apply Z.ltb_lt]; lia.
Qed.

Lemma np_index_out (n i : Z) : (0 <= n <= i)%Z -> np_index n i = None.
Proof.
  intros Hi. unfold np_index.
  replace (i <? n)%Z with false by (symmetry; apply Z.ltb_ge; lia).
  replace (i <? 0)%Z with false by (symmetry; apply Z.ltb_ge; lia).
  rewrite !andb_false_r. reflexivity.
Qed.

Lemma pixel_unit (img : Image) (x y : R) :
  (0 < shape0 img)%Z -> (shape0 img <= shape1 img)%Z ->
  0 <= x < 1 -> 0 <= y < 1 ->
  pixel img (trunc (x * IZR (roi_size img))) (trunc (y * IZR (roi_size img)))
  = Some (data img (trunc (x * IZR (roi_size img)))
                   (trunc (y * IZR (roi_size img)))).
Proof.
  intros H0 H1 Hx Hy. unfold pixel, roi_size.
  pose proof (trunc_unit x (shape0 img) Hx H0).
  pose proof (trunc_unit y (shape0 img) Hy H0).
  rewrite !np_index_in by lia. reflexivity.
Qed.

Lemma counts_positive (quality : Z) :
  (0 < quality)%Z ->
  ((Mpm.particle_count quality <=? 0) || (Mpm.grid_res quality <=? 0))%Z
  = false /\
  (0 < Z.to_nat (Mpm.particle_count quality))%nat.
Proof.
  intros Hq. unfold Mpm.particle_count, Mpm.grid_res.
  assert (Hp : (0 < quality ^ 2)%Z) by (apply Z.pow_pos_nonneg; lia).
  split; [|lia].
  apply orb_false_iff. split; apply Z.leb_gt; lia.
Qed.

(** An accepted first draw places the particle and leaves the rest of the
    draws. *)
Lemma place_first (img : Image) (p : nat) (x y : R) (rest : list R)
    (s : Mpm.t) :
  (0 < shape0 img)%Z -> (shape0 img <= shape1 img)%Z ->
  0 <= x < 1 -> 0 <= y < 1 ->
  color_hex (data img (trunc (x * IZR (roi_size img)))
                      (trunc (y * IZR (roi_size img)))) <> white ->
  exists s', place img p (x :: y :: rest) s = Ok (s', rest).
Proof.
  intros H0 H1 Hx Hy Hnw. cbn [place].
  rewrite (pixel_unit img x y H0 H1 Hx Hy).
  destruct (data img _ _) as [[r g] b].
  apply Z.eqb_neq in Hnw. rewrite Hnw.
  destruct (palette_step (color_hex (r, g, b)) (Mpm.palette s)) as [Hin _].
  destruct (index_of_In _ _ Hin) as [k Hk]. cbv zeta in Hk. rewrite Hk.
  eexists. reflexivity.
Qed.

Lemma place_cases (img : Image) (p : nat) (draws : list R) :
  (0 < shape0 img)%Z -> (shape0 img <= shape1 img)%Z ->
  forall s : Mpm.t,
    unit_draws draws ->
    place img p draws s = Starved \/
    exists s' rest, place img p draws s = Ok (s', rest) /\ unit_draws rest.
Proof.
  intros H0 H1.
  induction draws as [|x0|x0 y0 l IH] using pair_ind; intros s Hu;
    try (left; reflexivity).
  inversion Hu as [|? ? Hx Hu1]; subst.
  inversion Hu1 as [|? ? Hy Hu2]; subst.
  destruct (Z.eq_dec
              (color_hex (data img (trunc (x0 * IZR (roi_size img)))
                                   (trunc (y0 * IZR (roi_size img)))))
              white) as [Hw | Hnw].
  - cbn [place]. rewrite (pixel_unit img x0 y0 H0 H1 Hx Hy).
    apply Z.eqb_eq in Hw. rewrite Hw. apply IH. exact Hu2.
  - right. destruct (place_first img p x0 y0 l s H0 H1 Hx Hy Hnw) as [s' Hs'].
    exists s', l. split; assumption.
Qed.

Lemma fill_cases (img : Image) (ps : list nat) :
  (0 < shape0 img)%Z -> (shape0 img <= shape1 img)%Z ->
  forall (draws : list R) (s : Mpm.t),
    unit_draws draws ->
    fill img ps draws s = Starved \/ exists s', fill img ps draws s = Ok s'.
Proof.
  intros H0 H1. induction ps as [|p ps IH]; intros draws s Hu.
  - right. exists s. reflexivity.
  - cbn [fill].
    destruct (place_cases img p draws H0 H1 s Hu)
      as [Hst | [s' [rest [Hok Hu']]]].
    + rewrite Hst. left. reflexivity.
    + rewrite Hok. apply IH. exact Hu'.
Qed.

Lemma fill_total (img : Image) (ps : list nat) :
  (0 < shape0 img)%Z -> (shape0 img <= shape1 img)%Z ->
  (forall i j, color_hex (data img i j) <> white) ->
  forall (draws : list R) (s : Mpm.t),
    unit_draws draws -> (2 * length ps <= length draws)%nat ->
    exists s', fill img ps draws s = Ok s'.
Proof.
  intros H0 H1 Hnw. induction ps as [|p ps IH]; intros draws s Hu Hlen.
  - exists s. reflexivity.
  - destruct draws as [|x [|y rest]]; cbn [length] in Hlen; try lia.
    inversion Hu as [|? ? Hx Hu1]; subst.
    inversion Hu1 as [|? ? Hy Hu2]; subst.
    destruct (place_first img p x y rest s H0 H1 Hx Hy (Hnw _ _)) as [s1 Hs1].
    cbn [fill]. rewrite Hs1. apply IH; [exact Hu2 | lia].
Qed.

Lemma place_white (img : Image) (p : nat) (draws : list R) :
  (0 < shape0 img)%Z -> (shape0 img <= shape1 img)%Z ->
  (forall i j, color_hex (data img i j) = white) ->
  forall s : Mpm.t, unit_draws draws -> place img p draws s = Starved.
Proof.
  intros H0 H1 Hw.
  induction draws as [|x0|x0 y0 l IH] using pair_ind; intros s Hu;
    try reflexivity.
  inversion Hu as [|? ? Hx Hu1]; subst.
  inversion Hu1 as [|? ? Hy Hu2]; subst.
  cbn [place]. rewrite (pixel_unit img x0 y0 H0 H1 Hx Hy).
  rewrite Hw. rewrite Z.eqb_refl. apply IH. exact Hu2.
Qed.

Lemma init_total (quality : Z) (img : Image) (draws : list R) :
  (0 < quality)%Z ->
  (0 < shape0 img)%Z -> (shape0 img <= shape1 img)%Z ->
  (forall i j, color_hex (data img i j) <> white) ->
  unit_draws draws ->
  (2 * Z.to_nat (Mpm.particle_count quality) <= length draws)%nat ->
  exists s, init quality img draws = Ok s.
Proof.
  intros Hq H0 H1 Hnw Hu Hlen. unfold init.
  rewrite (proj1 (counts_positive quality Hq)).
  apply fill_total; try assumption. rewrite length_seq. exact Hlen.
Qed.

Lemma red_init :
  exists s,
    init 1 red_image (repeat 0 (2 * Z.to_nat (Mpm.particle_count 1))) = Ok s.
Proof.
  apply init_total.
  - lia.
  - reflexivity.
  - cbn. lia.
  - intros i j. discriminate.
  - apply Forall_forall. intros d Hd. apply repeat_spec in Hd. subst d. lra.
  - rewrite repeat_length. lia.
Qed.

(** X22. The palette the constructor builds holds no colour twice and
    never holds white. *)
Theorem init_palette (quality : Z) (img : Image) (draws : list R)
    (s : Mpm.t) :
  init quality img draws = Ok s ->
  NoDup (Mpm.palette s) /\ ~ In white (Mpm.palette s).
Proof.
  intros Hinit.
  destruct (init_filled quality img draws s Hinit)
    as [_ [_ [_ [_ [_ [_ [_ [_ [Hnd [Hwh _]]]]]]]]]].
  split; assumption.
Qed.

Lemma init_palette_witness :
  exists s,
    init 1 red_image (repeat 0 (2 * Z.to_nat (Mpm.particle_count 1))) = Ok s /\
    NoDup (Mpm.palette s).
Proof.
  destruct red_init as [s Hs]. exists s. split; [exact Hs|].
  exact (proj1 (init_palette _ _ _ _ Hs)).
Defined.

(** X23. Every particle the constructor places sits on a pixel that is
    not white; its [color_id] is the index at which the palette holds that
    pixel's colour, and its [color] is the pixel's three channels divided
    by 255. *)
Theorem init_colors (quality : Z) (img : Image) (draws : list R)
    (s : Mpm.t) (p : nat) :
  init quality img draws = Ok s ->
  (p < length (Mpm.x s))%nat ->
  exists (k : nat) (r g b : Z),
    pixel img (trunc (vx (nth p (Mpm.x s) vzero) * IZR (roi_size img)))
              (trunc (vy (nth p (Mpm.x s) vzero) * IZR (roi_size img)))
    = Some (r, g, b) /\
    color_hex (r, g, b) <> white /\
    nth p (Mpm.color_id s) 0 = INR k /\
    nth_error (Mpm.palette s) k = Some (color_hex (r, g, b)) /\
    nth p (Mpm.color s) (0, 0, 0)
    = (IZR r / 255.0, IZR g / 255.0, IZR b / 255.0).
Proof.
  intros Hinit Hp.
  destruct (init_filled quality img draws s Hinit)
    as [Lx [_ [_ [_ [_ [_ [_ [_ [_ [_ [_ [_ Hpl]]]]]]]]]]]].
  destruct (Hpl p) as [k [r [g [b [A1 [A2 [A3 [A4 [A5 _]]]]]]]]]; [lia|].
  exists k, r, g, b. repeat split; assumption.
Qed.

Lemma init_colors_witness :
  exists s,
    init 1 red_image (repeat 0 (2 * Z.to_nat (Mpm.particle_count 1))) = Ok s /\
    exists k : nat, nth 0 (Mpm.color_id s) 0 = INR k.
Proof.
  destruct red_init as [s Hs]. exists s. split; [exact Hs|].
  assert (Hp : (0 < length (Mpm.x s))%nat).
  { destruct (init_filled _ _ _ _ Hs) as [Lx _]. rewrite Lx.
    apply (proj2 (counts_positive 1 ltac:(lia))). }
  destruct (init_colors _ _ _ _ O Hs Hp) as [k [r [g [b [_ [_ [H _]]]]]]].
  exists k. exact H.
Defined.

(** X24. The solver the constructor returns holds [particle_count]
    entries in every particle field, all of them jelly at rest: material
    1, [Jp = 1], [F] the identity, and [v] and [C] zero. *)
Theorem init_rest_state (quality : Z) (img : Image) (draws : list R)
    (s : Mpm.t) :
  init quality img draws = Ok s ->
  let n := Z.to_nat (Mpm.particle_count quality) in
  length (Mpm.x s) = n /\ length (Mpm.v s) = n /\ length (Mpm.C s) = n /\
  length (Mpm.F s) = n /\ length (Mpm.material s) = n /\
  length (Mpm.color s) = n /\ length (Mpm.color_id s) = n /\
  length (Mpm.Jp s) = n /\
  Forall (fun m => m = Mpm.MATERIAL_JELLY) (Mpm.material s) /\
  Forall (fun j => j = 1) (Mpm.Jp s) /\
  Forall (fun f => f = midentity) (Mpm.F s) /\
  Mpm.v s = repeat vzero n /\ Mpm.C s = repeat mzero n.
Proof.
  intros Hinit n.
  destruct (init_filled quality img draws s Hinit)
    as [Lx [Lv [LC [LF [Lm [Lc [Li [LJ [_ [_ [Hv [HC Hpl]]]]]]]]]]]].
  fold n in Lx, Lv, LC, LF, Lm, Lc, Li, LJ, Hv, HC, Hpl.
  repeat (split; [assumption|]).
  assert (Hrest : forall p, (p < n)%nat ->
            nth p (Mpm.material s) 0%Z = Mpm.MATERIAL_JELLY /\
            nth p (Mpm.Jp s) 0 = 1 /\ nth p (Mpm.F s) mzero = midentity).
  { intros p Hp.
    destruct (Hpl p Hp) as [k [r [g [b [_ [_ [_ [_ [_ H]]]]]]]]]. exact H. }
  split; [|split; [|split; [|split; assumption]]].
  - apply Forall_nth. intros p d Hp.
    rewrite (nth_indep _ d 0%Z) by exact Hp. apply Hrest. lia.
  - apply Forall_nth. intros p d Hp.
    rewrite (nth_indep _ d 0) by exact Hp. apply Hrest. lia.
  - apply Forall_nth. intros p d Hp.
    rewrite (nth_indep _ d mzero) by exact Hp. apply Hrest. lia.
Qed.

Lemma init_rest_state_witness :
  exists s,
    init 1 red_image (repeat 0 (2 * Z.to_nat (Mpm.particle_count 1))) = Ok s /\
    Forall (fun m => m = Mpm.MATERIAL_JELLY) (Mpm.material s).
Proof.
  destruct red_init as [s Hs]. exists s. split; [exact Hs|].
  pose proof (init_rest_state _ _ _ _ Hs) as H. cbv zeta in H.
  destruct H as [_ [_ [_ [_ [_ [_ [_ [_ [H _]]]]]]]]]. exact H.
Defined.

(** X25. On an image at least as wide as it is tall (and not empty), with
    random numbers in [0, 1), the constructor raises nothing: it returns a
    solver, or its sampling loop is still running when the numbers are
    used up. *)
Theorem init_no_exception (quality : Z) (img : Image) (draws : list R) :
  (0 < quality)%Z ->
  (0 < shape0 img)%Z -> (shape0 img <= shape1 img)%Z ->
  unit_draws draws ->
  init quality img draws = Starved \/ exists s, init quality img draws = Ok s.
Proof.
  intros Hq H0 H1 Hu. unfold init.
  rewrite (proj1 (counts_positive quality Hq)).
  apply fill_cases; assumption.
Qed.

Lemma init_no_exception_witness :
  init 1 red_image [0; 0] = Starved \/
  exists s, init 1 red_image [0; 0] = Ok s.
Proof.
  apply init_no_exception.
  - lia.
  - reflexivity.
  - cbn. lia.
  - repeat constructor; lra.
Defined.

(** X26. On an image all of whose pixels are white the sampling loop never
    accepts a draw: whatever random numbers in [0, 1) it is given, and
    however many, the constructor does not return. *)
Theorem init_white_never_returns (quality : Z) (img : Image)
    (draws : list R) :
  (0 < quality)%Z ->
  (0 < shape0 img)%Z -> (shape0 img <= shape1 img)%Z ->
  (forall i j, color_hex (data img i j) = white) ->
  unit_draws draws ->
  init quality img draws = Starved.
Proof.
  intros Hq H0 H1 Hw Hu. unfold init.
  destruct (counts_positive quality Hq) as [Hc Hn]. rewrite Hc.
  destruct (Z.to_nat (Mpm.particle_count quality)) as [|n]; [lia|].
  cbn [seq fill]. rewrite place_white by assumption. reflexivity.
Qed.

Lemma init_white_never_returns_witness :
  init 1 (mkImage 1 1 (fun _ _ => (255, 255, 255)%Z)) [0; 0; 0.5; 0.5]
  = Starved.
Proof.
  apply init_white_never_returns.
  - lia.
  - reflexivity.
  - cbn. lia.
  - intros i j. reflexivity.
  - repeat constructor; lra.
Defined.

(** X27. The sampled region is a square whose side is the image's first
    dimension: when the image is narrower than that, a draw whose second
    index reaches the second dimension raises [IndexError]. *)
Theorem init_index_error (quality : Z) (img : Image) (x y : R)
    (rest : list R) :
  (0 < quality)%Z ->
  (0 < shape0 img)%Z -> (0 <= shape1 img)%Z ->
  0 <= x < 1 ->
  (shape1 img <= trunc (y * IZR (roi_size img)))%Z ->
  init quality img (x :: y :: rest) = Raised IndexError.
Proof.
  intros Hq H0 H1 Hx Hy. unfold init.
  destruct (counts_positive quality Hq) as [Hc Hn]. rewrite Hc.
  destruct (Z.to_nat (Mpm.particle_count quality)) as [|n]; [lia|].
  cbn [seq fill place]. unfold pixel.
  pose proof (trunc_unit x (shape0 img) Hx H0) as Hi.
  unfold roi_size in *.
  rewrite (np_index_in _ _ Hi).
  rewrite (np_index_out (shape1 img)) by lia. reflexivity.
Qed.

Lemma init_index_error_witness :
  init 1 (mkImage 2 1 (fun _ _ => (255, 0, 0)%Z)) [0; 0.75]
  = Raised IndexError.
Proof.
  apply init_index_error.
  - lia.
  - reflexivity.
  - cbn. lia.
  - lra.
  - cbn [shape1 roi_size shape0].
    assert (H : trunc (0.75 * 2) = 1%Z).
    { unfold trunc. destruct (Rle_dec 0 (0.75 * 2)); [|exfalso; lra].
      symmetry. apply Int_part_spec. lra. }
    rewrite H. lia.
Defined.

(** X28. On an image without a white pixel (at least as wide as tall)
    every draw is accepted: two random numbers per particle are enough for
    the constructor to return a solver. *)
Theorem init_returns (quality : Z) (img : Image) (draws : list R) :
  (0 < quality)%Z ->
  (0 < shape0 img)%Z -> (shape0 img <= shape1 img)%Z ->
  (forall i j, color_hex (data img i j) <> white) ->
  unit_draws draws ->
  (2 * Z.to_nat (Mpm.particle_count quality) <= length draws)%nat ->
  exists s, init quality img draws = Ok s.
Proof. exact (init_total quality img draws). Qed.

Lemma init_returns_witness :
  exists s,
    init 1 red_image (repeat 0 (2 * Z.to_nat (Mpm.particle_count 1))) = Ok s.
Proof.
  apply init_returns.
  - lia.
  - reflexivity.
  - cbn. lia.
  - intros i j. discriminate.
  - apply Forall_forall. intros d Hd. apply repeat_spec in Hd. subst d. lra.
  - rewrite repeat_length. lia.
Defined.

End InitProperties.

(** * Properties of the display loop's keyboard handling *)

Section MainProperties.

Import Main.

Lemma on_event_range (u u' : ui) (e : key) :
  on_event u e = Some u' ->
  (-4 <= omega u <= 4)%Z -> (-4 <= omega u' <= 4)%Z.
Proof.
  destruct e; cbn [on_event]; intros Hev Hu; inversion Hev; subst;
    cbn [omega]; try exact Hu.
  - destruct (Z.ltb_spec (omega u) 4); cbn [omega]; lia.
  - destruct (Z.ltb_spec (-4) (omega u)); cbn [omega]; lia.
Qed.

Lemma on_events_range (es : list key) :
  forall u u' : ui,
    on_events u es = Some u' ->
    (-4 <= omega u <= 4)%Z -> (-4 <= omega u' <= 4)%Z.
Proof.
  induction es as [|e es IH]; intros u u' Hev Hu.
  - inversion Hev; subst. exact Hu.
  - cbn [on_events] in Hev.
    destruct (on_event u e) as [u1|] eqn:H1; [|discriminate].
    apply (IH u1 u' Hev). apply (on_event_range u u1 e H1 Hu).
Qed.

(** X29. Whatever keys are pressed, the angular velocity the display loop
    passes to [mpm.step] stays an integer between -4 and 4: it starts at 4,
    RIGHT and LEFT move it by one and stop at the two bounds. *)
Theorem omega_bounded (es : list key) (u : ui) :
  on_events initial es = Some u -> (-4 <= omega u <= 4)%Z.
Proof.
  intros Hev. apply (on_events_range es initial u Hev). cbn. lia.
Qed.

Lemma omega_bounded_witness :
  on_events initial [RIGHT; LEFT; LEFT; SPACE] = Some (mkUi true 2) /\
  (-4 <= omega (mkUi true 2) <= 4)%Z.
Proof.
  assert (H : on_events initial [RIGHT; LEFT; LEFT; SPACE]
              = Some (mkUi true 2)) by reflexivity.
  split; [exact H | exact (omega_bounded _ _ H)].
Defined.

End MainProperties.

(** * A whole sub-step: free fall *)

Section FreeFall.

Import Mpm.

Lemma rest_F (quality : Z) :
  mmul (madd midentity (mscale (dt quality) mzero)) midentity = midentity.
Proof.
  apply mat_eq; unfold mmul, madd, mscale, midentity, mzero;
    cbn [m00 m01 m10 m11]; ring.
Qed.

(** A jelly particle with [F = I] and [C = 0] carries no stress: the
    matrix [affine] of its P2G body is zero. *)
Lemma p2g_local_rest (quality : Z) (svd : Mat2 -> Mat2 * Mat2 * Mat2)
    (Jp0 : R) :
  svd_of_identity svd ->
  snd (p2g_local quality svd MATERIAL_JELLY mzero midentity Jp0) = mzero.
Proof.
  intros [HUV [H0 H1]]. unfold p2g_local, plastic_loop.
  rewrite rest_F.
  destruct (svd midentity) as [[U sig] V]. cbn [fst snd] in HUV, H0, H1.
  cbn [fold_left fst snd MATERIAL_JELLY MATERIAL_LIQUID MATERIAL_SNOW
       Z.eqb Pos.eqb mdiag mdiag_set m00 m11].
  rewrite HUV, H0, H1.
  generalize (- dt quality * p_vol quality * 4 * inv_dx quality
              * inv_dx quality) (mu_0 * 0.4) (lambda_0 * 0.4)
             (p_mass quality).
  intros k mu la m.
  apply mat_eq; unfold mmul, madd, msub, mscale, mtranspose, midentity, mzero;
    cbn [m00 m01 m10 m11]; lra.
Qed.

Lemma weight_pos (fx : Vec2) (i j : nat) :
  0.5 < vx fx < 1.5 -> 0.5 < vy fx < 1.5 ->
  (i < 3)%nat -> (j < 3)%nat ->
  0 < weight (weights fx) i j.
Proof.
  intros Hx Hy Hi Hj.
  destruct i as [|[|[|i]]]; try lia;
    destruct j as [|[|[|j]]]; try lia;
    unfold weight, weights, vmap; cbn [nth vget vx vy];
    apply Rmult_lt_0_compat; nra.
Qed.

(** One addition of the scatter, for a particle without stress that moves
    with [vp]. *)
Lemma scatter_step_rest (n : Z) (gm : Grid R) (gv : Grid Vec2)
    (vp dpos : Vec2) (bi bj : Z) (wt pm : R) :
  0 < wt * pm ->
  grids_move_with n gm gv vp ->
  let gm' := grid_modify n gm bi bj (fun m => m + wt * pm) in
  let gv' := grid_modify n gv bi bj
               (fun u => vadd u (vscale wt (vadd (vscale pm vp)
                                                 (mvec mzero dpos)))) in
  grids_move_with n gm' gv' vp /\ mass_grows gm gm' /\
  (in_grid n bi bj = true -> 0 < gm' bi bj).
Proof.
  intros Hd Hinv gm' gv'. subst gm' gv'. unfold grid_modify.
  destruct (in_grid n bi bj) eqn:Hb.
  - split; [|split].
    + intros i j Hij. destruct (Hinv i j Hij) as [Hv Hm].
      destruct ((i =? bi)%Z && (j =? bj)%Z).
      * split; [|lra]. rewrite Hv.
        apply vec_eq; unfold vadd, vscale, mvec, mzero;
          cbn [vx vy m00 m01 m10 m11]; ring.
      * split; assumption.
    + intros i j. destruct ((i =? bi)%Z && (j =? bj)%Z); lra.
    + intros _. rewrite !Z.eqb_refl. cbn [andb].
      destruct (Hinv bi bj Hb) as [_ Hm]. lra.
  - split; [exact Hinv|]. split; [intros i j; lra | discriminate].
Qed.

(** The scatter of such a particle, as a fold over any offsets below 3. *)
Lemma scatter_fold_rest (quality : Z) (base : Z * Z) (fx vp : Vec2)
    (l : list (nat * nat)) :
  0.5 < vx fx < 1.5 -> 0.5 < vy fx < 1.5 -> 0 < p_mass quality ->
  (forall a b, In (a, b) l -> (a < 3)%nat /\ (b < 3)%nat) ->
  forall gs : Grid R * Grid Vec2,
    grids_move_with (grid_res quality) (fst gs) (snd gs) vp ->
    let gs' :=
      fold_left
        (fun (gs : Grid R * Grid Vec2) (ij : nat * nat) =>
           let (i, j) := ij in
           let dpos := vscale (dx quality)
                              (vsub (mkVec2 (INR i) (INR j)) fx) in
           let wt := weight (weights fx) i j in
           let bi := (fst base + Z.of_nat i)%Z in
           let bj := (snd base + Z.of_nat j)%Z in
           (grid_modify (grid_res quality) (fst gs) bi bj
                        (fun m => m + wt * p_mass quality),
            grid_modify (grid_res quality) (snd gs) bi bj
              (fun u => vadd u (vscale wt (vadd (vscale (p_mass quality) vp)
                                                (mvec mzero dpos))))))
        l gs in
    grids_move_with (grid_res quality) (fst gs') (snd gs') vp /\
    mass_grows (fst gs) (fst gs') /\
    (forall a b, In (a, b) l ->
       in_grid (grid_res quality) (fst base + Z.of_nat a)
               (snd base + Z.of_nat b) = true ->
       0 < fst gs' (fst base + Z.of_nat a)%Z (snd base + Z.of_nat b)%Z).
Proof.
  intros Hx Hy Hm. induction l as [|[a0 b0] l IH]; intros Hl gs Hinv.
  - cbn [fold_left]. split; [exact Hinv|].
    split; [intros i j; lra | intros a b []].
  - cbn [fold_left]. cbv zeta.
    destruct (Hl a0 b0 (or_introl eq_refl)) as [Ha Hb].
    pose proof (weight_pos fx a0 b0 Hx Hy Ha Hb) as Hw.
    assert (Hd : 0 < weight (weights fx) a0 b0 * p_mass quality)
      by (apply Rmult_lt_0_compat; assumption).
    destruct (scatter_step_rest (grid_res quality) (fst gs) (snd gs) vp
                (vscale (dx quality) (vsub (mkVec2 (INR a0) (INR b0)) fx))
                (fst base + Z.of_nat a0) (snd base + Z.of_nat b0)
                _ _ Hd Hinv) as [S1 [S2 S3]].
    match goal with
    | |- context [fold_left ?f l ?g1] =>
        destruct (IH (fun a b H => Hl a b (or_intror H)) g1 S1)
          as [I1 [I2 I3]]
    end.
    split; [exact I1|]. split.
    + intros i j. eapply Rle_trans; [apply S2 | apply I2].
    + intros a b [Heq | Hin] Hgrid.
      * inversion Heq; subst a b.
        eapply Rlt_le_trans; [apply S3; exact Hgrid | apply I2].
      * apply I3; assumption.
Qed.

Lemma p_mass_pos (quality : Z) : (0 < quality)%Z -> 0 < p_mass quality.
Proof.
  intros Hq. unfold p_mass, p_vol, p_rho, dx, grid_res.
  assert (HN : 0 < IZR (128 * quality)) by (apply (IZR_lt 0); lia).
  assert (Hdx : 0 < 1 / IZR (128 * quality))
    by (apply Rdiv_lt_0_compat; lra).
  nra.
Qed.

Lemma nth_upd_cases {A : Type} (l : list A) (p q : nat) (a d : A) :
  nth q (upd l p a) d = a \/ nth q (upd l p a) d = nth q l d.
Proof.
  destruct (Nat.eq_dec q p) as [-> | Hne].
  - destruct (Nat.lt_ge_cases p (length l)) as [Hlt | Hge].
    + left. apply nth_upd_same. exact Hlt.
    + right. rewrite !nth_overflow; [reflexivity | exact Hge |].
      rewrite length_upd. exact Hge.
  - right. apply nth_upd_other. exact Hne.
Qed.

Lemma scatter_rest (quality : Z) (base : Z * Z) (fx vp : Vec2)
    (gm : Grid R) (gv : Grid Vec2) :
  0.5 < vx fx < 1.5 -> 0.5 < vy fx < 1.5 -> 0 < p_mass quality ->
  grids_move_with (grid_res quality) gm gv vp ->
  let gs' := scatter quality base fx (weights fx) vp mzero gm gv in
  grids_move_with (grid_res quality) (fst gs') (snd gs') vp /\
  mass_grows gm (fst gs') /\
  (forall a b : nat, (a < 3)%nat -> (b < 3)%nat ->
     in_grid (grid_res quality) (fst base + Z.of_nat a)
             (snd base + Z.of_nat b) = true ->
     0 < fst gs' (fst base + Z.of_nat a)%Z (snd base + Z.of_nat b)%Z).
Proof.
  intros Hx Hy Hm Hinv.
  assert (Hl : forall a b, In (a, b) ndrange33 -> (a < 3)%nat /\ (b < 3)%nat).
  { intros a b Hin. unfold ndrange33 in Hin. cbn [In] in Hin.
    repeat (destruct Hin as [Hin | Hin];
            [inversion Hin; subst; split; lia|]).
    contradiction. }
  destruct (scatter_fold_rest quality base fx vp ndrange33 Hx Hy Hm Hl
              (gm, gv) Hinv) as [I1 [I2 I3]].
  split; [exact I1|]. split; [exact I2|].
  intros a b Ha Hb. apply I3.
  unfold ndrange33. cbn [In].
  destruct a as [|[|[|a]]]; try lia; destruct b as [|[|[|b]]]; try lia; tauto.
Qed.

(** The P2G body of a particle at rest: the grid still moves with [vp],
    no node loses mass, the particle's nine nodes hold mass, and every
    particle at rest stays so. *)
Lemma p2g_particle_rest (quality : Z) (svd : Mat2 -> Mat2 * Mat2 * Mat2)
    (s : t) (vp : Vec2) (p : nat) :
  0 < p_mass quality -> svd_of_identity svd ->
  at_rest quality s vp p -> moves_with quality s vp ->
  let s' := p2g_particle quality svd s p in
  moves_with quality s' vp /\
  mass_grows (grid_m s) (grid_m s') /\
  massive_at quality s' (nth p (x s) vzero) /\
  x s' = x s /\ v s' = v s /\ C s' = C s /\
  (forall q, at_rest quality s vp q -> at_rest quality s' vp q).
Proof.
  intros Hm Hsvd [HC [HF [Hmat [Hv [Hb [Hfx [Hfy Hcirc]]]]]]] Hinv s'.
  subst s'. unfold p2g_particle. rewrite HC, HF, Hmat, Hv.
  pose proof (p2g_local_rest quality svd (nth p (Jp s) 0) Hsvd) as Haff.
  assert (HFp : fst (fst (p2g_local quality svd MATERIAL_JELLY mzero
                                    midentity (nth p (Jp s) 0)))
                = midentity).
  { rewrite p2g_local_F by discriminate.
    cbn [MATERIAL_JELLY MATERIAL_LIQUID Z.eqb]. apply rest_F. }
  destruct (p2g_local _ _ _ _ _ _) as [[Fp Jq] affine].
  cbn [fst snd] in Haff, HFp. subst affine Fp.
  destruct (scatter_rest quality (base_of quality (nth p (x s) vzero))
              (fx_of quality (nth p (x s) vzero)) vp (grid_m s) (grid_v s)
              Hfx Hfy Hm Hinv) as [I1 [I2 I3]].
  destruct (scatter _ _ _ _ _ _ _ _) as [gm gv].
  cbn [fst snd] in I1, I2, I3.
  cbn [grid_m grid_v x v C F material set_grid_v set_grid_m set_Jp set_F].
  split; [exact I1|]. split; [exact I2|]. split.
  { intros a b Ha Hb'. apply I3; [exact Ha | exact Hb'|].
    apply in_grid_iff. lia. }
  repeat (split; [reflexivity|]).
  intros q [QC [QF [Qm [Qv Qx]]]]. unfold at_rest.
  cbn [grid_m grid_v x v C F material set_grid_v set_grid_m set_Jp set_F].
  split; [exact QC|]. split; [|split; [exact Qm | split; [exact Qv | exact Qx]]].
  destruct (nth_upd_cases (F s) p q midentity mzero) as [H | H];
    rewrite H; [reflexivity | exact QF].
Qed.

Lemma massive_grows (quality : Z) (s s' : t) (xp : Vec2) :
  mass_grows (grid_m s) (grid_m s') ->
  massive_at quality s xp -> massive_at quality s' xp.
Proof.
  intros Hg Hm a b Ha Hb.
  apply Rlt_le_trans
    with (grid_m s (fst (base_of quality xp) + Z.of_nat a)%Z
                   (snd (base_of quality xp) + Z.of_nat b)%Z);
    [apply Hm; assumption | apply Hg].
Qed.

Lemma p2g_fold_rest (quality : Z) (svd : Mat2 -> Mat2 * Mat2 * Mat2)
    (vp : Vec2) (ps : list nat) :
  0 < p_mass quality -> svd_of_identity svd ->
  forall s : t,
    (forall p, In p ps -> at_rest quality s vp p) ->
    moves_with quality s vp ->
    let s' := fold_left (p2g_particle quality svd) ps s in
    moves_with quality s' vp /\
    mass_grows (grid_m s) (grid_m s') /\
    x s' = x s /\ v s' = v s /\ C s' = C s /\
    (forall p, In p ps -> massive_at quality s' (nth p (x s) vzero)).
Proof.
  intros Hm Hsvd. induction ps as [|p ps IH]; intros s Hrest Hinv.
  - cbn [fold_left]. split; [exact Hinv|]. split; [intros i j; lra|].
    repeat (split; [reflexivity|]). intros p [].
  - cbn [fold_left].
    destruct (p2g_particle_rest quality svd s vp p Hm Hsvd
                (Hrest p (or_introl eq_refl)) Hinv)
      as [P1 [P2 [P3 [Px [Pv [PC Pkeep]]]]]].
    destruct (IH (p2g_particle quality svd s p)) as [I1 [I2 [Ix [Iv [IC I3]]]]].
    + intros q Hq. apply Pkeep. apply Hrest. right. exact Hq.
    + exact P1.
    + split; [exact I1|]. split.
      { intros i j. eapply Rle_trans; [apply P2 | apply I2]. }
      split; [congruence|]. split; [congruence|]. split; [congruence|].
      intros q [Heq | Hq]; [subst q|].
      * apply (massive_grows quality (p2g_particle quality svd s p));
          assumption.
      * rewrite <- Px. apply I3. exact Hq.
Qed.

(** A node away from the margins and inside the rim circle, with positive
    mass [m] and momentum [m * vp], gets the velocity [vp + dt * g]. *)
Lemma grid_node_free (quality : Z) (omega : R) (i j : Z) (m : R) (vp : Vec2) :
  0 < m ->
  (3 <= i <= grid_res quality - 3)%Z -> (3 <= j <= grid_res quality - 3)%Z ->
  norm (node_dpos quality i j) < 0.5 ->
  grid_node quality omega i j m (vscale m vp)
  = vadd vp (vscale (dt quality) g).
Proof.
  intros Hm Hi Hj Hn. unfold grid_node. rewrite Rltb_true by exact Hm.
  assert (Hdiv : vdiv (vscale m vp) m = vp).
  { apply vec_eq; unfold vdiv, vscale; cbn [vx vy]; field; lra. }
  rewrite Hdiv. unfold limit_box.
  replace (i <? 3)%Z with false by (symmetry; apply Z.ltb_ge; lia).
  replace (grid_res quality - 3 <? i)%Z with false
    by (symmetry; apply Z.ltb_ge; lia).
  replace (j <? 3)%Z with false by (symmetry; apply Z.ltb_ge; lia).
  replace (grid_res quality - 3 <? j)%Z with false
    by (symmetry; apply Z.ltb_ge; lia).
  cbn [andb]. unfold limit_circle.
  rewrite (Rleb_false 0.5) by lra. reflexivity.
Qed.

(** The gather of a particle whose nine nodes all hold the velocity [u]. *)
Lemma gather_local (quality : Z) (base : Z * Z) (fx u : Vec2)
    (gv : Grid Vec2) :
  (0 <= fst base /\ fst base + 2 < grid_res quality /\
   0 <= snd base /\ snd base + 2 < grid_res quality)%Z ->
  (forall a b : nat, (a < 3)%nat -> (b < 3)%nat ->
     gv (fst base + Z.of_nat a)%Z (snd base + Z.of_nat b)%Z = u) ->
  gather quality base fx (weights fx) gv = (u, mzero).
Proof.
  intros Hb Hu. unfold gather, ndrange33.
  cbn [fold_left fst snd].
  rewrite !grid_get_in by (apply in_grid_iff; lia).
  rewrite !Hu by lia.
  generalize (inv_dx quality). intros h. clear Hb Hu gv base quality.
  destruct fx as [f1 f2], u as [u1 u2].
  f_equal; [apply vec_eq | apply mat_eq];
    rewrite ?vx_vadd, ?vy_vadd, ?vx_vscale, ?vy_vscale,
      ?m00_madd, ?m01_madd, ?m10_madd, ?m11_madd,
      ?m00_mscale, ?m01_mscale, ?m10_mscale, ?m11_mscale;
    unfold weight, weights, vmap, vsub, outer_product, vzero, mzero;
    cbn [nth vget vx vy INR m00 m01 m10 m11]; lra.
Qed.

Lemma g2p_particle_local (quality : Z) (s : t) (p : nat) (u : Vec2) :
  (0 <= fst (base_of quality (nth p (x s) vzero)) /\
   fst (base_of quality (nth p (x s) vzero)) + 2 < grid_res quality /\
   0 <= snd (base_of quality (nth p (x s) vzero)) /\
   snd (base_of quality (nth p (x s) vzero)) + 2 < grid_res quality)%Z ->
  (forall a b : nat, (a < 3)%nat -> (b < 3)%nat ->
     grid_v s (fst (base_of quality (nth p (x s) vzero)) + Z.of_nat a)%Z
              (snd (base_of quality (nth p (x s) vzero)) + Z.of_nat b)%Z
     = u) ->
  (p < length (x s))%nat -> (p < length (v s))%nat ->
  (p < length (C s))%nat ->
  let s' := g2p_particle quality s p in
  nth p (v s') vzero = u /\
  nth p (C s') mzero = mzero /\
  nth p (x s') vzero = vadd (nth p (x s) vzero) (vscale (dt quality) u).
Proof.
  intros Hb Hu Hx Hv HC. unfold g2p_particle.
  rewrite (gather_local quality _ _ u (grid_v s) Hb Hu).
  cbn. rewrite !nth_upd_same by assumption. repeat split.
Qed.

Lemma g2p_local (quality : Z) (s : t) (u : Vec2) (p : nat) :
  (0 <= fst (base_of quality (nth p (x s) vzero)) /\
   fst (base_of quality (nth p (x s) vzero)) + 2 < grid_res quality /\
   0 <= snd (base_of quality (nth p (x s) vzero)) /\
   snd (base_of quality (nth p (x s) vzero)) + 2 < grid_res quality)%Z ->
  (forall a b : nat, (a < 3)%nat -> (b < 3)%nat ->
     grid_v s (fst (base_of quality (nth p (x s) vzero)) + Z.of_nat a)%Z
              (snd (base_of quality (nth p (x s) vzero)) + Z.of_nat b)%Z
     = u) ->
  length (v s) = length (x s) -> length (C s) = length (x s) ->
  (p < length (x s))%nat ->
  nth p (v (g2p quality s)) vzero = u /\
  nth p (C (g2p quality s)) mzero = mzero /\
  nth p (x (g2p quality s)) vzero
  = vadd (nth p (x s) vzero) (vscale (dt quality) u).
Proof.
  intros Hb Hu Hlv HlC Hp. unfold g2p.
  replace (length (x s)) with (p + S (length (x s) - S p))%nat at 1 2 3 by lia.
  rewrite seq_app, !fold_left_app. cbn [seq fold_left Nat.add].
  set (s1 := fold_left (g2p_particle quality) (seq 0 p) s).
  assert (K1 : g2p_keeps p s s1).
  { apply g2p_fold_keeps. rewrite in_seq. lia. }
  destruct K1 as [G1 [X1 [V1 [C1 [LX1 [LV1 LC1]]]]]].
  destruct (g2p_particle_local quality s1 p u) as [V2 [C2 X2]].
  - rewrite X1. exact Hb.
  - intros a b Ha Hb'. rewrite G1, X1. apply Hu; assumption.
  - lia.
  - lia.
  - lia.
  - set (s2 := g2p_particle quality s1 p) in *.
    assert (K3 : g2p_keeps p s2
                   (fold_left (g2p_particle quality)
                              (seq (S p) (length (x s) - S p)) s2)).
    { apply g2p_fold_keeps. rewrite in_seq. lia. }
    destruct K3 as [_ [X3 [V3 [C3 _]]]].
    rewrite X3, V3, C3, V2, C2, X2, X1. repeat split.
Qed.

Lemma reset_moves (quality : Z) (s : t) (vp : Vec2) :
  moves_with quality (reset_grids quality s) vp.
Proof.
  intros i j Hij. unfold reset_grids, grid_foreach.
  cbn [grid_m grid_v set_grid_v set_grid_m]. rewrite Hij.
  split; [|lra].
  apply vec_eq; unfold vscale, vzero; cbn [vx vy]; ring.
Qed.

Lemma free_fall_all (quality : Z) (svd : Mat2 -> Mat2 * Mat2 * Mat2)
    (omega : R) (s : t) (vp : Vec2) (p : nat) :
  (0 < quality)%Z -> svd_of_identity svd -> rigid_body quality s vp ->
  (p < length (x s))%nat ->
  let s' := substep quality svd omega s in
  let u := vadd vp (vscale (dt quality) g) in
  nth p (v s') vzero = u /\
  nth p (C s') mzero = mzero /\
  nth p (x s') vzero = vadd (nth p (x s) vzero) (vscale (dt quality) u).
Proof.
  intros Hq Hsvd [Lv [LC Hrest]] Hp s' u. subst s'. unfold substep.
  pose proof (p_mass_pos quality Hq) as Hm.
  set (s0 := reset_grids quality s).
  destruct (p2g_fold_rest quality svd vp (seq 0 (length (x s0))) Hm Hsvd s0)
    as [I1 [_ [Ix [Iv [IC I3]]]]].
  { intros q Hq'. apply in_seq in Hq'. apply Hrest.
    change (x s0) with (x s) in Hq'. lia. }
  { apply reset_moves. }
  fold (p2g quality svd s0) in I1, Ix, Iv, IC, I3.
  set (s1 := p2g quality svd s0) in *.
  change (x s0) with (x s) in *. change (v s0) with (v s) in *.
  change (C s0) with (C s) in *.
  destruct (Hrest p Hp) as [_ [_ [_ [_ [Hb [Hfx [Hfy Hcirc]]]]]]].
  assert (Hx2 : x (grid_ops quality omega s1) = x s) by exact Ix.
  assert (Hv2 : v (grid_ops quality omega s1) = v s) by exact Iv.
  assert (HC2 : C (grid_ops quality omega s1) = C s) by exact IC.
  destruct (g2p_local quality (grid_ops quality omega s1) u p)
    as [R1 [R2 R3]].
  - rewrite Hx2. lia.
  - intros a b Ha Hb'. rewrite Hx2.
    set (i := (fst (base_of quality (nth p (x s) vzero)) + Z.of_nat a)%Z).
    set (j := (snd (base_of quality (nth p (x s) vzero)) + Z.of_nat b)%Z).
    assert (Hij : in_grid (grid_res quality) i j = true)
      by (apply in_grid_iff; subst i j; lia).
    rewrite grid_ops_node by exact Hij.
    destruct (I1 i j Hij) as [Hmom _]. rewrite Hmom.
    apply grid_node_free.
    + apply (I3 p); [apply in_seq; lia | exact Ha | exact Hb'].
    + subst i. lia.
    + subst j. lia.
    + apply Hcirc; assumption.
  - rewrite Hx2, Hv2. exact Lv.
  - rewrite Hx2, HC2. exact LC.
  - rewrite Hx2. exact Hp.
  - rewrite Hx2 in R3. repeat split; assumption.
Qed.

(** X30. Free fall through a whole sub-step: when every particle is jelly
    in its rest shape ([F = I], [C = 0]), all move with the same velocity
    [vp], and all lie in the interior (nine nodes away from the box margins
    and inside the rim circle, not on a cell boundary), then after the
    sub-step every particle has velocity [vp + dt * g], affine matrix
    [C = 0], and has moved by [dt] times that velocity; [ti.svd] of the
    identity is assumed to return [U @ V^T = I] and singular values 1. *)
Theorem free_fall (quality : Z) (svd : Mat2 -> Mat2 * Mat2 * Mat2)
    (omega : R) (s : t) (vp : Vec2) (p : nat) :
  (0 < quality)%Z -> svd_of_identity svd -> rigid_body quality s vp ->
  (p < length (x s))%nat ->
  let s' := substep quality svd omega s in
  let u := vadd vp (vscale (dt quality) g) in
  nth p (v s') vzero = u /\
  nth p (C s') mzero = mzero /\
  nth p (x s') vzero = vadd (nth p (x s) vzero) (vscale (dt quality) u).
Proof. exact (free_fall_all quality svd omega s vp p). Qed.

Lemma svd_diagonal_identity : svd_of_identity svd_diagonal.
Proof.
  unfold svd_of_identity, svd_diagonal. cbn [fst snd].
  split; [|split; reflexivity].
  apply mat_eq; unfold mmul, mtranspose, midentity; cbn [m00 m01 m10 m11];
    ring.
Qed.

Lemma centre_interior : interior 1 (mkVec2 0.5 0.5).
Proof.
  unfold interior, fx_of. rewrite base_of_centre. cbn [fst snd vx vy].
  unfold inv_dx, grid_res. simpl Z.mul. simpl Z.sub.
  split; [lia|]. split; [lra|]. split; [lra|].
  intros a b Ha Hb. rewrite <- sqrt_quarter.
  unfold norm, node_dpos, dx, grid_res. cbn [vx vy]. simpl Z.mul.
  apply sqrt_lt_1_alt.
  destruct a as [|[|[|a]]]; try lia; destruct b as [|[|[|b]]]; try lia;
    simpl Z.of_nat; simpl Z.add; lra.
Qed.

Lemma moving_particle_rigid : rigid_body 1 moving_particle (mkVec2 1 2).
Proof.
  unfold rigid_body. split; [reflexivity|]. split; [reflexivity|].
  intros p Hp. simpl in Hp. assert (p = O) by lia. subst p.
  unfold at_rest. cbn [moving_particle C F material v x nth].
  repeat (split; [reflexivity|]). exact centre_interior.
Qed.

Lemma free_fall_witness :
  nth 0 (v (substep 1 svd_diagonal 4 moving_particle)) vzero
  = vadd (mkVec2 1 2) (vscale (dt 1) g).
Proof.
  assert (Hq : (0 < 1)%Z) by lia.
  assert (Hp : (0 < length (x moving_particle))%nat) by (simpl; lia).
  exact (proj1 (free_fall 1 svd_diagonal 4 moving_particle (mkVec2 1 2) 0
                          Hq svd_diagonal_identity moving_particle_rigid Hp)).
Defined.

End FreeFall.
